(** * Co-authorship graph report: colour mapping, attribute coercion, edge table

    Shallow embedding of the computational core of
    [r03-criacao-pagina-html---coautoria-das-publicacoes.py]:
    [linear_color], [build_graph], [compute_common_neighbors_table] and
    [graph_to_embeddable_json], together with the Python built-ins they call
    ([int], [float], [str], [round], [sorted], [list.sort], truthiness), the
    path of the report that [main] writes, and the round trips of ints and
    floats through their texts.

    Layout of the file: the binary64 model ([Float]), the Python values and
    built-ins ([Py]), the graph and the four functions of the script, then the
    lemmas and the theorems about them. *)

From Stdlib Require Import ZArith Lia Bool Ascii String List DecimalString
  DecimalPos.
From Stdlib Require Import Sorting.Sorted Sorting.Permutation OrdersEx.
From stdpp Require Import gmap strings list.

Set Warnings "-clear-no-such-hyp".

Local Open Scope string_scope.
Local Open Scope Z_scope.

(** ** Python floats: IEEE 754 binary64 *)

Module Float.

(** Every finite binary64 number is an integer multiple of [2^-1074], the
    smallest positive subnormal.  A finite float is represented by that
    integer, its number of _units_: [Ffin n] denotes [n * 2^-1074].  The
    order of finite floats is the order of their units.  [-0.0] is identified
    with [0.0]: the script compares floats, does arithmetic on them, converts
    them to ints and tests their truth value, and none of these tells the
    two zeros apart. *)
Inductive float : Set :=
  | Fnan
  | Finf (neg : bool)
  | Ffin (n : Z).

(** [1.0] in units. *)
Definition one : Z := 2 ^ 1074.

(** [2^1024] in units: the first magnitude that no finite binary64 reaches. *)
Definition overflow : Z := 2 ^ 2098.

(** Nearest integer to the rational [a / b] ([0 < b]), ties to the even one. *)
Definition round_half_even (a b : Z) : Z :=
  let q := a / b in
  match 2 * (a mod b) ?= b with
  | Lt => q
  | Gt => q + 1
  | Eq => if Z.even q then q else q + 1
  end.

(** Binary exponent of the last place of a non-negative rational [a / b]
    units: 53 significant bits, and never below one unit (subnormals). *)
Definition ulp_exp (a b : Z) : Z := Z.max 0 (Z.log2 (a / b) - 52).

(** Round the non-negative rational [a / b] (in units) to 53 significant
    bits, ties to even, with an unbounded exponent. *)
Definition round53 (a b : Z) : Z :=
  let k := ulp_exp a b in
  round_half_even a (b * 2 ^ k) * 2 ^ k.

(** The same for either sign: rounding to nearest is symmetric. *)
Definition nearest (a b : Z) : Z :=
  if a <? 0 then - round53 (- a) b else round53 a b.

(** The correctly rounded binary64 for the rational [a / b] units ([0 < b]);
    magnitudes that round to [2^1024] or more become infinities. *)
Definition of_ratio (a b : Z) : float :=
  let n := nearest a b in
  if overflow <=? Z.abs n then Finf (n <? 0) else Ffin n.

(** A float is a binary64 when rounding leaves it unchanged. *)
Definition is_binary64 (x : float) : bool :=
  match x with
  | Ffin n => (nearest n 1 =? n) && (Z.abs n <? overflow)
  | _ => true
  end.

(** The float [m * 2^e] for small literals ([of_dyadic 7 (-1)] is [3.5]). *)
Definition of_dyadic (m e : Z) : float := Ffin (m * 2 ^ (1074 + e)).

Definition is_nan (x : float) : bool :=
  match x with Fnan => true | _ => false end.

Definition neg (x : float) : float :=
  match x with
  | Fnan => Fnan
  | Finf s => Finf (negb s)
  | Ffin n => Ffin (- n)
  end.

(** [x - y]. *)
Definition sub (x y : float) : float :=
  match x, y with
  | Fnan, _ | _, Fnan => Fnan
  | Finf s, Finf s' => if Bool.eqb s s' then Fnan else Finf s
  | Finf s, Ffin _ => Finf s
  | Ffin _, Finf s => Finf (negb s)
  | Ffin a, Ffin b => of_ratio (a - b) 1
  end.

(** [x * y]. *)
Definition mul (x y : float) : float :=
  match x, y with
  | Fnan, _ | _, Fnan => Fnan
  | Finf s, Finf s' => Finf (xorb s s')
  | Finf s, Ffin b => if b =? 0 then Fnan else Finf (xorb s (b <? 0))
  | Ffin a, Finf s => if a =? 0 then Fnan else Finf (xorb (a <? 0) s)
  | Ffin a, Ffin b => of_ratio (a * b) one
  end.

(** [x / y] for a divisor that is not zero (Python raises on a zero one). *)
Definition div (x y : float) : float :=
  match x, y with
  | Fnan, _ | _, Fnan => Fnan
  | Finf _, Finf _ => Fnan
  | Finf s, Ffin b => Finf (xorb s (b <? 0))
  | Ffin _, Finf _ => Ffin 0
  | Ffin a, Ffin b =>
      if 0 <? b then of_ratio (a * one) b else of_ratio (- a * one) (- b)
  end.

(** Comparisons: every comparison with a NaN is false. *)
Definition ltb (x y : float) : bool :=
  match x, y with
  | Fnan, _ | _, Fnan => false
  | Finf s, Finf s' => s && negb s'
  | Finf s, Ffin _ => s
  | Ffin _, Finf s => negb s
  | Ffin a, Ffin b => a <? b
  end.

Definition eqb (x y : float) : bool :=
  match x, y with
  | Fnan, _ | _, Fnan => false
  | Finf s, Finf s' => Bool.eqb s s'
  | Ffin a, Ffin b => a =? b
  | _, _ => false
  end.

(** Conversion of a Python int; [None] when the result is not finite
    (Python raises OverflowError). *)
Definition of_Z (z : Z) : option float :=
  match of_ratio (z * one) 1 with
  | Ffin n => Some (Ffin n)
  | _ => None
  end.

(** The decimal numeral [m * 10^e], as [float] reads it from a string:
    correctly rounded, infinite on overflow. *)
Definition of_decimal (m e : Z) : float :=
  if 0 <=? e then of_ratio (m * 10 ^ e * one) 1
  else of_ratio (m * one) (10 ^ (- e)).

(** [round(x)] of a finite float: nearest integer, ties to even. *)
Definition round_units (n : Z) : Z := round_half_even n one.

(** [int(x)] of a finite float: truncation towards zero. *)
Definition trunc_units (n : Z) : Z := Z.quot n one.

End Float.

Import Float.

(** ** Python values and the built-ins the script calls *)

Module Py.

(** The exceptions these built-ins raise. *)
Inductive exn : Set :=
  | TypeError
  | ValueError
  | OverflowError
  | ZeroDivisionError
  | KeyError
  | IndexError.

(** A computation that returns or raises. *)
Inductive result (A : Type) : Type :=
  | Ok (a : A)
  | Raise (e : exn).
Arguments Ok {A} a.
Arguments Raise {A} e.

#[global] Instance result_ret : MRet result := @Ok.
#[global] Instance result_bind : MBind result :=
  fun A B f m => match m with Ok a => f a | Raise e => Raise e end.

(** The values a GEXF attribute can hold after [nx.read_gexf]: the declared
    attribute type decides between [bool], [int], [float] and [str]. *)
Inductive pyval : Set :=
  | PNone
  | PBool (b : bool)
  | PInt (z : Z)
  | PFloat (f : float)
  | PStr (s : string).

(** *** Strings

    A [string] holds the UTF-8 bytes of a Python [str]: byte-wise
    lexicographic order is code-point order, and replacing or matching an
    ASCII character is the same on bytes as on code points.  Numerals are
    read in ASCII; the non-ASCII digits and spaces that Python also accepts
    are not modelled and read as unparseable. *)

Definition code (c : ascii) : Z := Z.of_N (N_of_ascii c).

(** The white space that [int] and [float] strip from an ASCII text: tab,
    line feed, vertical tab, form feed, carriage return and space. *)
Definition is_space (c : ascii) : bool :=
  let n := code c in
  ((9 <=? n) && (n <=? 13)) || (n =? 32).

Definition digit_of (c : ascii) : option Z :=
  let n := code c in
  if (48 <=? n) && (n <=? 57) then Some (n - 48) else None.

Definition to_lower (c : ascii) : ascii :=
  let n := code c in
  if (65 <=? n) && (n <=? 90) then ascii_of_N (Z.to_N (n + 32)) else c.

Fixpoint lstrip (l : list ascii) : list ascii :=
  match l with
  | c :: l' => if is_space c then lstrip l' else l
  | [] => []
  end.

Definition strip (l : list ascii) : list ascii :=
  rev (lstrip (rev (lstrip l))).

(** [s.replace(",", ".")]. *)
Fixpoint replace_comma (s : string) : string :=
  match s with
  | EmptyString => EmptyString
  | String c s' =>
      String (if Ascii.eqb c "," then "."%char else c) (replace_comma s')
  end.

(** An optional sign. *)
Definition sign_split (l : list ascii) : bool * list ascii :=
  match l with
  | c :: l' =>
      if Ascii.eqb c "-" then (true, l')
      else if Ascii.eqb c "+" then (false, l')
      else (false, l)
  | [] => (false, l)
  end.

(** The rest of a [digitpart]: digits, each optionally preceded by one
    underscore.  Returns the value, the number of digits and what follows. *)
Fixpoint digitpart_from (acc cnt : Z) (l : list ascii) : Z * Z * list ascii :=
  match l with
  | c :: l' =>
      match digit_of c with
      | Some d => digitpart_from (10 * acc + d) (cnt + 1) l'
      | None =>
          if Ascii.eqb c "_" then
            match l' with
            | c' :: l'' =>
                match digit_of c' with
                | Some d => digitpart_from (10 * acc + d) (cnt + 1) l''
                | None => (acc, cnt, l)
                end
            | [] => (acc, cnt, l)
            end
          else (acc, cnt, l)
      end
  | [] => (acc, cnt, l)
  end.

(** [digitpart ::= digit (["_"] digit)*]. *)
Definition digitpart (l : list ascii) : option (Z * Z * list ascii) :=
  match l with
  | c :: l' =>
      match digit_of c with
      | Some d => Some (digitpart_from d 1 l')
      | None => None
      end
  | [] => None
  end.

(** [int(s)] for a string, base 10. *)
Definition int_of_string (s : string) : option Z :=
  let '(neg, l) := sign_split (strip (list_ascii_of_string s)) in
  match digitpart l with
  | Some (v, _, []) => Some (if neg then - v else v)
  | _ => None
  end.

(** [number [exponent]]: the numeral [m * 10^e] it denotes, where
    [number ::= [digitpart] "." digitpart | digitpart ["."]] and
    [exponent ::= ("e" | "E") [sign] digitpart]. *)
Definition floatnumber (l : list ascii) : option (Z * Z) :=
  let '(ip, l1) :=
    match digitpart l with
    | Some (v, _, r) => (Some v, r)
    | None => (None, l)
    end in
  let '(dot, l2) :=
    match l1 with
    | c :: r => if Ascii.eqb c "." then (true, r) else (false, l1)
    | [] => (false, l1)
    end in
  let '(fp, l3) :=
    if dot then
      match digitpart l2 with
      | Some (v, n, r) => (Some (v, n), r)
      | None => (None, l2)
      end
    else (None, l2) in
  match ip, fp with
  | None, None => None
  | _, _ =>
      let '(fv, fc) := default (0, 0) fp in
      let m := default 0 ip * 10 ^ fc + fv in
      match l3 with
      | [] => Some (m, - fc)
      | c :: r =>
          if Ascii.eqb (to_lower c) "e" then
            let '(eneg, r') := sign_split r in
            match digitpart r' with
            | Some (ev, _, []) => Some (m, (if eneg then - ev else ev) - fc)
            | _ => None
            end
          else None
      end
  end.

(** [float(s)] for a string. *)
Definition float_of_string (s : string) : option float :=
  let '(neg, l) := sign_split (strip (list_ascii_of_string s)) in
  let word := string_of_list_ascii (map to_lower l) in
  if String.eqb word "inf" || String.eqb word "infinity" then Some (Finf neg)
  else if String.eqb word "nan" then Some Fnan
  else
    match floatnumber l with
    | Some (m, e) => Some (of_decimal (if neg then - m else m) e)
    | None => None
    end.

(** [str(z)] for an int. *)
Definition str_of_Z (z : Z) : string := NilZero.string_of_int (Z.to_int z).

(** *** [repr] of a float: the shortest decimal that reads back as it *)

(** [10^e <= a / one], for [a] in units. *)
Definition ge_pow10 (a e : Z) : bool :=
  if 0 <=? e then 10 ^ e * one <=? a else one <=? a * 10 ^ (- e).

(** [floor (log10 (a / one))] for [0 < a]. *)
Definition decimal_exponent (a : Z) : Z :=
  let est := (Z.log2 a - 1074) * 30103 / 100000 in
  if ge_pow10 a (est + 1) then est + 1
  else if ge_pow10 a est then est
  else est - 1.

(** The numeral [d * 10^x] reads back as the float of [a] units. *)
Definition reads_back (d x a : Z) : bool :=
  match of_decimal d x with
  | Ffin n => n =? a
  | _ => false
  end.

(** Search for the least number of digits [p] whose [p]-digit decimal
    nearest to [a] units reads back as [a]; 17 digits always do. *)
Fixpoint shortest_digits (fuel : nat) (p a e10 : Z) : Z * Z :=
  let x := e10 - (p - 1) in
  let '(num, den) := if 0 <=? x then (a, one * 10 ^ x) else (a * 10 ^ (- x), one) in
  let near := round_half_even num den in
  let other := if near =? num / den then num / den + 1 else num / den in
  match fuel with
  | O => (near, x)
  | S fuel' =>
      if reads_back near x a then (near, x)
      else if reads_back other x a then (other, x)
      else shortest_digits fuel' (p + 1) a e10
  end.

Fixpoint drop_zeros (fuel : nat) (d x : Z) : Z * Z :=
  match fuel with
  | O => (d, x)
  | S fuel' => if d mod 10 =? 0 then drop_zeros fuel' (d / 10) (x + 1) else (d, x)
  end.

Definition zeros (n : Z) : string := string_of_list_ascii (replicate (Z.to_nat n) "0"%char).

Definition two_digits (e : Z) : string :=
  if e <? 10 then "0" +:+ str_of_Z e else str_of_Z e.

(** The digits [ds] with the decimal point after the first [decpt] of them,
    in the layout of [repr]: exponent form when [decpt <= -4] or
    [16 < decpt], positional form with at least one fractional digit
    otherwise. *)
Definition layout (ds : string) (decpt : Z) : string :=
  let n := Z.of_nat (String.length ds) in
  if (decpt <=? -4) || (16 <? decpt) then
    let e := decpt - 1 in
    substring 0 1 ds
      +:+ (if 1 <? n then "." +:+ substring 1 (String.length ds - 1) ds else "")
      +:+ "e" +:+ (if e <? 0 then "-" else "+") +:+ two_digits (Z.abs e)
  else if decpt <=? 0 then "0." +:+ zeros (- decpt) +:+ ds
  else if n <=? decpt then ds +:+ zeros (decpt - n) +:+ ".0"
  else substring 0 (Z.to_nat decpt) ds +:+ "."
         +:+ substring (Z.to_nat decpt) (String.length ds - Z.to_nat decpt) ds.

Definition repr_float (f : float) : string :=
  match f with
  | Fnan => "nan"
  | Finf s => if s then "-inf" else "inf"
  | Ffin 0 => "0.0"
  | Ffin n =>
      let a := Z.abs n in
      let '(d, x) := shortest_digits 16 1 a (decimal_exponent a) in
      let '(d, x) := drop_zeros 17 d x in
      let ds := str_of_Z d in
      (if n <? 0 then "-" else "") +:+ layout ds (Z.of_nat (String.length ds) + x)
  end.

(** *** The built-ins *)

(** [str(v)]. *)
Definition py_str (v : pyval) : string :=
  match v with
  | PNone => "None"
  | PBool b => if b then "True" else "False"
  | PInt z => str_of_Z z
  | PFloat f => repr_float f
  | PStr s => s
  end.

(** [int(v)]. *)
Definition py_int (v : pyval) : result Z :=
  match v with
  | PNone => Raise TypeError
  | PBool b => Ok (if b then 1 else 0)
  | PInt z => Ok z
  | PFloat Fnan => Raise ValueError
  | PFloat (Finf _) => Raise OverflowError
  | PFloat (Ffin n) => Ok (trunc_units n)
  | PStr s =>
      match int_of_string s with
      | Some z => Ok z
      | None => Raise ValueError
      end
  end.

(** [float(z)] for an int. *)
Definition float_of_Z (z : Z) : result float :=
  match of_Z z with
  | Some f => Ok f
  | None => Raise OverflowError
  end.

(** [float(v)]. *)
Definition py_float (v : pyval) : result float :=
  match v with
  | PNone => Raise TypeError
  | PBool b => Ok (Ffin (if b then one else 0))
  | PInt z => float_of_Z z
  | PFloat f => Ok f
  | PStr s =>
      match float_of_string s with
      | Some f => Ok f
      | None => Raise ValueError
      end
  end.

(** [round(x)] with one argument: an int. *)
Definition py_round (x : float) : result Z :=
  match x with
  | Fnan => Raise ValueError
  | Finf _ => Raise OverflowError
  | Ffin n => Ok (round_units n)
  end.

(** [x / y] on floats. *)
Definition py_div (x y : float) : result float :=
  match y with
  | Ffin 0 => Raise ZeroDivisionError
  | _ => Ok (div x y)
  end.

(** Truth value of [v]. *)
Definition truthy (v : pyval) : bool :=
  match v with
  | PNone => false
  | PBool b => b
  | PInt z => negb (z =? 0)
  | PFloat (Ffin 0) => false
  | PFloat _ => true
  | PStr s => negb (String.eqb s "")
  end.

(** [a or b]. *)
Definition py_or (a b : pyval) : pyval := if truthy a then a else b.

(** [l[i]] on a list: negative indices count from the end. *)
Definition index {A} (l : list A) (i : Z) : result A :=
  let n := Z.of_nat (length l) in
  let j := if i <? 0 then i + n else i in
  if (0 <=? j) && (j <? n) then
    match l !! Z.to_nat j with
    | Some a => Ok a
    | None => Raise IndexError
    end
  else Raise IndexError.

(** [sorted([a, b])] on two strings. *)
Definition sorted2 (a b : string) : string * string :=
  if String.ltb b a then (b, a) else (a, b).

End Py.

Import Py.

(** ** The script *)

(** [PALETTE] (lines 26-29). *)
Definition PALETTE : list string :=
  [ "#5e4fa2"; "#3288bd"; "#66c2a5"; "#abdda4"; "#e6f598";
    "#fee08b"; "#fdae61"; "#f46d43"; "#d53e4f"; "#9e0142" ].

(** [linear_color(value, vmin, vmax, palette)] (lines 41-51).  [vmin] and
    [vmax] are Python ints: the only caller passes the minimum and the
    maximum of a list of ints, or [0] and [1]. *)
Definition linear_color (value : pyval) (vmin vmax : Z) (palette : list string)
  : result string :=
  missing ← match value with
            | PNone => Ok true
            | _ => f ← py_float value; Ok (is_nan f)
            end;
  if missing : bool then index palette 0
  else if vmax <=? vmin then index palette 0
  else
    fv ← py_float value;
    lo ← float_of_Z vmin;
    hi ← float_of_Z vmax;
    lo' ← float_of_Z vmin;
    t ← py_div (sub fv lo) (sub hi lo');
    let t := if ltb t (Ffin 0) then Ffin 0
             else if ltb (Ffin one) t then Ffin one else t in
    let len := Z.of_nat (length palette) in
    scale ← float_of_Z (len - 1);
    idx ← py_round (mul t scale);
    let idx := if idx <? 0 then 0 else idx in
    let idx := if len <=? idx then len - 1 else idx in
    index palette idx.

(** *** The graph

    An undirected graph as [nx.read_gexf] returns it ([nx.Graph] or
    [nx.MultiGraph]), with string node ids: [nodes G] lists [G.nodes(data=True)]
    in order, [edges G] lists what [G.edges(data=True)] yields.  A
    multigraph yields parallel edges, in either orientation. *)
Record graph : Type := Graph {
  nodes : list (string * gmap string pyval);
  edges : list (string * string * gmap string pyval)
}.

(** The other endpoints of the edge ends at [n]: a self-loop has two. *)
Definition ends_at (n : string) (e : string * string * gmap string pyval)
  : list string :=
  let '(u, v, _) := e in
  ((if decide (u = n) then [v] else []) ++ (if decide (v = n) then [u] else []))%list.

(** [set(G.neighbors(n))]. *)
Definition neighbors (G : graph) (n : string) : gset string :=
  list_to_set (flat_map (ends_at n) (edges G)).

(** [G.degree[n]]. *)
Definition degree (G : graph) (n : string) : Z :=
  Z.of_nat (length (flat_map (ends_at n) (edges G))).

(** [G.nodes[n]]. *)
Definition node_data (ns : list (string * gmap string pyval)) (n : string)
  : result (gmap string pyval) :=
  match list_find (fun nd => nd.1 = n) ns with
  | Some (_, (_, data)) => Ok data
  | None => Raise KeyError
  end.

(** Store the attribute dict [data] back at node [n]. *)
Definition set_node_data (ns : list (string * gmap string pyval)) (n : string)
    (data : gmap string pyval) : list (string * gmap string pyval) :=
  map (fun nd => if decide (nd.1 = n) then (n, data) else nd) ns.

(** Well-formed graphs: node ids are the keys of a dict, and an edge joins
    nodes of the graph. *)
Definition wf_graph (G : graph) : Prop :=
  NoDup (nodes G).*1 ∧
  Forall (λ e, e.1.1 ∈ (nodes G).*1 ∧ e.1.2 ∈ (nodes G).*1) (edges G).

(** [min(l) if l else d], [max(l) if l else d]. *)
Definition min_or (d : Z) (l : list Z) : Z :=
  match l with
  | [] => d
  | x :: l' => fold_left Z.min l' x
  end.

Definition max_or (d : Z) (l : list Z) : Z :=
  match l with
  | [] => d
  | x :: l' => fold_left Z.max l' x
  end.

(** A loop whose body may raise. *)
Fixpoint for_each {A S} (body : S → A → result S) (l : list A) (s : S)
  : result S :=
  match l with
  | [] => Ok s
  | a :: l' => s' ← body s a; for_each body l' s'
  end.

(** *** [build_graph] (lines 53-99) *)

(** Body of the first loop (lines 64-78): the node's connectivity, and its
    attributes afterwards.  The degree is stored only when the attribute is
    absent or unparseable; an attribute that parses is left as it was read. *)
Definition conexoes_step (G : graph) (nd : string * gmap string pyval)
  : (string * gmap string pyval) * Z :=
  let '(n, data) := nd in
  let conex : option Z :=
    match data !! "Conexões" with
    | Some v =>
        match py_int v with
        | Ok z => Some z
        | Raise _ =>
            match f ← py_float (PStr (replace_comma (py_str v)));
                  py_int (PFloat f) with
            | Ok z => Some z
            | Raise _ => None
            end
        end
    | None => None
    end in
  match conex with
  | Some c => ((n, data), c)
  | None =>
      let c := degree G n in
      ((n, <["Conexões" := PInt c]> data), c)
  end.

(** Body of the second loop (lines 84-88), for one item of [pos]. *)
Definition color_step (vmin vmax : Z) (ns : list (string * gmap string pyval))
    (item : string * (float * float)) : result (list (string * gmap string pyval)) :=
  let '(n, (x, y)) := item in
  data ← node_data ns n;
  let data := <["x" := PFloat x]> data in
  let data := <["y" := PFloat y]> data in
  let conex := default (PInt 0) (data !! "Conexões") in
  color ← linear_color conex vmin vmax PALETTE;
  Ok (set_node_data ns n (<["color" := PStr color]> data)).

(** Body of the third loop (lines 91-97). *)
Definition weight_step (e : string * string * gmap string pyval)
  : string * string * gmap string pyval :=
  let '(u, v, d) := e in
  let w := default (PInt 1) (d !! "weight") in
  let w := match py_float (PStr (replace_comma (py_str w))) with
           | Ok f => f
           | Raise _ => Ffin one
           end in
  (u, v, <["weight" := PFloat w]> d).

(** [build_graph], from the graph that [nx.read_gexf] returned.  [pos] is
    the items of the dict that [nx.kamada_kawai_layout] returned: a library
    call, taken as given. *)
Definition build_graph (G : graph) (pos : list (string * (float * float)))
  : result graph :=
  let stepped := map (conexoes_step G) (nodes G) in
  let conexoes_values := map snd stepped in
  let vmin := min_or 0 conexoes_values in
  let vmax := max_or 1 conexoes_values in
  ns ← for_each (color_step vmin vmax) pos (map fst stepped);
  Ok {| nodes := ns; edges := map weight_step (edges G) |}.

(** *** [compute_common_neighbors_table] (lines 101-129) *)

Record row : Type := Row {
  aresta : string;
  colabs : float;
  comuns : Z
}.

(** [neigh] (line 108). *)
Definition neigh (G : graph) : gmap string (gset string) :=
  list_to_map (map (fun nd => (nd.1, neighbors G nd.1)) (nodes G)).

(** [key] (lines 112-113). *)
Definition edge_key (u v : string) : string :=
  let '(a, b) := sorted2 u v in a +:+ "||" +:+ b.

(** Body of the loop over the edges (lines 111-126). *)
Definition edge_step (G : graph) (id_to_label : gmap string string)
    (st : gset string * list row) (e : string * string * gmap string pyval)
  : result (gset string * list row) :=
  let '(seen, rows) := st in
  let '(u, v, d) := e in
  let '(a, b) := sorted2 u v in
  let key := a +:+ "||" +:+ b in
  if decide (key ∈ seen) then Ok (seen, rows)
  else
    let seen := seen ∪ {[key]} in
    w ← py_float (py_or (default (PInt 1) (d !! "weight")) (PInt 1));
    let comuns :=
      size ((default ∅ (neigh G !! a) ∩ default ∅ (neigh G !! b)) ∖ {[a; b]}) in
    let la := default a (id_to_label !! a) in
    let lb := default b (id_to_label !! b) in
    let '(l1, l2) := sorted2 la lb in
    Ok (seen, (rows ++ [ {| aresta := l1 +:+ ", " +:+ l2;
                            colabs := w;
                            comuns := Z.of_nat comuns |} ])%list).

(** The sort key (line 128) and Python's [<] on such tuples: the first
    component that differs decides. *)
Definition sort_key (r : row) : float * Z * string :=
  (neg (colabs r), - comuns r, aresta r).

Definition key_lt (k1 k2 : float * Z * string) : bool :=
  let '(w1, c1, s1) := k1 in
  let '(w2, c2, s2) := k2 in
  if negb (Float.eqb w1 w2) then Float.ltb w1 w2
  else if negb (c1 =? c2) then (c1 <? c2)
  else String.ltb s1 s2.

(** [rows.sort(key=...)].  [list.sort] is stable, and on keys that [<]
    orders totally the stable sorted arrangement is unique: the model
    computes it by insertion.  For two rows [list.sort] makes the one
    comparison that the insertion makes (is the second less than the
    first), whatever the keys.  For more rows with a NaN weight among them
    [<] is not a total order and the arrangement Python leaves depends on
    its merge strategy, which is not modelled. *)
Fixpoint insert_row (r : row) (l : list row) : list row :=
  match l with
  | [] => [r]
  | r' :: l' =>
      if key_lt (sort_key r) (sort_key r') then r :: l
      else r' :: insert_row r l'
  end.

Definition sort_rows (l : list row) : list row :=
  fold_left (fun acc r => insert_row r acc) l [].

(** The rows before sorting. *)
Definition edge_rows (G : graph) (id_to_label : gmap string string)
  : result (list row) :=
  st ← for_each (edge_step G id_to_label) (edges G) (∅, []);
  Ok st.2.

Definition compute_common_neighbors_table (G : graph)
    (id_to_label : gmap string string) : result (list row) :=
  rows ← edge_rows G id_to_label;
  Ok (sort_rows rows).

(** *** [graph_to_embeddable_json] (lines 131-216) *)

(** [to_int] (lines 155-159). *)
Definition to_int (x : pyval) : Z :=
  match py_int x with
  | Ok z => z
  | Raise _ =>
      match f ← py_float (PStr (replace_comma (py_str x)));
            py_int (PFloat f) with
      | Ok z => z
      | Raise _ => 0
      end
  end.

(** [to_float] (lines 160-162): [None] is the missing marker. *)
Definition to_float (x : pyval) : option float :=
  match py_float (PStr (replace_comma (py_str x))) with
  | Ok f => Some f
  | Raise _ => None
  end.

(** An entry of ["nodes"]; the constant [fx] and [fy] are left out. *)
Record node_out : Type := NodeOut {
  n_id : string;
  n_label : string;
  n_x : float;
  n_y : float;
  n_r : float;
  n_color : pyval;
  n_pub_tot : Z;
  n_pub_coa : Z;
  n_conex : Z;
  n_prop : option float
}.

Record link_out : Type := LinkOut {
  l_source : string;
  l_target : string;
  l_weight : float;
  l_color : pyval
}.

Record vertex_row : Type := VertexRow {
  v_id : string;
  v_nome : string;
  v_pub_tot : Z;
  v_pub_coa : Z;
  v_conex : Z;
  v_prop : option float;
  v_cor : pyval
}.

Record report : Type := Report {
  graph_nodes : list node_out;
  graph_links : list link_out;
  vertex_table : list vertex_row;
  edge_table : list row
}.

(** [id_to_label] (lines 138-142). *)
Definition labels (G : graph) : gmap string string :=
  fold_left
    (fun m nd => <[nd.1 := py_str (default (PStr nd.1) (nd.2 !! "label"))]> m)
    (nodes G) ∅.

(** Body of the loop over the nodes (lines 144-185). *)
Definition node_entry (node_radius_const : pyval)
    (nd : string * gmap string pyval) : result node_out :=
  let '(nid, data) := nd in
  let label := py_str (default (PStr nid) (data !! "label")) in
  let pub_tot := default (PInt 0) (data !! "Publicações_totais") in
  let pub_coa := default (PInt 0) (data !! "Publicações_em_coautoria") in
  let conex := default (PInt 0) (data !! "Conexões") in
  let prop := default PNone (data !! "Proporção_da_coautoria_Fiocruz") in
  let pub_tot := to_int pub_tot in
  let pub_coa := to_int pub_coa in
  let conex := to_int conex in
  let prop := to_float prop in
  x ← py_float (default (PFloat (Ffin 0)) (data !! "x"));
  y ← py_float (default (PFloat (Ffin 0)) (data !! "y"));
  let color := default (PStr "#1f77b4") (data !! "color") in
  r ← py_float node_radius_const;
  Ok {| n_id := nid; n_label := label; n_x := x; n_y := y; n_r := r;
        n_color := color; n_pub_tot := pub_tot; n_pub_coa := pub_coa;
        n_conex := conex; n_prop := prop |}.

(** Body of the loop over the edges (lines 188-194). *)
Definition link_entry (e : string * string * gmap string pyval)
  : result link_out :=
  let '(u, v, d) := e in
  w ← py_float (py_or (default (PInt 1) (d !! "weight")) (PInt 1));
  Ok {| l_source := u; l_target := v; l_weight := w;
        l_color := default (PStr "#aaa") (d !! "color") |}.

(** Lines 201-210. *)
Definition vertex_entry (n : node_out) : vertex_row :=
  {| v_id := n_id n; v_nome := n_label n; v_pub_tot := n_pub_tot n;
     v_pub_coa := n_pub_coa n; v_conex := n_conex n; v_prop := n_prop n;
     v_cor := n_color n |}.

(** A list comprehension whose body may raise. *)
Fixpoint map_result {A B} (f : A → result B) (l : list A) : result (list B) :=
  match l with
  | [] => Ok []
  | a :: l' => b ← f a; bs ← map_result f l'; Ok (b :: bs)
  end.

Definition graph_to_embeddable_json (G : graph) (node_radius_const : pyval)
  : result report :=
  let id_to_label := labels G in
  ns ← map_result (node_entry node_radius_const) (nodes G);
  links ← map_result link_entry (edges G);
  rows ← compute_common_neighbors_table G id_to_label;
  Ok {| graph_nodes := ns; graph_links := links;
        vertex_table := map vertex_entry ns; edge_table := rows |}.

(** [main] (lines 637-650), from the loaded graph to the report data. *)
Definition main (G : graph) (pos : list (string * (float * float)))
    (node_radius : float) : result report :=
  G' ← build_graph G pos;
  graph_to_embeddable_json G' (PFloat node_radius).

(** *** The path of the report (line 640)

    [os.path.splitext] of [posixpath]: the extension starts at the last dot
    of the last component, unless that component has only dots before
    it. *)

(** [p.rfind(c)]: the index of the last [c], or [-1]. *)
Fixpoint rfind_from (c : ascii) (l : list ascii) (i acc : Z) : Z :=
  match l with
  | [] => acc
  | x :: l' => rfind_from c l' (i + 1) (if Ascii.eqb x c then i else acc)
  end.

Definition rfind (c : ascii) (l : list ascii) : Z := rfind_from c l 0 (-1).

(** [genericpath._splitext(p, "/", None, ".")]: the loop looks for a
    character that is not a dot between the last slash and the last dot. *)
Definition splitext (p : string) : string * string :=
  let l := list_ascii_of_string p in
  let sepIndex := rfind "/" l in
  let dotIndex := rfind "." l in
  if (sepIndex <? dotIndex)
     && existsb (λ c, negb (Ascii.eqb c "."))
          (drop (Z.to_nat (sepIndex + 1)) (take (Z.to_nat dotIndex) l))
  then (string_of_list_ascii (take (Z.to_nat dotIndex) l),
        string_of_list_ascii (drop (Z.to_nat dotIndex) l))
  else (p, "").

(** [out_html = os.path.splitext(gexf_path)[0] + ".html"]. *)
Definition out_html (gexf_path : string) : string :=
  (splitext gexf_path).1 +:+ ".html".

(** ** Notions used in the statements *)

(** [x <= y] on floats that are not NaN. *)
Definition fle (x y : float) : Prop :=
  match x, y with
  | Fnan, _ | _, Fnan => False
  | Finf true, _ => True
  | _, Finf false => True
  | Ffin a, Ffin b => a ≤ b
  | _, _ => False
  end.

(** [float(vmax) - float(vmin)] is a finite float and is not zero: the
    bounds for which the quotient in [linear_color] is defined. *)
Definition range_ok (vmin vmax : Z) : bool :=
  match of_Z vmin, of_Z vmax with
  | Some lo, Some hi =>
      match sub hi lo with
      | Ffin d => negb (d =? 0)
      | _ => false
      end
  | _, _ => false
  end.

(** The colour mapper in the words of the specification (section 4.3):
    normalize linearly, clamp to [[0, 1]], scale to [[0, size - 1]], round
    to a nearest integer, clamp the index into bounds. *)
Definition spec_normalize (value lo hi : float) : float :=
  div (sub value lo) (sub hi lo).

Definition spec_clamp01 (t : float) : float :=
  if ltb t (Ffin 0) then Ffin 0
  else if ltb (Ffin one) t then Ffin one else t.

Definition spec_scale (t : float) (size : Z) : float :=
  mul t (Ffin ((size - 1) * one)).

(** [i] is an integer nearest to the float [s]: at most one half away. *)
Definition nearest_integer (s : float) (i : Z) : Prop :=
  ∃ n, s = Ffin n ∧ 2 * Z.abs (i * one - n) ≤ one.

Definition spec_clamp_index (i size : Z) : Z := Z.max 0 (Z.min (size - 1) i).

(** The index that the specification assigns to a number within given
    bounds. *)
Definition spec_index (value lo hi : float) (i : Z) : Prop :=
  ∃ j, nearest_integer
         (spec_scale (spec_clamp01 (spec_normalize value lo hi)) 10) j ∧
       i = spec_clamp_index j 10.

(** The numbers among the Python values, with their exact value in units:
    ints, and floats that are finite binary64 numbers. *)
Definition number_units (v : pyval) : option Z :=
  match v with
  | PInt z => Some (z * one)
  | PFloat (Ffin n) => if is_binary64 (Ffin n) then Some n else None
  | _ => None
  end.

(** What the second loop of [build_graph] does to a node: it keeps the id
    and every attribute but ["x"], ["y"] and ["color"]; a node that the
    layout positions gets the colour of its stored connectivity; any other
    node is left as it was. *)
Definition colored (vmin vmax : Z) (positioned : list string)
    (nd nd' : string * gmap string pyval) : Prop :=
  nd'.1 = nd.1 ∧
  (∀ k, k ≠ "x" → k ≠ "y" → k ≠ "color" → nd'.2 !! k = nd.2 !! k) ∧
  (nd.1 ∈ positioned →
   ∃ color,
     linear_color (default (PInt 0) (nd.2 !! "Conexões")) vmin vmax PALETTE
       = Ok color ∧
     nd'.2 !! "color" = Some (PStr color)) ∧
  (nd.1 ∉ positioned → nd' = nd).

(** The connectivity of a node as the first loop of [build_graph] computes
    it: an element of [conexoes_values]. *)
Definition connectivity (G : graph) (nd : string * gmap string pyval) : Z :=
  (conexoes_step G nd).2.

(** The edges for which the loop of [compute_common_neighbors_table]
    builds a row: those whose key was not seen before. *)
Fixpoint first_of_key (seen : gset string)
    (es : list (string * string * gmap string pyval))
  : list (string * string * gmap string pyval) :=
  match es with
  | [] => []
  | (u, v, d) :: es' =>
      if decide (edge_key u v ∈ seen) then first_of_key seen es'
      else (u, v, d) :: first_of_key (seen ∪ {[edge_key u v]}) es'
  end.

(** The nodes adjacent to both endpoints, the endpoints themselves left
    out. *)
Definition shared_neighbors (G : graph) (u v : string) : gset string :=
  (neighbors G u ∩ neighbors G v) ∖ {[u; v]}.

(** The display string of a pair: the two labels in order, a label
    defaulting to the id. *)
Definition display (id_to_label : gmap string string) (u v : string) : string :=
  let '(l1, l2) := sorted2 (default u (id_to_label !! u))
                           (default v (id_to_label !! v)) in
  l1 +:+ ", " +:+ l2.

(** The row that the loop builds for an edge. *)
Definition row_of (G : graph) (id_to_label : gmap string string)
    (e : string * string * gmap string pyval) : result row :=
  let '(u, v, d) := e in
  let '(a, b) := sorted2 u v in
  w ← py_float (py_or (default (PInt 1) (d !! "weight")) (PInt 1));
  Ok {| aresta := display id_to_label a b;
        colabs := w;
        comuns := Z.of_nat (size ((default ∅ (neigh G !! a)
                                   ∩ default ∅ (neigh G !! b)) ∖ {[a; b]})) |}.

(** The order of the edge table in the words of the specification
    (section 4.4): weight descending, then shared-neighbour count
    descending, then display string ascending. *)
Definition row_order (r1 r2 : row) : Prop :=
  ltb (colabs r2) (colabs r1) = true ∨
  (colabs r1 = colabs r2 ∧
   (comuns r2 < comuns r1 ∨
    (comuns r1 = comuns r2 ∧ String.leb (aresta r1) (aresta r2) = true))).

(** Two nodes are adjacent when an edge joins them, in either orientation. *)
Definition adjacent (G : graph) (u w : string) : Prop :=
  ∃ d, (u, w, d) ∈ edges G ∨ (w, u, d) ∈ edges G.

(** The unordered endpoint pairs of the edges, each as its sorted pair. *)
Definition endpoint_pairs (G : graph) : gset (string * string) :=
  list_to_set (map (λ e, sorted2 e.1.1 e.1.2) (edges G)).

(** The keys under which the loop remembers the pairs it has seen. *)
Definition edge_keys (G : graph) : gset string :=
  list_to_set (map (λ e, edge_key e.1.1 e.1.2) (edges G)).

(** The weight of an edge as the third loop of [build_graph] normalizes
    it: the stored value read as a float, comma or dot as decimal
    separator, and [1.0] when absent or unparseable. *)
Definition normalized_weight (d : gmap string pyval) : float :=
  match d !! "weight" with
  | None => Ffin one
  | Some w =>
      match py_float (PStr (replace_comma (py_str w))) with
      | Ok f => f
      | Raise _ => Ffin one
      end
  end.

(** The weight of the row: the normalized weight, and [1.0] in place of a
    zero. *)
Definition table_weight (d : gmap string pyval) : float :=
  match normalized_weight d with
  | Ffin 0 => Ffin one
  | w => w
  end.

(** Integer coercion in the words of the specification (section 4.2),
    before the caller's fallback: direct conversion, else the float read
    with comma as dot and truncated, else nothing. *)
Definition coerce_int (v : pyval) : option Z :=
  match py_int v with
  | Ok z => Some z
  | Raise _ =>
      match py_float (PStr (replace_comma (py_str v))) with
      | Ok (Ffin n) => Some (Z.quot n one)
      | _ => None
      end
  end.

(** Float coercion in the words of the specification: the value read with
    comma as dot, else the missing marker. *)
Definition coerce_float (v : pyval) : option float :=
  match float_of_string (replace_comma (py_str v)) with
  | Some f => Some f
  | None => None
  end.

(** The id holds no ["|"], the character of the key's separator. *)
Fixpoint bar_free (s : string) : bool :=
  match s with
  | EmptyString => true
  | String c s' => negb (Ascii.eqb c "|") && bar_free s'
  end.

(** [float(v)] returns. *)
Definition float_ok (v : pyval) : Prop := ∃ f, py_float v = Ok f.

(** The value a node holds under ["Conexões"] after the first loop of
    [build_graph]: the stored one when it coerces to an int, the degree
    otherwise. *)
Definition stored_connectivity (G : graph) (n : string)
    (d : gmap string pyval) : pyval :=
  match d !! "Conexões" with
  | Some v =>
      match coerce_int v with
      | Some _ => v
      | None => PInt (degree G n)
      end
  | None => PInt (degree G n)
  end.

(** The stored connectivity is absent or an int. *)
Definition int_or_absent (o : option pyval) : Prop :=
  o = None ∨ ∃ z, o = Some (PInt z).

(** A text that the first loop of [build_graph] reads as a connectivity,
    once its commas are dots, but that [float] does not read as it
    stands. *)
Definition text_rejected (v : pyval) : Prop :=
  ∃ s, v = PStr s ∧ coerce_int (PStr s) ≠ None ∧ float_of_string s = None.

(** The same undirected edge, yielded in either orientation. *)
Definition flipped (e1 e2 : string * string * gmap string pyval) : Prop :=
  e2 = e1 ∨ e2 = (e1.1.2, e1.1.1, e1.2).

(** The label of a node: its ["label"] attribute as text, its id when it
    has none (lines 140-141). *)
Definition label_of (n : string) (d : gmap string pyval) : string :=
  py_str (default (PStr n) (d !! "label")).

(** The directory part of a path: all up to its last slash, the slash
    included. *)
Definition dir_part (p : string) : string :=
  let l := list_ascii_of_string p in
  string_of_list_ascii (take (Z.to_nat (rfind "/" l + 1)) l).

(** The value of a list of decimal digits read after the digits that gave
    [acc]. *)
Definition dval_from (acc : Z) (l : list ascii) : Z :=
  fold_left (λ a c, 10 * a + default 0 (digit_of c)) l acc.

Definition is_digit (c : ascii) : bool :=
  match digit_of c with Some _ => true | None => false end.

(** What may follow the digits of a [digitpart]: the end, or a character
    that is neither a digit nor an underscore. *)
Definition stops (rest : list ascii) : Prop :=
  match rest with
  | [] => True
  | c :: _ => is_digit c = false ∧ c ≠ "_"%char
  end.

(** CPython converts between ints and texts of at most 4300 digits, unless
    [sys.set_int_max_str_digits] says otherwise; beyond that [str] and
    [int] raise a [ValueError], which [str_of_Z] and [int_of_string] do not
    model. *)
Definition int_max_str_digits : nat := 4300.

Definition within_str_digits (z : Z) : Prop :=
  (String.length (str_of_Z (Z.abs z)) ≤ int_max_str_digits)%nat.

(** The characters of the text of a float: digits, the point, the exponent
    mark and the signs. *)
Definition numchar (c : ascii) : Prop :=
  is_digit c = true ∨ c = "."%char ∨ c = "e"%char ∨ c = "-"%char ∨ c = "+"%char.

(** The characters that [layout] writes, from the characters of the
    digits. *)
Definition layout_chars (dl : list ascii) (decpt : Z) : list ascii :=
  let n := Z.of_nat (length dl) in
  if (decpt <=? -4) || (16 <? decpt) then
    let e := decpt - 1 in
    (take 1 dl
       ++ (if 1 <? n then "."%char :: drop 1 dl else [])
       ++ "e"%char :: (if e <? 0 then "-"%char else "+"%char)
            :: list_ascii_of_string (two_digits (Z.abs e)))%list
  else if decpt <=? 0 then
    ("0"%char :: "."%char :: replicate (Z.to_nat (- decpt)) "0"%char ++ dl)%list
  else if n <=? decpt then
    (dl ++ replicate (Z.to_nat (decpt - n)) "0"%char ++ ["."%char; "0"%char])%list
  else
    (take (Z.to_nat decpt) dl ++ "."%char :: drop (Z.to_nat decpt) dl)%list.

(** ** Sample inputs *)

(** One node whose connectivity is the text ["3,5"], and the same with a
    dot. *)
Definition G_comma : graph :=
  {| nodes := [("A", {["Conexões" := PStr "3,5"]})]; edges := [] |}.

Definition G_dot : graph :=
  {| nodes := [("A", {["Conexões" := PStr "3.5"]})]; edges := [] |}.

Definition pos_A : list (string * (float * float)) := [("A", (Ffin 0, Ffin 0))].

(** The edges (A,B), (B,A), (A,C) of section 8, with a float weight, no
    weight and a zero weight. *)
Definition G_abc : graph :=
  {| nodes := [("A", ∅); ("B", ∅); ("C", ∅)];
     edges := [("A", "B", {["weight" := PFloat (of_dyadic 5 (-1))]});
               ("B", "A", ∅);
               ("A", "C", {["weight" := PInt 0]})] |}.

Definition pos_abc : list (string * (float * float)) :=
  [("A", (Ffin 0, Ffin 0)); ("B", (Ffin one, Ffin 0)); ("C", (Ffin 0, Ffin one))].

(** What [build_graph] returns for these edges: the weights 2.5, 1.0 for
    the missing one, and 0.0. *)
Definition G_abc' :=
  Eval vm_compute in
    match build_graph G_abc pos_abc with
    | Ok G' => G'
    | Raise _ => G_abc
    end.

(** Two edges between four nodes whose ids contain the separator of the
    key. *)
Definition G_bar : graph :=
  {| nodes := [("a", ∅); ("||b", ∅); ("a||", ∅); ("b", ∅)];
     edges := [("a", "||b", ∅); ("a||", "b", ∅)] |}.

(** A NaN weight beside a weight of 5. *)
Definition G_nan : graph :=
  {| nodes := [("A", ∅); ("B", ∅); ("C", ∅)];
     edges := [("A", "B", {["weight" := PFloat Fnan]});
               ("A", "C", {["weight" := PFloat (of_dyadic 5 0)]})] |}.

(** A self-loop at A, and A and B adjacent to each other and to C. *)
Definition G_loop : graph :=
  {| nodes := [("A", ∅); ("B", ∅); ("C", ∅)];
     edges := [("A", "A", ∅); ("A", "B", ∅); ("B", "C", ∅); ("A", "C", ∅)] |}.

(** Four nodes of degree 2 whose edges carry a comma weight, a zero
    weight, no weight and an unparseable weight; and what [build_graph]
    returns for them. *)
Definition G_weights : graph :=
  {| nodes := [("A", ∅); ("B", ∅); ("C", ∅); ("D", ∅)];
     edges := [("A", "B", {["weight" := PStr "2,5"]});
               ("C", "D", {["weight" := PInt 0]});
               ("A", "C", ∅);
               ("B", "D", {["weight" := PStr "abc"]})] |}.

Definition pos_weights : list (string * (float * float)) :=
  [("A", (Ffin 0, Ffin 0)); ("B", (Ffin one, Ffin 0));
   ("C", (Ffin 0, Ffin one)); ("D", (Ffin one, Ffin one))].

Definition G_weights' : graph :=
  Eval vm_compute in
    match build_graph G_weights pos_weights with
    | Ok G' => G'
    | Raise _ => G_weights
    end.

(** A triangle whose nodes store the connectivity as a numeral, not at all,
    and as an unparseable text; what [build_graph] and then
    [graph_to_embeddable_json] return for it. *)
Definition G_conn : graph :=
  {| nodes := [("A", {["Conexões" := PStr "2"; "Publicações_totais" := PStr "12";
                      "Proporção_da_coautoria_Fiocruz" := PStr "3,5"]});
               ("B", ∅);
               ("C", {["Conexões" := PStr "abc"; "Publicações_totais" := PStr "x"]})];
     edges := [("A", "B", ∅); ("B", "C", ∅); ("A", "C", ∅)] |}.

Definition G_conn' : graph :=
  Eval vm_compute in
    match build_graph G_conn pos_abc with
    | Ok G' => G'
    | Raise _ => G_conn
    end.

Definition report_conn : report :=
  Eval vm_compute in
    match graph_to_embeddable_json G_conn' (PFloat (of_dyadic 1 3)) with
    | Ok rep => rep
    | Raise _ => {| graph_nodes := []; graph_links := [];
                    vertex_table := []; edge_table := [] |}
    end.

(** What [build_graph] returns for the graph with the self-loop: A has
    degree 4, B and C have degree 2. *)
Definition G_loop' :=
  Eval vm_compute in
    match build_graph G_loop pos_abc with
    | Ok G' => G'
    | Raise _ => G_loop
    end.

(** The edges (A,B), (B,A), (A,C) with the first and the last yielded in
    the other orientation. *)
Definition G_abc_flipped : graph :=
  {| nodes := [("A", ∅); ("B", ∅); ("C", ∅)];
     edges := [("B", "A", {["weight" := PFloat (of_dyadic 5 (-1))]});
               ("B", "A", ∅);
               ("C", "A", {["weight" := PInt 0]})] |}.

(** The graph with the self-loop, its edges yielded in another order. *)
Definition G_loop_reordered : graph :=
  {| nodes := [("A", ∅); ("B", ∅); ("C", ∅)];
     edges := [("A", "C", ∅); ("B", "C", ∅); ("A", "A", ∅); ("A", "B", ∅)] |}.

(** The report for the graph with the four kinds of weight. *)
Definition report_weights :=
  Eval vm_compute in
    match graph_to_embeddable_json G_weights' (PFloat (of_dyadic 1 3)) with
    | Ok rep => rep
    | Raise _ => {| graph_nodes := []; graph_links := [];
                    vertex_table := []; edge_table := [] |}
    end.

(** Three nodes, two of them labelled against the order of their ids. *)
Definition G_labels : graph :=
  {| nodes := [("n1", {["label" := PStr "Zeta"]});
               ("n2", {["label" := PStr "Alpha"]});
               ("n3", ∅)];
     edges := [("n1", "n2", ∅); ("n3", "n2", ∅)] |}.

Definition report_labels_sample :=
  Eval vm_compute in
    match graph_to_embeddable_json G_labels (PFloat (of_dyadic 1 3)) with
    | Ok rep => rep
    | Raise _ => {| graph_nodes := []; graph_links := [];
                    vertex_table := []; edge_table := [] |}
    end.

(** The edge table of the graph with the self-loop. *)
Definition rows_loop :=
  Eval vm_compute in
    match compute_common_neighbors_table G_loop ∅ with
    | Ok rows => rows
    | Raise _ => []
    end.

(** * Properties *)

(** ** Rounding *)

Section Rounding.

Local Open Scope Z_scope.

(** [round_half_even a b] is within one half of [a / b], and is even when
    [a / b] lies half-way between two integers. *)
Lemma round_half_even_spec a b :
  0 < b →
  let q := round_half_even a b in
  2 * b * q - b ≤ 2 * a ≤ 2 * b * q + b ∧
  (2 * a = 2 * b * q - b ∨ 2 * a = 2 * b * q + b → Z.even q = true).
Proof.
  intros Hb. unfold round_half_even.
  pose proof (Z.div_mod a b ltac:(lia)) as Hdm.
  pose proof (Z.mod_pos_bound a b Hb) as Hm.
  set (d := a / b) in *. set (r := a mod b) in *.
  destruct (Z.compare_spec (2 * r) b) as [He|Hl|Hg]; cbn zeta.
  - destruct (Z.even d) eqn:Hev.
    + split; [nia|]. intros _. exact Hev.
    + split; [nia|]. intros _.
      rewrite Z.even_add, Hev. reflexivity.
  - split; [nia|]. intros [H|H]; exfalso; nia.
  - split; [nia|]. intros [H|H]; exfalso; nia.
Qed.

(** Rounding to nearest is monotone in the rational it rounds. *)
Lemma round_half_even_mono a1 b1 a2 b2 :
  0 < b1 → 0 < b2 → a1 * b2 ≤ a2 * b1 →
  round_half_even a1 b1 ≤ round_half_even a2 b2.
Proof.
  intros H1 H2 Hle.
  destruct (round_half_even_spec a1 b1 H1) as [[Hlo1 Hhi1] He1].
  destruct (round_half_even_spec a2 b2 H2) as [[Hlo2 Hhi2] He2].
  set (q1 := round_half_even a1 b1) in *.
  set (q2 := round_half_even a2 b2) in *.
  destruct (Z_le_gt_dec q1 q2) as [|Hgt]; [assumption|exfalso].
  assert (Hq : q1 = q2 + 1).
  { assert (b1 * b2 * (2 * q1 - 1) ≤ b1 * b2 * (2 * q2 + 1)) by nia.
    nia. }
  assert (Ht1 : 2 * a1 = 2 * b1 * q1 - b1) by nia.
  assert (Ht2 : 2 * a2 = 2 * b2 * q2 + b2) by nia.
  specialize (He1 (or_introl Ht1)). specialize (He2 (or_intror Ht2)).
  rewrite Hq, Z.even_add, He2 in He1. discriminate.
Qed.

(** An integer rounds to itself. *)
Lemma round_half_even_exact n b : 0 < b → round_half_even (n * b) b = n.
Proof.
  intros Hb. unfold round_half_even.
  rewrite Z.div_mul, Z.mod_mul by lia.
  destruct (Z.compare_spec (2 * 0) b); lia.
Qed.

Lemma div_le_cross a1 b1 a2 b2 :
  0 < b1 → 0 < b2 → a1 * b2 ≤ a2 * b1 → a1 / b1 ≤ a2 / b2.
Proof.
  intros H1 H2 Hle. apply Z.div_le_lower_bound; [assumption|].
  pose proof (Z.mul_div_le a1 b1 H1). nia.
Qed.

Lemma ulp_exp_nonneg a b : 0 ≤ ulp_exp a b.
Proof. unfold ulp_exp. lia. Qed.

Lemma ulp_exp_mono a1 b1 a2 b2 :
  0 < b1 → 0 < b2 → a1 * b2 ≤ a2 * b1 → ulp_exp a1 b1 ≤ ulp_exp a2 b2.
Proof.
  intros H1 H2 Hle. unfold ulp_exp.
  pose proof (Z.log2_le_mono _ _ (div_le_cross _ _ _ _ H1 H2 Hle)). lia.
Qed.

(** The rounded significand has at most 53 bits ... *)
Lemma significand_upper a b :
  0 ≤ a → 0 < b → round_half_even a (b * 2 ^ ulp_exp a b) ≤ 2 ^ 53.
Proof.
  intros Ha Hb. set (k := ulp_exp a b).
  assert (Hk : 0 ≤ k) by apply ulp_exp_nonneg.
  assert (Hp : 0 < 2 ^ k) by (apply Z.pow_pos_nonneg; lia).
  assert (Hlt : a < b * 2 ^ (k + 53)).
  { assert (Hq : a / b < 2 ^ (k + 53)).
    { destruct (Z_le_gt_dec (a / b) 0) as [Hz|Hpos].
      - assert (0 < 2 ^ (k + 53)) by (apply Z.pow_pos_nonneg; lia). lia.
      - destruct (Z.log2_spec (a / b)) as [_ Hs]; [lia|].
        eapply Z.lt_le_trans; [exact Hs|].
        apply Z.pow_le_mono_r; [lia|]. unfold k, ulp_exp. lia. }
    pose proof (Z.div_mod a b ltac:(lia)). pose proof (Z.mod_pos_bound a b Hb).
    nia. }
  rewrite <- (round_half_even_exact (2 ^ 53) (b * 2 ^ k)) by nia.
  rewrite Z.pow_add_r in Hlt by lia.
  generalize dependent (2 ^ 53). generalize dependent (2 ^ k).
  intros p Hp c Hlt. apply round_half_even_mono; [nia..|].
  apply Z.mul_le_mono_nonneg_r; nia.
Qed.

(** ... and exactly 53 of them above the subnormal range. *)
Lemma significand_lower a b :
  0 ≤ a → 0 < b → 0 < ulp_exp a b →
  2 ^ 52 ≤ round_half_even a (b * 2 ^ ulp_exp a b).
Proof.
  intros Ha Hb Hk0. set (k := ulp_exp a b) in *.
  assert (Hp : 0 < 2 ^ k) by (apply Z.pow_pos_nonneg; lia).
  assert (Hlog : Z.log2 (a / b) = k + 52) by (unfold k, ulp_exp in *; lia).
  assert (Hpos : 0 < a / b).
  { destruct (Z_le_gt_dec (a / b) 0) as [Hz|]; [|lia].
    rewrite (Z.log2_nonpos _ Hz) in Hlog. lia. }
  destruct (Z.log2_spec (a / b) Hpos) as [Hs _]. rewrite Hlog in Hs.
  pose proof (Z.mul_div_le a b Hb).
  rewrite Z.pow_add_r in Hs by lia.
  rewrite <- (round_half_even_exact (2 ^ 52) (b * 2 ^ k)) by nia.
  generalize dependent (2 ^ 52). generalize dependent (2 ^ k).
  intros p Hp c Hs. apply round_half_even_mono; [nia..|].
  apply Z.mul_le_mono_nonneg_r; nia.
Qed.

Lemma round53_nonneg a b : 0 ≤ a → 0 < b → 0 ≤ round53 a b.
Proof.
  intros Ha Hb. unfold round53. set (k := ulp_exp a b).
  assert (Hp : 0 < 2 ^ k) by (apply Z.pow_pos_nonneg; [lia|apply ulp_exp_nonneg]).
  apply Z.mul_nonneg_nonneg; [|lia].
  rewrite <- (round_half_even_exact 0 (b * 2 ^ k)) by nia.
  apply round_half_even_mono; nia.
Qed.

(** Rounding to 53 bits is monotone. *)
Lemma round53_mono a1 b1 a2 b2 :
  0 ≤ a1 → 0 < b1 → 0 < b2 → a1 * b2 ≤ a2 * b1 →
  round53 a1 b1 ≤ round53 a2 b2.
Proof.
  intros Ha1 H1 H2 Hle.
  assert (Ha2 : 0 ≤ a2) by nia.
  pose proof (ulp_exp_mono _ _ _ _ H1 H2 Hle) as Hk.
  pose proof (ulp_exp_nonneg a1 b1) as Hk1.
  unfold round53.
  set (k1 := ulp_exp a1 b1) in *. set (k2 := ulp_exp a2 b2) in *.
  assert (Hp1 : 0 < 2 ^ k1) by (apply Z.pow_pos_nonneg; lia).
  assert (Hp2 : 0 < 2 ^ k2) by (apply Z.pow_pos_nonneg; lia).
  destruct (Z.eq_dec k1 k2) as [Heq|Hne].
  - rewrite <- Heq. apply Z.mul_le_mono_nonneg_r; [lia|].
    apply round_half_even_mono; nia.
  - pose proof (significand_upper a1 b1 Ha1 H1) as Hu.
    pose proof (significand_lower a2 b2 Ha2 H2 ltac:(fold k2; lia)) as Hl.
    fold k1 in Hu. fold k2 in Hl.
    assert (Hpow : 2 ^ 53 * 2 ^ k1 ≤ 2 ^ 52 * 2 ^ k2).
    { rewrite <- !Z.pow_add_r by lia. apply Z.pow_le_mono_r; lia. }
    nia.
Qed.

Lemma nearest_mono a1 b1 a2 b2 :
  0 < b1 → 0 < b2 → a1 * b2 ≤ a2 * b1 → nearest a1 b1 ≤ nearest a2 b2.
Proof.
  intros H1 H2 Hle. unfold nearest.
  destruct (Z.ltb_spec a1 0), (Z.ltb_spec a2 0).
  - pose proof (round53_mono (- a2) b2 (- a1) b1). nia.
  - pose proof (round53_nonneg (- a1) b1). pose proof (round53_nonneg a2 b2). nia.
  - exfalso. nia.
  - apply round53_mono; assumption.
Qed.

(** Rounding depends on the rational only, not on the fraction that
    denotes it. *)
Lemma nearest_ext a1 b1 a2 b2 :
  0 < b1 → 0 < b2 → a1 * b2 = a2 * b1 → nearest a1 b1 = nearest a2 b2.
Proof.
  intros H1 H2 Heq. apply Z.le_antisymm; apply nearest_mono; lia.
Qed.

End Rounding.

(** ** Float arithmetic *)

Section FloatFacts.

Local Open Scope Z_scope.

Lemma one_pos : 0 < one.
Proof. unfold one. apply Z.pow_pos_nonneg; lia. Qed.

Lemma overflow_pos : 0 < overflow.
Proof. unfold overflow. apply Z.pow_pos_nonneg; lia. Qed.

Lemma nine_below_overflow : 9 * one < overflow.
Proof.
  unfold one, overflow.
  replace 2098 with (1074 + 1024) by lia. rewrite Z.pow_add_r by lia.
  assert (0 < 2 ^ 1074) by (apply Z.pow_pos_nonneg; lia).
  assert (9 < 2 ^ 1024) by (apply Z.ltb_lt; vm_compute; reflexivity).
  nia.
Qed.

Lemma nearest_nonneg a b : 0 ≤ a → 0 < b → 0 ≤ nearest a b.
Proof.
  intros Ha Hb. unfold nearest. destruct (Z.ltb_spec a 0); [lia|].
  apply round53_nonneg; assumption.
Qed.

(** A significand below [2^53] with a non-negative exponent over the unit
    is a binary64 number: rounding leaves it unchanged. *)
Lemma round53_exact m j :
  0 ≤ m < 2 ^ 53 → 0 ≤ j → round53 (m * 2 ^ j) 1 = m * 2 ^ j.
Proof.
  intros Hm Hj. assert (Hpj : 0 < 2 ^ j) by (apply Z.pow_pos_nonneg; lia).
  unfold round53. set (k := ulp_exp (m * 2 ^ j) 1).
  assert (Hk0 : 0 ≤ k) by apply ulp_exp_nonneg.
  assert (Hk : k ≤ j).
  { unfold k, ulp_exp. rewrite Z.div_1_r.
    destruct (Z.eq_dec m 0) as [->|Hnz]; [rewrite Z.mul_0_l; cbn; lia|].
    assert (Z.log2 (m * 2 ^ j) < 53 + j); [|lia].
    apply Z.log2_lt_pow2; [nia|].
    rewrite Z.pow_add_r by lia. nia. }
  rewrite Z.mul_1_l.
  assert (Hsplit : 2 ^ j = 2 ^ (j - k) * 2 ^ k).
  { rewrite <- Z.pow_add_r by lia. f_equal. lia. }
  assert (Hp : 0 < 2 ^ k) by (apply Z.pow_pos_nonneg; lia).
  rewrite Hsplit at 1. rewrite Z.mul_assoc.
  rewrite round_half_even_exact by assumption.
  rewrite <- Z.mul_assoc, <- Hsplit. reflexivity.
Qed.

Lemma nearest_exact m j :
  Z.abs m < 2 ^ 53 → 0 ≤ j → nearest (m * 2 ^ j) 1 = m * 2 ^ j.
Proof.
  intros Hm Hj. assert (Hpj : 0 < 2 ^ j) by (apply Z.pow_pos_nonneg; lia).
  unfold nearest. destruct (Z.ltb_spec (m * 2 ^ j) 0).
  - replace (- (m * 2 ^ j)) with ((- m) * 2 ^ j) by ring.
    rewrite round53_exact by (try assumption; nia). ring.
  - apply round53_exact; [nia|assumption].
Qed.

(** Integers below [2^53] are binary64 numbers. *)
Lemma nearest_small_int z : 0 ≤ z < 2 ^ 53 → nearest (z * one) 1 = z * one.
Proof. intros Hz. unfold one. apply nearest_exact; lia. Qed.

(** So are all integers of magnitude at most [2^53]. *)
Lemma nearest_int53 z : Z.abs z ≤ 2 ^ 53 → nearest (z * one) 1 = z * one.
Proof.
  intros Hz. destruct (Z.eq_dec (Z.abs z) (2 ^ 53)) as [He|Hne].
  - assert (z * one = Z.sgn z * 2 ^ (53 + 1074)) as ->.
    { rewrite Z.pow_add_r by lia. fold one.
      rewrite Z.mul_assoc, <- He, (Z.mul_comm (Z.sgn z)), Z.abs_sgn.
      reflexivity. }
    apply nearest_exact; [|lia].
    assert (2 < 2 ^ 53) by (apply Z.ltb_lt; reflexivity). lia.
  - unfold one. apply nearest_exact; lia.
Qed.

Lemma of_Z_small z : 0 ≤ z < 2 ^ 53 → of_Z z = Some (Ffin (z * one)).
Proof.
  intros Hz. unfold of_Z, of_ratio. rewrite nearest_small_int by assumption.
  pose proof one_pos. pose proof nine_below_overflow.
  assert (z * one < overflow).
  { unfold one, overflow in *.
    replace 2098 with (1074 + 1024) by lia. rewrite Z.pow_add_r by lia.
    assert (2 ^ 53 < 2 ^ 1024) by (apply Z.pow_lt_mono_r; lia). nia. }
  destruct (Z.leb_spec overflow (Z.abs (z * one))); [nia|reflexivity].
Qed.

Lemma of_Z_int53 z : Z.abs z ≤ 2 ^ 53 → of_Z z = Some (Ffin (z * one)).
Proof.
  intros Hz. unfold of_Z, of_ratio. rewrite nearest_int53 by assumption.
  pose proof one_pos.
  assert (Z.abs (z * one) < overflow).
  { rewrite Z.abs_mul, (Z.abs_eq one) by lia. unfold one, overflow in *.
    replace 2098 with (1074 + 1024) by lia. rewrite Z.pow_add_r by lia.
    assert (2 ^ 53 < 2 ^ 1024) by (apply Z.pow_lt_mono_r; lia). nia. }
  destruct (Z.leb_spec overflow (Z.abs (z * one))); [lia|reflexivity].
Qed.

(** Integer bounds of magnitude at most [2^53] are accepted by [range_ok]. *)
Lemma range_ok_int53 vmin vmax :
  vmin < vmax → Z.abs vmin ≤ 2 ^ 53 → Z.abs vmax ≤ 2 ^ 53 →
  range_ok vmin vmax = true.
Proof.
  intros Hlt Hlo Hhi. unfold range_ok.
  rewrite !of_Z_int53 by assumption. cbn [sub]. unfold of_ratio.
  pose proof one_pos as Ho.
  replace (vmax * one - vmin * one) with ((vmax - vmin) * one) by ring.
  assert (H1 : one ≤ nearest ((vmax - vmin) * one) 1).
  { rewrite <- (nearest_small_int 1) at 1
      by (split; [lia|apply Z.ltb_lt; reflexivity]).
    apply nearest_mono; nia. }
  assert (H2 : nearest ((vmax - vmin) * one) 1 ≤ 2 ^ (54 + 1074)).
  { rewrite <- (Z.mul_1_l (2 ^ (54 + 1074))).
    rewrite <- (nearest_exact 1 (54 + 1074))
      by (try lia; apply Z.ltb_lt; reflexivity).
    apply nearest_mono; try lia.
    rewrite Z.pow_add_r by lia. fold one.
    assert (vmax - vmin ≤ 2 ^ 54) by (change (2 ^ 54) with (2 * 2 ^ 53); lia).
    nia. }
  assert (H3 : 2 ^ (54 + 1074) < overflow).
  { unfold overflow. apply Z.pow_lt_mono_r; lia. }
  destruct (Z.leb_spec overflow (Z.abs (nearest ((vmax - vmin) * one) 1))); [lia|].
  apply negb_true_iff, Z.eqb_neq. lia.
Qed.

Local Opaque Float.one Float.overflow.

Lemma of_ratio_not_nan a b : of_ratio a b ≠ Fnan.
Proof. unfold of_ratio. destruct (_ <=? _); discriminate. Qed.

(** Correct rounding is monotone. *)
Lemma of_ratio_mono a1 b1 a2 b2 :
  0 < b1 → 0 < b2 → a1 * b2 ≤ a2 * b1 →
  fle (of_ratio a1 b1) (of_ratio a2 b2).
Proof.
  intros H1 H2 Hle. pose proof (nearest_mono _ _ _ _ H1 H2 Hle) as Hn.
  pose proof overflow_pos. unfold of_ratio.
  destruct (Z.leb_spec overflow (Z.abs (nearest a1 b1)));
    destruct (Z.leb_spec overflow (Z.abs (nearest a2 b2)));
    destruct (Z.ltb_spec (nearest a1 b1) 0);
    destruct (Z.ltb_spec (nearest a2 b2) 0); simpl; lia.
Qed.

Lemma fle_refl x : x ≠ Fnan → fle x x.
Proof. destruct x as [|[]|]; simpl; try lia; congruence. Qed.

Lemma fle_not_nan x y : fle x y → x ≠ Fnan ∧ y ≠ Fnan.
Proof. destruct x as [|[]|], y as [|[]|]; simpl; intuition discriminate. Qed.

Lemma sub_mono x y l : fle x y → fle (sub x (Ffin l)) (sub y (Ffin l)).
Proof.
  destruct x as [|[]|a], y as [|[]|b]; simpl; try tauto.
  - intros _. destruct (of_ratio (b - l) 1) as [|[]|] eqn:E; simpl; try tauto.
    exact (of_ratio_not_nan _ _ E).
  - intros _. destruct (of_ratio (a - l) 1) as [|[]|] eqn:E; simpl; try tauto.
    exact (of_ratio_not_nan _ _ E).
  - intros Hab. apply of_ratio_mono; lia.
Qed.

Lemma div_mono x y d :
  0 < d → fle x y → fle (div x (Ffin d)) (div y (Ffin d)).
Proof.
  intros Hd. assert (Hb : (d <? 0) = false) by (apply Z.ltb_ge; lia).
  assert (Hb' : (0 <? d) = true) by (apply Z.ltb_lt; lia).
  pose proof one_pos.
  destruct x as [|[]|a], y as [|[]|b]; simpl; rewrite ?Hb, ?Hb'; simpl; try tauto.
  - intros _. destruct (of_ratio (b * one) d) as [|[]|] eqn:E; simpl; try tauto.
    exact (of_ratio_not_nan _ _ E).
  - intros _. destruct (of_ratio (a * one) d) as [|[]|] eqn:E; simpl; try tauto.
    exact (of_ratio_not_nan _ _ E).
  - intros Hab. apply of_ratio_mono; try lia.
    apply Z.mul_le_mono_nonneg_r; nia.
Qed.

(** Clamping yields a finite float in [[0, 1]], monotonically. *)
Lemma clamp01_range t :
  t ≠ Fnan → ∃ n, spec_clamp01 t = Ffin n ∧ 0 ≤ n ≤ one.
Proof.
  intros Ht. pose proof one_pos. unfold spec_clamp01.
  destruct t as [|[]|a]; simpl; [congruence|eauto with lia..|].
  destruct (Z.ltb_spec a 0); [eauto with lia|].
  destruct (Z.ltb_spec one a); eauto with lia.
Qed.

Lemma clamp01_mono x y : fle x y → fle (spec_clamp01 x) (spec_clamp01 y).
Proof.
  pose proof one_pos. unfold spec_clamp01.
  destruct x as [|[]|a], y as [|[]|b]; simpl; try tauto; try lia.
  - intros _. destruct (Z.ltb_spec b 0); simpl; [lia|].
    destruct (Z.ltb_spec one b); simpl; lia.
  - intros _. destruct (Z.ltb_spec a 0); simpl; [lia|].
    destruct (Z.ltb_spec one a); simpl; lia.
  - intros Hab. destruct (Z.ltb_spec a 0), (Z.ltb_spec b 0); simpl; try lia;
      destruct (Z.ltb_spec one a), (Z.ltb_spec one b); simpl; lia.
Qed.

(** Scaling a float of [[0, 1]] by [9.0] stays finite, within [[0, 9]]. *)
Lemma scale9_range n :
  0 ≤ n ≤ one →
  ∃ m, mul (Ffin n) (Ffin (9 * one)) = Ffin m ∧ 0 ≤ m ≤ 9 * one.
Proof.
  intros Hn. pose proof one_pos as Ho. pose proof nine_below_overflow.
  simpl. unfold of_ratio.
  assert (Hlo : 0 ≤ nearest (n * (9 * one)) one) by (apply nearest_nonneg; nia).
  assert (Hhi : nearest (n * (9 * one)) one ≤ 9 * one).
  { rewrite <- (nearest_small_int 9) at 2
      by (split; [lia|apply Z.ltb_lt; reflexivity]).
    apply nearest_mono; try lia.
    rewrite Z.mul_1_r. replace (9 * one * one) with (one * (9 * one)) by ring.
    apply Z.mul_le_mono_nonneg_r; lia. }
  destruct (Z.leb_spec overflow (Z.abs (nearest (n * (9 * one)) one))); [lia|].
  eauto.
Qed.

Lemma scale9_mono a b :
  a ≤ b → fle (mul (Ffin a) (Ffin (9 * one))) (mul (Ffin b) (Ffin (9 * one))).
Proof.
  intros Hab. pose proof one_pos. simpl. apply of_ratio_mono; try lia.
  apply Z.mul_le_mono_nonneg_r; nia.
Qed.

Lemma round_units_range m : 0 ≤ m ≤ 9 * one → 0 ≤ round_units m ≤ 9.
Proof.
  intros Hm. pose proof one_pos. unfold round_units. split.
  - rewrite <- (round_half_even_exact 0 one) by assumption.
    apply round_half_even_mono; nia.
  - transitivity (round_half_even (9 * one) one).
    + apply round_half_even_mono; nia.
    + rewrite round_half_even_exact by assumption. lia.
Qed.

Lemma round_units_mono a b : a ≤ b → round_units a ≤ round_units b.
Proof.
  intros Hab. pose proof one_pos. apply round_half_even_mono; nia.
Qed.

Lemma round_units_nearest n : nearest_integer (Ffin n) (round_units n).
Proof.
  exists n. split; [reflexivity|].
  destruct (round_half_even_spec n one one_pos) as [Hb _].
  fold (round_units n) in Hb. lia.
Qed.

End FloatFacts.

(** ** The colour mapper *)

Section LinearColor.

Local Open Scope Z_scope.
Local Opaque Float.one Float.overflow.

Lemma bind_ok {A B} (a : A) (k : A → result B) : (Ok a ≫= k) = k a.
Proof. reflexivity. Qed.

Lemma bind_raise {A B} e (k : A → result B) : (Raise e ≫= k) = Raise e.
Proof. reflexivity. Qed.

Lemma index_palette i :
  0 ≤ i ≤ 9 → ∃ c, index PALETTE i = Ok c ∧ PALETTE !! Z.to_nat i = Some c.
Proof.
  intros Hi.
  assert (i = 0 ∨ i = 1 ∨ i = 2 ∨ i = 3 ∨ i = 4 ∨ i = 5 ∨ i = 6 ∨ i = 7
          ∨ i = 8 ∨ i = 9) as Hc by lia.
  repeat (destruct Hc as [->|Hc]; [eexists; split; reflexivity|]).
  subst i. eexists; split; reflexivity.
Qed.

Lemma nine_as_float : float_of_Z 9 = Ok (Ffin (9 * one)).
Proof.
  unfold float_of_Z. rewrite (of_Z_small 9); [reflexivity|].
  split; [lia|]. apply Z.ltb_lt. reflexivity.
Qed.

Lemma of_Z_fin z f : of_Z z = Some f → f = Ffin (nearest (z * one) 1).
Proof.
  unfold of_Z, of_ratio.
  destruct (_ <=? _); [discriminate|]. intros [= <-]. reflexivity.
Qed.

Lemma of_Z_mono z1 z2 l h :
  z1 ≤ z2 → of_Z z1 = Some (Ffin l) → of_Z z2 = Some (Ffin h) → l ≤ h.
Proof.
  intros Hz H1 H2. apply of_Z_fin in H1, H2. injection H1 as ->. injection H2 as ->.
  pose proof one_pos. apply nearest_mono; nia.
Qed.

(** What [range_ok] provides: the two bounds as floats and their positive
    finite difference. *)
Lemma range_ok_inv vmin vmax :
  vmin < vmax → range_ok vmin vmax = true →
  ∃ l h d, of_Z vmin = Some (Ffin l) ∧ of_Z vmax = Some (Ffin h) ∧
           sub (Ffin h) (Ffin l) = Ffin d ∧ 0 < d ∧ l ≤ h.
Proof.
  intros Hlt. unfold range_ok.
  destruct (of_Z vmin) as [lo|] eqn:El; [|discriminate].
  destruct (of_Z vmax) as [hi|] eqn:Eh; [|discriminate].
  pose proof (of_Z_fin _ _ El) as ->. pose proof (of_Z_fin _ _ Eh) as ->.
  set (l := nearest (vmin * one) 1) in *. set (h := nearest (vmax * one) 1) in *.
  assert (Hlh : l ≤ h) by (apply (of_Z_mono vmin vmax); [lia|assumption..]).
  destruct (sub (Ffin h) (Ffin l)) as [| |d] eqn:Ed; try discriminate.
  intros Hd. apply negb_true_iff, Z.eqb_neq in Hd.
  exists l, h, d. repeat split; try reflexivity; try assumption.
  simpl in Ed. unfold of_ratio in Ed.
  destruct (_ <=? _) in Ed; [discriminate|]. injection Ed as Ed.
  pose proof (nearest_nonneg (h - l) 1). lia.
Qed.

(** Inside bounds that [range_ok] accepts, [linear_color] returns the
    palette entry at the rounded, scaled, clamped, normalized value. *)
Lemma linear_color_in_range value f vmin vmax l h d :
  py_float value = Ok f → f ≠ Fnan → vmin < vmax →
  of_Z vmin = Some (Ffin l) → of_Z vmax = Some (Ffin h) →
  sub (Ffin h) (Ffin l) = Ffin d → 0 < d →
  ∃ t m c,
    spec_clamp01 (div (sub f (Ffin l)) (Ffin d)) = Ffin t ∧ 0 ≤ t ≤ one ∧
    mul (Ffin t) (Ffin (9 * one)) = Ffin m ∧ 0 ≤ m ≤ 9 * one ∧
    linear_color value vmin vmax PALETTE = Ok c ∧
    PALETTE !! Z.to_nat (round_units m) = Some c.
Proof.
  intros Hf Hnan Hlt Hl Hh Hd Hd0.
  assert (Ht : div (sub f (Ffin l)) (Ffin d) ≠ Fnan).
  { destruct f as [|s|a]; [congruence|discriminate|].
    simpl. destruct (of_ratio (a - l) 1) as [| |n] eqn:E.
    - destruct (of_ratio_not_nan _ _ E).
    - discriminate.
    - simpl. destruct (0 <? d); apply of_ratio_not_nan. }
  destruct (clamp01_range _ Ht) as (t & Etc & Htr).
  destruct (scale9_range t Htr) as (m & Em & Hmr).
  pose proof (round_units_range m Hmr) as Hir.
  destruct (index_palette _ Hir) as (c & Eidx & Ec).
  exists t, m, c. repeat split; try assumption; try lia.
  unfold linear_color.
  assert (Hmiss : match value with
                  | PNone => Ok true
                  | _ => f ← py_float value; Ok (is_nan f)
                  end = Ok false).
  { destruct value; try discriminate; rewrite Hf, bind_ok;
      (destruct f; [congruence|reflexivity..]). }
  rewrite Hmiss, bind_ok.
  destruct (Z.leb_spec vmax vmin); [lia|].
  assert (Hl' : float_of_Z vmin = Ok (Ffin l)) by (unfold float_of_Z; rewrite Hl; reflexivity).
  assert (Hh' : float_of_Z vmax = Ok (Ffin h)) by (unfold float_of_Z; rewrite Hh; reflexivity).
  rewrite Hf, bind_ok, Hl', Hh', !bind_ok.
  rewrite Hd. unfold py_div.
  destruct d as [|p|p]; [lia| |lia]. rewrite bind_ok.
  fold (spec_clamp01 (div (sub f (Ffin l)) (Ffin (Z.pos p)))). rewrite Etc.
  change (Z.of_nat (length PALETTE) - 1) with 9.
  rewrite nine_as_float, bind_ok, Em. unfold py_round. rewrite bind_ok.
  destruct (Z.ltb_spec (round_units m) 0); [lia|].
  change (Z.of_nat (length PALETTE)) with 10.
  destruct (Z.leb_spec 10 (round_units m)); [lia|]. exact Eidx.
Qed.

Lemma linear_color_missing vmin vmax :
  linear_color PNone vmin vmax PALETTE = Ok "#5e4fa2".
Proof. reflexivity. Qed.

Lemma linear_color_nan value vmin vmax :
  py_float value = Ok Fnan → linear_color value vmin vmax PALETTE = Ok "#5e4fa2".
Proof.
  intros Hf. unfold linear_color.
  destruct value; try discriminate; rewrite Hf; reflexivity.
Qed.

Lemma linear_color_degenerate value f vmin vmax :
  py_float value = Ok f → vmax ≤ vmin →
  linear_color value vmin vmax PALETTE = Ok "#5e4fa2".
Proof.
  intros Hf Hle. unfold linear_color.
  assert (Hmiss : ∃ b, match value with
                  | PNone => Ok true
                  | _ => f ← py_float value; Ok (is_nan f)
                  end = Ok b).
  { destruct value; try discriminate; rewrite Hf, bind_ok; eauto. }
  destruct Hmiss as [b ->]. rewrite bind_ok.
  destruct b; [reflexivity|].
  destruct (Z.leb_spec vmax vmin); [reflexivity|lia].
Qed.

(** If [linear_color] returns on a degenerate range, it returns the first
    palette entry. *)
Lemma linear_color_degenerate_result value vmin vmax c :
  vmax ≤ vmin → linear_color value vmin vmax PALETTE = Ok c → c = "#5e4fa2".
Proof.
  intros Hle. unfold linear_color.
  destruct (match value with
            | PNone => Ok true
            | _ => f ← py_float value; Ok (is_nan f)
            end) as [b|e]; [|discriminate].
  rewrite bind_ok. destruct b; [intros [= <-]; reflexivity|].
  destruct (Z.leb_spec vmax vmin); [intros [= <-]; reflexivity|lia].
Qed.

Lemma of_Z_bounded z l : of_Z z = Some (Ffin l) → Z.abs l < overflow.
Proof.
  unfold of_Z, of_ratio.
  destruct (Z.leb_spec overflow (Z.abs (nearest (z * one) 1))); [discriminate|].
  intros [= <-]. assumption.
Qed.

(** A number between the bounds converts to the float nearest to it. *)
Lemma number_float v u vmin vmax l h :
  number_units v = Some u → vmin * one ≤ u ≤ vmax * one →
  of_Z vmin = Some (Ffin l) → of_Z vmax = Some (Ffin h) →
  py_float v = Ok (Ffin (nearest u 1)).
Proof.
  intros Hv Hu Hl Hh. destruct v as [| |z|[| |n]|]; try discriminate; simpl in Hv.
  - injection Hv as <-. simpl. unfold float_of_Z, of_Z, of_ratio.
    pose proof (of_Z_bounded _ _ Hl). pose proof (of_Z_bounded _ _ Hh).
    apply of_Z_fin in Hl, Hh. injection Hl as ->. injection Hh as ->.
    pose proof (nearest_mono (vmin * one) 1 (z * one) 1).
    pose proof (nearest_mono (z * one) 1 (vmax * one) 1).
    destruct (Z.leb_spec overflow (Z.abs (nearest (z * one) 1))); [lia|].
    reflexivity.
  - destruct (Z.eqb_spec (nearest n 1) n) as [E|]; simpl in Hv; [|discriminate].
    destruct (Z.abs n <? overflow); [|discriminate].
    injection Hv as <-. rewrite E. reflexivity.
Qed.

End LinearColor.

(** ** Claims about the colour mapper *)

Section ColorClaims.

Local Open Scope Z_scope.
Local Opaque Float.one Float.overflow.

(** The palette has ten distinct entries: a colour has one index. *)
Lemma PALETTE_NoDup : NoDup PALETTE.
Proof.
  unfold PALETTE.
  repeat (apply NoDup_cons; split;
          [rewrite ?elem_of_cons, ?elem_of_nil; intuition discriminate|]).
  apply NoDup_nil_2.
Qed.

(** C2 (as amended).  For integer bounds [vmin < vmax] whose difference as
    floats is finite and not zero, and numbers [a <= b] within
    [[vmin, vmax]] (ints, or finite binary64 floats), [linear_color] returns
    for both, and the palette index of the colour of [a] is at most that of
    the colour of [b]. *)
Theorem linear_color_monotone (vmin vmax : Z) (a b : pyval) (ua ub : Z) :
  vmin < vmax → range_ok vmin vmax = true →
  number_units a = Some ua → number_units b = Some ub →
  vmin * one ≤ ua → ua ≤ ub → ub ≤ vmax * one →
  ∃ (ia ib : nat) (ca cb : string),
    linear_color a vmin vmax PALETTE = Ok ca ∧
    linear_color b vmin vmax PALETTE = Ok cb ∧
    PALETTE !! ia = Some ca ∧ PALETTE !! ib = Some cb ∧ (ia ≤ ib)%nat.
Proof.
  intros Hlt Hr Ha Hb Hlo Hab Hhi.
  destruct (range_ok_inv _ _ Hlt Hr) as (l & h & d & Hl & Hh & Hd & Hd0 & Hlh).
  pose proof (number_float a ua vmin vmax l h Ha ltac:(lia) Hl Hh) as Hfa.
  pose proof (number_float b ub vmin vmax l h Hb ltac:(lia) Hl Hh) as Hfb.
  destruct (linear_color_in_range a _ vmin vmax l h d Hfa ltac:(discriminate)
              Hlt Hl Hh Hd Hd0) as (ta & ma & ca & Eta & _ & Ema & Hma & Eca & Hca).
  destruct (linear_color_in_range b _ vmin vmax l h d Hfb ltac:(discriminate)
              Hlt Hl Hh Hd Hd0) as (tb & mb & cb & Etb & _ & Emb & Hmb & Ecb & Hcb).
  exists (Z.to_nat (round_units ma)), (Z.to_nat (round_units mb)), ca, cb.
  repeat split; try assumption.
  assert (Hf : fle (Ffin (nearest ua 1)) (Ffin (nearest ub 1)))
    by (simpl; apply nearest_mono; lia).
  pose proof (clamp01_mono _ _ (div_mono _ _ d Hd0 (sub_mono _ _ l Hf))) as Ht.
  rewrite Eta, Etb in Ht. simpl in Ht.
  pose proof (scale9_mono _ _ Ht) as Hm. rewrite Ema, Emb in Hm. simpl in Hm.
  pose proof (round_units_mono _ _ Hm).
  pose proof (round_units_range _ Hma). lia.
Qed.

End ColorClaims.

(** ** Loops that may raise *)

Section Loops.

Local Open Scope list_scope.
Context {A B S : Type}.

Lemma map_result_lookup (f : A → result B) l bs :
  map_result f l = Ok bs →
  length bs = length l ∧
  ∀ i a, l !! i = Some a → ∃ b, bs !! i = Some b ∧ f a = Ok b.
Proof.
  revert bs. induction l as [|a l IH]; intros bs; simpl.
  - intros [= <-]. split; [reflexivity|]. intros i a Hi. discriminate.
  - destruct (f a) as [b|e] eqn:Ea; [|discriminate]. rewrite bind_ok.
    destruct (map_result f l) as [bs'|e]; [|discriminate]. rewrite bind_ok.
    intros [= <-]. destruct (IH bs' eq_refl) as [Hlen Hlk].
    split; [simpl; congruence|].
    intros [|i] a' Hi; simpl in *.
    + injection Hi as <-. eauto.
    + apply Hlk. assumption.
Qed.

Lemma map_result_total (f : A → result B) l :
  (∀ a, a ∈ l → ∃ b, f a = Ok b) → ∃ bs, map_result f l = Ok bs.
Proof.
  induction l as [|a l IH]; intros Hall; simpl; [eauto|].
  destruct (Hall a) as [b ->]; [left|]. rewrite bind_ok.
  destruct IH as [bs ->]; [intros; apply Hall; right; assumption|].
  rewrite bind_ok. eauto.
Qed.

Lemma for_each_cons (body : S → A → result S) a l s :
  for_each body (a :: l) s = body s a ≫= for_each body l.
Proof. reflexivity. Qed.

(** A loop returns when its body returns on every state that satisfies an
    invariant the body preserves. *)
Lemma for_each_total (body : S → A → result S) (I : S → Prop) l s :
  I s →
  (∀ s a, I s → a ∈ l → ∃ s', body s a = Ok s' ∧ I s') →
  ∃ s', for_each body l s = Ok s' ∧ I s'.
Proof.
  revert s. induction l as [|a l IH]; intros s Hs Hbody; simpl; [eauto|].
  destruct (Hbody s a Hs) as (s1 & -> & Hs1); [left|]. rewrite bind_ok.
  apply IH; [assumption|]. intros s2 a2 H2 Hin. apply Hbody; [assumption|].
  right. assumption.
Qed.

(** Invariant rule for the states a loop goes through. *)
Lemma for_each_invariant (body : S → A → result S) (I : list A → S → Prop) l s s' :
  I [] s →
  (∀ done a s1 s2, I done s1 → body s1 a = Ok s2 → I (done ++ [a]) s2) →
  for_each body l s = Ok s' → I l s'.
Proof.
  intros Hs Hstep.
  assert (Hgen : ∀ rest done s0, I done s0 → for_each body rest s0 = Ok s' →
                                 I (done ++ rest) s').
  { induction rest as [|a rest IH]; intros done s0 H0; simpl.
    - intros [= <-]. rewrite app_nil_r. assumption.
    - destruct (body s0 a) as [s1|e] eqn:Eb; [|discriminate]. rewrite bind_ok.
      intros Hrest. replace (done ++ a :: rest) with ((done ++ [a]) ++ rest)
        by (rewrite <- app_assoc; reflexivity).
      eapply IH; [|eassumption]. eapply Hstep; eassumption. }
  intros Hrun. exact (Hgen l [] s Hs Hrun).
Qed.

End Loops.

(** ** The loops of [build_graph] *)

Section BuildGraph.

Local Open Scope list_scope.

Implicit Types ns : list (string * gmap string pyval).

Lemma node_data_lookup ns i n d :
  NoDup ns.*1 → ns !! i = Some (n, d) → node_data ns n = Ok d.
Proof.
  intros Hnd Hi. unfold node_data.
  destruct (list_find (λ nd, nd.1 = n) ns) as [[j [m d2]]|] eqn:E.
  - apply list_find_Some in E as (Hj & Hm & _). simpl in Hm. subst m.
    assert (i = j) as ->.
    { eapply NoDup_lookup; [exact Hnd| |];
        rewrite list_lookup_fmap; [rewrite Hi|rewrite Hj]; reflexivity. }
    congruence.
  - apply list_find_None in E. rewrite Forall_forall in E.
    destruct (E (n, d)); [|reflexivity]. eapply list_elem_of_lookup_2, Hi.
Qed.

Lemma node_data_ok ns n d :
  node_data ns n = Ok d → ∃ i, ns !! i = Some (n, d).
Proof.
  unfold node_data.
  destruct (list_find (λ nd, nd.1 = n) ns) as [[j [m d2]]|] eqn:E; [|discriminate].
  apply list_find_Some in E as (Hj & Hm & _). simpl in Hm. subst m.
  intros [= <-]. eauto.
Qed.

Lemma set_node_data_lookup ns n D i :
  set_node_data ns n D !! i
  = (λ nd, if decide (nd.1 = n) then (n, D) else nd) <$> ns !! i.
Proof. unfold set_node_data. apply list_lookup_fmap. Qed.

Lemma set_node_data_ids ns n D : (set_node_data ns n D).*1 = ns.*1.
Proof.
  unfold set_node_data. rewrite <- list_fmap_compose.
  apply list_fmap_ext. intros i [m d] _. simpl.
  destruct (decide (m = n)); simpl; congruence.
Qed.

Lemma color_step_inv vmin vmax ns n x y ns' :
  color_step vmin vmax ns (n, (x, y)) = Ok ns' →
  ∃ data color,
    node_data ns n = Ok data ∧
    linear_color (default (PInt 0) (data !! "Conexões")) vmin vmax PALETTE
      = Ok color ∧
    ns' = set_node_data ns n
            (<["color" := PStr color]>
               (<["y" := PFloat y]> (<["x" := PFloat x]> data))).
Proof.
  unfold color_step.
  destruct (node_data ns n) as [data|e]; [|discriminate]. rewrite bind_ok.
  rewrite !lookup_insert_ne by done.
  destruct (linear_color _ vmin vmax PALETTE) as [color|e] eqn:Ec; [|discriminate].
  rewrite bind_ok. intros [= <-]. eauto.
Qed.

(** The second loop, node by node. *)
Lemma color_steps_lookup vmin vmax pos ns ns' :
  NoDup ns.*1 →
  for_each (color_step vmin vmax) pos ns = Ok ns' →
  ns'.*1 = ns.*1 ∧
  ∀ i nd, ns !! i = Some nd →
    ∃ nd', ns' !! i = Some nd' ∧ colored vmin vmax pos.*1 nd nd'.
Proof.
  revert ns. induction pos as [|[n [x y]] pos IH]; intros ns Hnd.
  - intros [= <-]. split; [reflexivity|]. intros i nd Hi. exists nd.
    split; [assumption|]. unfold colored. repeat split; try reflexivity.
    intros Hin. apply elem_of_nil in Hin. destruct Hin.
  - rewrite for_each_cons, fmap_cons. cbn [fst].
    destruct (color_step vmin vmax ns (n, (x, y))) as [ns1|e] eqn:Es;
      [|rewrite bind_raise; discriminate].
    rewrite bind_ok. intros Hrun.
    apply color_step_inv in Es as (data & color & Hdata & Hcolor & ->).
    set (D := <["color" := PStr color]> (<["y" := PFloat y]> (<["x" := PFloat x]> data))) in *.
    destruct (IH (set_node_data ns n D)) as [Hids Hlk];
      [rewrite set_node_data_ids; assumption|assumption|].
    rewrite set_node_data_ids in Hids. split; [assumption|].
    intros i [m d] Hi.
    destruct (Hlk i (if decide (m = n) then (n, D) else (m, d)))
      as (nd' & Hi' & Hid & Hkeys & Hin & Hout).
    { rewrite set_node_data_lookup, Hi. reflexivity. }
    exists nd'. split; [assumption|].
    destruct (decide (m = n)) as [->|Hne]; simpl in *.
    + assert (data = d) as ->.
      { pose proof (node_data_lookup ns i n d Hnd Hi). congruence. }
      assert (HD : ∀ k, k ≠ "x" → k ≠ "y" → k ≠ "color" → D !! k = d !! k).
      { intros k Hx Hy Hc. unfold D. rewrite !lookup_insert_ne by congruence.
        reflexivity. }
      repeat split.
      * assumption.
      * intros k Hx Hy Hc. rewrite Hkeys by assumption. apply HD; assumption.
      * intros _. destruct (decide (n ∈ pos.*1)) as [Hp|Hp].
        -- destruct (Hin Hp) as (color' & Hc' & Hs').
           rewrite HD in Hc' by done. eauto.
        -- rewrite (Hout Hp). exists color. split; [assumption|].
           unfold D. simpl. apply lookup_insert_eq.
      * intros Hn. destruct Hn. left.
    + repeat split; try assumption.
      * intros Hm. apply Hin. simpl in Hm.
        apply elem_of_cons in Hm as [?|?]; [congruence|assumption].
      * intros Hm. apply Hout. intros ?. apply Hm. right. assumption.
Qed.

Lemma conexoes_step_id G nd : (conexoes_step G nd).1.1 = nd.1.
Proof.
  destruct nd as [n data]. unfold conexoes_step.
  repeat match goal with |- context [match ?x with _ => _ end] => destruct x end;
    reflexivity.
Qed.

Lemma stepped_ids G : (map fst (map (conexoes_step G) (nodes G))).*1 = (nodes G).*1.
Proof.
  rewrite <- !list_fmap_compose. apply list_fmap_ext.
  intros i nd _. simpl. apply conexoes_step_id.
Qed.

(** [build_graph] in terms of its three loops. *)
Lemma build_graph_inv G pos G' :
  NoDup (nodes G).*1 →
  build_graph G pos = Ok G' →
  let values := map snd (map (conexoes_step G) (nodes G)) in
  edges G' = map weight_step (edges G) ∧
  (nodes G').*1 = (nodes G).*1 ∧
  ∀ i nd, nodes G !! i = Some nd →
    ∃ nd', nodes G' !! i = Some nd' ∧
      colored (min_or 0 values) (max_or 1 values) pos.*1
        (conexoes_step G nd).1 nd'.
Proof.
  intros Hnd. unfold build_graph.
  destruct (for_each _ pos _) as [ns|e] eqn:Erun; [|discriminate].
  rewrite bind_ok. intros [= <-]. simpl.
  apply color_steps_lookup in Erun as [Hids Hlk];
    [|rewrite stepped_ids; assumption].
  rewrite stepped_ids in Hids. repeat split; [assumption|].
  intros i nd Hi. apply Hlk.
  rewrite !list_lookup_fmap, Hi. reflexivity.
Qed.

End BuildGraph.

(** ** Claims about [build_graph] *)

Section BuildGraphClaims.

Local Open Scope Z_scope.
Local Opaque Float.one Float.overflow.

Lemma min_max_constant c l :
  l ≠ [] → Forall (λ v, v = c) l → min_or 0 l = c ∧ max_or 1 l = c.
Proof.
  destruct l as [|x l]; [congruence|]. intros _ Hall.
  apply Forall_cons in Hall as [-> Hall]. simpl.
  induction Hall as [|y l -> _ IH]; simpl; [done|].
  rewrite Z.min_id, Z.max_id. exact IH.
Qed.

(** When every node has the same connectivity, every node that the layout
    positions gets the first palette colour. *)
Lemma same_connectivity_first_color G pos G' c :
  NoDup (nodes G).*1 → build_graph G pos = Ok G' →
  (∀ nd, nd ∈ nodes G → connectivity G nd = c) →
  ∀ n d', n ∈ pos.*1 → (n, d') ∈ nodes G' →
    d' !! "color" = Some (PStr "#5e4fa2").
Proof.
  intros Hnd Hrun Hsame n d' Hpos Hin.
  destruct (build_graph_inv G pos G' Hnd Hrun) as (_ & Hids & Hlk).
  apply list_elem_of_lookup in Hin as [i Hi].
  assert (Hi0 : ∃ nd, nodes G !! i = Some nd).
  { apply lookup_lt_is_Some. apply lookup_lt_Some in Hi.
    rewrite <- (length_fmap fst), <- Hids, length_fmap. assumption. }
  destruct Hi0 as [nd Hi0].
  destruct (Hlk i nd Hi0) as (nd' & Hi' & Hid & _ & Hcol & _).
  rewrite Hi in Hi'. injection Hi' as <-. simpl in Hid.
  rewrite conexoes_step_id in Hid.
  destruct Hcol as (color & Hc & Hd'); [rewrite conexoes_step_id, <- Hid; assumption|].
  simpl in Hd'. rewrite Hd'. do 2 f_equal.
  destruct (min_max_constant c (map snd (map (conexoes_step G) (nodes G)))) as [Hmin Hmax].
  { intros Hnil. apply fmap_nil_inv, fmap_nil_inv in Hnil.
    rewrite Hnil in Hi0. discriminate. }
  { rewrite Forall_fmap, Forall_fmap, Forall_forall. intros x Hx. apply Hsame, Hx. }
  rewrite Hmin, Hmax in Hc.
  eapply linear_color_degenerate_result; [|exact Hc]. lia.
Qed.

End BuildGraphClaims.

(** ** Sorting the rows *)

Section SortRows.

Local Open Scope Z_scope.

Lemma ltb_neg x y : ltb (neg x) (neg y) = ltb y x.
Proof.
  destruct x as [|[]|a], y as [|[]|b]; simpl; try reflexivity.
  destruct (Z.ltb_spec (- a) (- b)), (Z.ltb_spec b a); lia || reflexivity.
Qed.

Lemma eqb_neg x y : Float.eqb (neg x) (neg y) = Float.eqb x y.
Proof.
  destruct x as [|[]|a], y as [|[]|b]; simpl; try reflexivity.
  destruct (Z.eqb_spec (- a) (- b)), (Z.eqb_spec a b); lia || reflexivity.
Qed.

Lemma eqb_true x y : Float.eqb x y = true → x = y.
Proof.
  destruct x as [|[]|a], y as [|[]|b]; simpl; try discriminate; try reflexivity.
  intros H. apply Z.eqb_eq in H. congruence.
Qed.

Lemma eqb_false x y :
  x ≠ Fnan → y ≠ Fnan → Float.eqb x y = false →
  ltb x y = true ∨ ltb y x = true.
Proof.
  destruct x as [|[]|a], y as [|[]|b]; simpl; try congruence; auto.
  intros _ _ H. apply Z.eqb_neq in H.
  destruct (Z.ltb_spec a b), (Z.ltb_spec b a); auto; lia.
Qed.

Lemma ltb_irrefl x : ltb x x = false.
Proof. destruct x as [|[]|a]; simpl; try reflexivity. apply Z.ltb_irrefl. Qed.

Lemma ltb_asym x y : ltb x y = true → ltb y x = false.
Proof.
  destruct x as [|[]|a], y as [|[]|b]; simpl; try discriminate; try reflexivity.
  intros H. apply Z.ltb_lt in H. apply Z.ltb_ge. lia.
Qed.

Lemma ltb_trans x y z : ltb x y = true → ltb y z = true → ltb x z = true.
Proof.
  destruct x as [|[]|a], y as [|[]|b], z as [|[]|c]; simpl;
    try discriminate; try reflexivity.
  intros H1 H2. apply Z.ltb_lt in H1, H2. apply Z.ltb_lt. lia.
Qed.

Lemma string_ltb_leb s1 s2 : String.ltb s1 s2 = true → String.leb s1 s2 = true.
Proof.
  unfold String.ltb, String.leb. destruct (String.compare s1 s2); congruence.
Qed.

Lemma string_ltb_false s1 s2 :
  String.ltb s1 s2 = false → String.leb s2 s1 = true.
Proof.
  unfold String.ltb, String.leb. rewrite (String.compare_antisym s2 s1).
  destruct (String.compare s1 s2); simpl; congruence.
Qed.

Lemma string_leb_trans s1 s2 s3 :
  String.leb s1 s2 = true → String.leb s2 s3 = true → String.leb s1 s3 = true.
Proof.
  unfold String.leb. intros H12 H23.
  destruct (String.compare s1 s2) eqn:E12; [| |discriminate];
    destruct (String.compare s2 s3) eqn:E23; try discriminate.
  - apply String.compare_eq_iff in E12, E23. subst.
    destruct (String.compare s3 s3) eqn:E; try reflexivity.
    pose proof (String.compare_antisym s3 s3) as Ha. rewrite E in Ha.
    simpl in Ha. discriminate.
  - apply String.compare_eq_iff in E12. subst. rewrite E23. reflexivity.
  - apply String.compare_eq_iff in E23. subst. rewrite E12. reflexivity.
  - assert (String.compare s1 s3 = Lt) as ->; [|reflexivity].
    exact (@RelationClasses.StrictOrder_Transitive _ _ String_as_OT.lt_strorder
             s1 s2 s3 E12 E23).
Qed.

(** Python's [<] on the sort keys agrees with the order of the
    specification, for weights that are numbers. *)
Lemma key_lt_true r1 r2 :
  key_lt (sort_key r1) (sort_key r2) = true → row_order r1 r2.
Proof.
  unfold key_lt, sort_key, row_order. rewrite eqb_neg, ltb_neg.
  destruct (Float.eqb (colabs r1) (colabs r2)) eqn:Ew; simpl; [|auto].
  apply eqb_true in Ew. right. split; [assumption|].
  destruct (Z.eqb_spec (- comuns r1) (- comuns r2)); simpl in *.
  - right. split; [lia|]. apply string_ltb_leb. assumption.
  - left. apply Z.ltb_lt in H. lia.
Qed.

Lemma key_lt_false r1 r2 :
  colabs r1 ≠ Fnan → colabs r2 ≠ Fnan →
  key_lt (sort_key r1) (sort_key r2) = false → row_order r2 r1.
Proof.
  intros H1 H2. unfold key_lt, sort_key, row_order. rewrite eqb_neg, ltb_neg.
  destruct (Float.eqb (colabs r1) (colabs r2)) eqn:Ew; simpl.
  - apply eqb_true in Ew. right. split; [congruence|].
    destruct (Z.eqb_spec (- comuns r1) (- comuns r2)); simpl in *.
    + right. split; [lia|]. apply string_ltb_false. assumption.
    + left. apply Z.ltb_ge in H. lia.
  - intros Hlt. destruct (eqb_false _ _ H1 H2 Ew) as [Hl|Hl]; [auto|congruence].
Qed.

Lemma row_order_trans r1 r2 r3 :
  row_order r1 r2 → row_order r2 r3 → row_order r1 r3.
Proof.
  unfold row_order.
  intros [H12|[E12 H12]] [H23|[E23 H23]].
  - left. eapply ltb_trans; eassumption.
  - left. congruence.
  - left. congruence.
  - right. split; [congruence|].
    destruct H12 as [H12|[C12 S12]], H23 as [H23|[C23 S23]]; try (left; lia).
    right. split; [lia|]. eapply string_leb_trans; eassumption.
Qed.

Lemma insert_row_perm r l : Permutation (insert_row r l) (r :: l).
Proof.
  induction l as [|r' l IH]; cbn [insert_row]; [reflexivity|].
  destruct (key_lt (sort_key r) (sort_key r')); [reflexivity|].
  rewrite IH. apply perm_swap.
Qed.

Lemma insert_row_sorted r l :
  colabs r ≠ Fnan → Forall (λ x, colabs x ≠ Fnan) l →
  StronglySorted row_order l → StronglySorted row_order (insert_row r l).
Proof.
  intros Hr Hl Hs. induction Hs as [|r' l Hs IH Hall]; cbn [insert_row].
  - constructor; constructor.
  - apply Forall_cons in Hl as [Hr' Hl].
    destruct (key_lt (sort_key r) (sort_key r')) eqn:E.
    + apply key_lt_true in E. constructor; [constructor; assumption|].
      constructor; [assumption|].
      eapply Forall_impl; [exact Hall|]. intros x Hx. simpl.
      eapply row_order_trans; eassumption.
    + apply key_lt_false in E; [|assumption..].
      constructor; [apply IH; assumption|].
      rewrite (insert_row_perm r l). constructor; assumption.
Qed.

Lemma sort_rows_acc l acc :
  Forall (λ x, colabs x ≠ Fnan) l → Forall (λ x, colabs x ≠ Fnan) acc →
  StronglySorted row_order acc →
  let out := fold_left (λ acc r, insert_row r acc) l acc in
  StronglySorted row_order out ∧ Permutation out (acc ++ l).
Proof.
  revert acc. induction l as [|r l IH]; intros acc Hl Hacc Hs; simpl.
  - rewrite app_nil_r. split; [assumption|reflexivity].
  - apply Forall_cons in Hl as [Hr Hl].
    destruct (IH (insert_row r acc)) as [Hs' Hp].
    + assumption.
    + rewrite (insert_row_perm r acc). constructor; assumption.
    + apply insert_row_sorted; assumption.
    + split; [assumption|]. rewrite Hp, (insert_row_perm r acc).
      simpl. apply Permutation_middle.
Qed.

Lemma sort_rows_perm l : Permutation (sort_rows l) l.
Proof.
  unfold sort_rows.
  assert (H : ∀ acc, Permutation (fold_left (λ acc r, insert_row r acc) l acc)
                                 (acc ++ l)).
  { induction l as [|r l IH]; intros acc; simpl.
    - rewrite app_nil_r. reflexivity.
    - rewrite IH, (insert_row_perm r acc). simpl. apply Permutation_middle. }
  apply (H []).
Qed.

Lemma sort_rows_sorted l :
  Forall (λ x, colabs x ≠ Fnan) l → StronglySorted row_order (sort_rows l).
Proof.
  intros Hl. apply (sort_rows_acc l []); [assumption|constructor..].
Qed.

Lemma strongly_sorted_lookup (l : list row) i j r1 r2 :
  StronglySorted row_order l → (i < j)%nat →
  l !! i = Some r1 → l !! j = Some r2 → row_order r1 r2.
Proof.
  intros Hs. revert i j. induction Hs as [|x l Hs IH Hall]; intros i j Hij Hi Hj.
  - discriminate.
  - destruct j as [|j]; [lia|]. simpl in Hj. destruct i as [|i]; simpl in Hi.
    + injection Hi as <-. rewrite Forall_forall in Hall. apply Hall.
      eapply list_elem_of_lookup_2, Hj.
    + apply (IH i j); [lia|assumption..].
Qed.

Lemma table_inv G lbl rows :
  compute_common_neighbors_table G lbl = Ok rows →
  ∃ rs, edge_rows G lbl = Ok rs ∧ rows = sort_rows rs.
Proof.
  unfold compute_common_neighbors_table.
  destruct (edge_rows G lbl) as [rs|e]; [|discriminate].
  rewrite bind_ok. intros [= <-]. eauto.
Qed.

End SortRows.

(** ** The loop of [compute_common_neighbors_table] *)

Section EdgeRows.

Local Open Scope list_scope.
Local Arguments edge_key : simpl never.

Lemma edge_key_eq u v :
  edge_key u v = (sorted2 u v).1 +:+ "||" +:+ (sorted2 u v).2.
Proof. unfold edge_key. destruct (sorted2 u v). reflexivity. Qed.

Lemma edge_step_seen G lbl seen rows u v d :
  edge_key u v ∈ seen → edge_step G lbl (seen, rows) (u, v, d) = Ok (seen, rows).
Proof.
  intros Hin. unfold edge_step. rewrite edge_key_eq in Hin.
  destruct (sorted2 u v) as [a b]. simpl in Hin.
  destruct (decide (a +:+ "||" +:+ b ∈ seen)); [reflexivity|contradiction].
Qed.

Lemma edge_step_new G lbl seen rows u v d :
  edge_key u v ∉ seen →
  edge_step G lbl (seen, rows) (u, v, d)
  = r ← row_of G lbl (u, v, d); Ok (seen ∪ {[edge_key u v]}, rows ++ [r]).
Proof.
  intros Hin. unfold edge_step, row_of, display. rewrite edge_key_eq in *.
  destruct (sorted2 u v) as [a b]. simpl in *.
  destruct (decide (a +:+ "||" +:+ b ∈ seen)); [contradiction|].
  destruct (py_float _) as [w|e]; [|reflexivity]. rewrite !bind_ok.
  destruct (sorted2 _ _). reflexivity.
Qed.

(** The loop builds the rows of the first edges of each key, in order. *)
Lemma edge_loop_rows G lbl es seen rows :
  (st ← for_each (edge_step G lbl) es (seen, rows); Ok st.2)
  = (rs ← map_result (row_of G lbl) (first_of_key seen es); Ok (rows ++ rs)).
Proof.
  revert seen rows. induction es as [|[[u v] d] es IH]; intros seen rows.
  - simpl. rewrite app_nil_r. reflexivity.
  - rewrite for_each_cons. cbn [first_of_key].
    destruct (decide (edge_key u v ∈ seen)) as [Hin|Hin].
    + rewrite edge_step_seen by assumption. rewrite bind_ok. apply IH.
    + rewrite edge_step_new by assumption. cbn [map_result].
      destruct (row_of G lbl (u, v, d)) as [r|e]; [|reflexivity].
      rewrite !bind_ok, IH.
      destruct (map_result _ _) as [rs|e]; [|reflexivity].
      rewrite !bind_ok, <- app_assoc. reflexivity.
Qed.

Lemma edge_rows_eq G lbl :
  edge_rows G lbl = map_result (row_of G lbl) (first_of_key ∅ (edges G)).
Proof.
  unfold edge_rows. rewrite edge_loop_rows.
  destruct (map_result _ _); reflexivity.
Qed.

Lemma elem_of_ends_at w n e :
  w ∈ ends_at n e ↔ (e.1.1 = n ∧ e.1.2 = w) ∨ (e.1.2 = n ∧ e.1.1 = w).
Proof.
  destruct e as [[u v] d]. unfold ends_at. simpl.
  rewrite elem_of_app.
  destruct (decide (u = n)), (decide (v = n));
    rewrite ?elem_of_cons, ?elem_of_nil; intuition congruence.
Qed.

(** The neighbours of a node are the nodes adjacent to it. *)
Lemma elem_of_neighbors G n w : w ∈ neighbors G n ↔ adjacent G n w.
Proof.
  unfold neighbors, adjacent.
  rewrite elem_of_list_to_set, list_elem_of_In, in_flat_map.
  split.
  - intros ([[u v] d] & Hin & Hw). apply list_elem_of_In in Hin, Hw.
    apply elem_of_ends_at in Hw. simpl in Hw. exists d.
    destruct Hw as [[-> ->]|[-> ->]]; auto.
  - intros (d & [Hin|Hin]).
    + exists (n, w, d). split; [apply list_elem_of_In; assumption|].
      apply list_elem_of_In, elem_of_ends_at. simpl. auto.
    + exists (w, n, d). split; [apply list_elem_of_In; assumption|].
      apply list_elem_of_In, elem_of_ends_at. simpl. auto.
Qed.

Lemma neigh_lookup G n :
  NoDup (nodes G).*1 → n ∈ (nodes G).*1 → neigh G !! n = Some (neighbors G n).
Proof.
  intros Hnd Hin. unfold neigh. apply elem_of_list_to_map_1.
  - rewrite <- list_fmap_compose.
    erewrite list_fmap_ext; [exact Hnd|]. intros i x _. reflexivity.
  - apply list_elem_of_fmap in Hin as ([m d] & -> & Hin).
    apply list_elem_of_fmap. exists (m, d). split; [reflexivity|assumption].
Qed.

Lemma first_of_key_subseteq seen es e : e ∈ first_of_key seen es → e ∈ es.
Proof.
  revert seen. induction es as [|[[u v] d] es IH]; intros seen; simpl.
  - intros H. exact H.
  - destruct (decide (edge_key u v ∈ seen)).
    + intros H. right. eapply IH, H.
    + rewrite !elem_of_cons. intros [->|H]; [left; reflexivity|right].
      eapply IH, H.
Qed.

Lemma size_add_fresh (k : string) (K seen : gset string) :
  k ∉ seen →
  size (({[k]} ∪ K) ∖ seen) = S (size (K ∖ (seen ∪ {[k]}))).
Proof.
  intros Hk.
  assert (({[k]} ∪ K) ∖ seen = {[k]} ∪ K ∖ (seen ∪ {[k]})) as ->.
  { apply set_eq. intros x.
    rewrite !elem_of_difference, !elem_of_union, elem_of_difference,
      elem_of_union, !elem_of_singleton.
    destruct (decide (x = k)); subst; tauto. }
  rewrite size_union, size_singleton; [reflexivity|].
  intros x. rewrite elem_of_singleton, elem_of_difference, elem_of_union,
    elem_of_singleton. tauto.
Qed.

Lemma difference_add_seen (k : string) (K seen : gset string) :
  k ∈ seen → ({[k]} ∪ K) ∖ seen = K ∖ seen.
Proof.
  intros Hk. apply set_eq. intros x.
  rewrite !elem_of_difference, elem_of_union, elem_of_singleton.
  destruct (decide (x = k)); subst; tauto.
Qed.

(** One row for each key among the edges. *)
Lemma first_of_key_length seen es :
  length (first_of_key seen es)
  = size (list_to_set (map (λ e, edge_key e.1.1 e.1.2) es) ∖ seen : gset string).
Proof.
  revert seen. induction es as [|[[u v] d] es IH]; intros seen; simpl.
  - replace (∅ ∖ seen) with (∅ : gset string) by set_solver. reflexivity.
  - destruct (decide (edge_key u v ∈ seen)) as [Hin|Hin].
    + rewrite IH, difference_add_seen by assumption. reflexivity.
    + simpl. rewrite IH, size_add_fresh by assumption. reflexivity.
Qed.

Lemma map_result_length {A B} (f : A → result B) l bs :
  map_result f l = Ok bs → length bs = length l.
Proof. intros H. apply map_result_lookup in H as [H _]. exact H. Qed.

(** The table has one row for each key. *)
Lemma table_length G lbl rows :
  compute_common_neighbors_table G lbl = Ok rows →
  length rows = size (edge_keys G).
Proof.
  intros Hrun. apply table_inv in Hrun as (rs & Hrs & ->).
  rewrite (Permutation_length (sort_rows_perm rs)).
  rewrite edge_rows_eq in Hrs. apply map_result_length in Hrs.
  rewrite Hrs, first_of_key_length. unfold edge_keys. f_equal. set_solver.
Qed.

(** Every row of the table is the row of a first edge of its key, and
    conversely. *)
Lemma table_rows G lbl rows :
  compute_common_neighbors_table G lbl = Ok rows →
  (∀ r, r ∈ rows → ∃ e, e ∈ first_of_key ∅ (edges G) ∧ row_of G lbl e = Ok r) ∧
  (∀ e, e ∈ first_of_key ∅ (edges G) → ∃ r, r ∈ rows ∧ row_of G lbl e = Ok r).
Proof.
  intros Hrun. apply table_inv in Hrun as (rs & Hrs & ->).
  rewrite edge_rows_eq in Hrs. apply map_result_lookup in Hrs as [Hlen Hlk].
  split.
  - intros r Hr. rewrite (sort_rows_perm rs) in Hr.
    apply list_elem_of_lookup in Hr as [i Hi].
    destruct (lookup_lt_is_Some_2 (first_of_key ∅ (edges G)) i) as [e He].
    { rewrite <- Hlen. eapply lookup_lt_Some, Hi. }
    destruct (Hlk i e He) as (r' & Hr' & Hrow). exists e.
    split; [eapply list_elem_of_lookup_2, He|congruence].
  - intros e He. apply list_elem_of_lookup in He as [i Hi].
    destruct (Hlk i e Hi) as (r & Hr & Hrow). exists r.
    split; [|assumption]. rewrite (sort_rows_perm rs).
    eapply list_elem_of_lookup_2, Hr.
Qed.

Lemma sorted2_cases u v : sorted2 u v = (u, v) ∨ sorted2 u v = (v, u).
Proof. unfold sorted2. destruct (String.ltb v u); auto. Qed.

Lemma shared_neighbors_comm G u v : shared_neighbors G u v = shared_neighbors G v u.
Proof.
  unfold shared_neighbors. apply set_eq. intros x.
  rewrite !elem_of_difference, !elem_of_intersection, !elem_of_union,
    !elem_of_singleton. tauto.
Qed.

(** The members of the counted set: the other nodes adjacent to both
    endpoints. *)
Lemma elem_of_shared_neighbors G u v w :
  w ∈ shared_neighbors G u v ↔
  w ≠ u ∧ w ≠ v ∧ adjacent G u w ∧ adjacent G v w.
Proof.
  unfold shared_neighbors.
  rewrite elem_of_difference, elem_of_intersection, !elem_of_neighbors,
    elem_of_union, !elem_of_singleton. tauto.
Qed.

(** The row of an edge of a well-formed graph. *)
Lemma row_of_inv G lbl u v d r :
  wf_graph G → (u, v, d) ∈ edges G → row_of G lbl (u, v, d) = Ok r →
  aresta r = display lbl (sorted2 u v).1 (sorted2 u v).2 ∧
  py_float (py_or (default (PInt 1) (d !! "weight")) (PInt 1)) = Ok (colabs r) ∧
  comuns r = Z.of_nat (size (shared_neighbors G u v)).
Proof.
  intros [Hnd Hedges] Hin. rewrite Forall_forall in Hedges.
  destruct (Hedges _ Hin) as [Hu Hv]. simpl in Hu, Hv.
  unfold row_of.
  assert (Hab : ∀ a b, sorted2 u v = (a, b) →
                default ∅ (neigh G !! a) ∩ default ∅ (neigh G !! b) ∖ {[a; b]}
                = shared_neighbors G u v).
  { intros a b Hs.
    destruct (sorted2_cases u v) as [E|E]; rewrite E in Hs; injection Hs as <- <-;
      rewrite !neigh_lookup by assumption; simpl;
      [reflexivity|apply shared_neighbors_comm]. }
  destruct (sorted2 u v) as [a b] eqn:Es. specialize (Hab a b eq_refl).
  destruct (py_float _) as [w|e]; [|discriminate]. rewrite bind_ok.
  intros [= <-]. simpl. rewrite Hab. auto.
Qed.

Lemma first_of_key_all seen es :
  NoDup (map (λ e, edge_key e.1.1 e.1.2) es) →
  (∀ e, e ∈ es → edge_key e.1.1 e.1.2 ∉ seen) →
  first_of_key seen es = es.
Proof.
  revert seen. induction es as [|[[u v] d] es IH]; intros seen Hnd Hseen;
    [reflexivity|].
  rewrite map_cons in Hnd. apply NoDup_cons in Hnd as [Hk Hnd].
  cbn [first_of_key fst snd] in *.
  destruct (decide (edge_key u v ∈ seen)) as [Hin|_].
  - destruct (Hseen (u, v, d)); [left|assumption].
  - f_equal. apply IH; [assumption|].
    intros e He. rewrite elem_of_union, elem_of_singleton. intros [Hs|Hs].
    + apply (Hseen e); [right|]; assumption.
    + apply Hk. rewrite <- Hs. apply list_elem_of_In.
      apply (in_map (λ e, edge_key e.1.1 e.1.2)). apply list_elem_of_In, He.
Qed.

(** *** When the key identifies the pair *)

Lemma append_nil s : "" +:+ s = s.
Proof. reflexivity. Qed.

Lemma append_cons c a s : String c a +:+ s = String c (a +:+ s).
Proof. reflexivity. Qed.

Lemma join_key_inj a b a' b' :
  bar_free a = true → bar_free a' = true →
  a +:+ "||" +:+ b = a' +:+ "||" +:+ b' → a = a' ∧ b = b'.
Proof.
  revert a'. induction a as [|c a IH]; intros [|c' a'] Ha Ha';
    cbn [bar_free] in *; repeat (rewrite append_nil || rewrite append_cons).
  - intros [= <-]. auto.
  - apply andb_true_iff in Ha' as [Hc _]. intros [= <- _].
    discriminate.
  - apply andb_true_iff in Ha as [Hc _]. intros [= -> _].
    discriminate.
  - apply andb_true_iff in Ha as [_ Ha]. apply andb_true_iff in Ha' as [_ Ha'].
    intros [= <- Hrest]. destruct (IH a' Ha Ha' Hrest) as [-> ->]. auto.
Qed.

Lemma size_list_to_set_inj {A B} `{Countable A, Countable B} (f : A → B) (l : list A) :
  (∀ x y, x ∈ l → y ∈ l → f x = f y → x = y) →
  size (list_to_set (map f l) : gset B) = size (list_to_set l : gset A).
Proof.
  induction l as [|x l IH]; intros Hinj; [reflexivity|].
  rewrite map_cons, !list_to_set_cons.
  assert (IH' : size (list_to_set (map f l) : gset B) = size (list_to_set l : gset A)).
  { apply IH. intros y z Hy Hz. apply Hinj; right; assumption. }
  destruct (decide (x ∈ l)) as [Hx|Hx].
  - replace ({[x]} ∪ list_to_set l : gset A) with (list_to_set l : gset A).
    2:{ apply set_eq. intros y.
        rewrite elem_of_union, elem_of_singleton, !elem_of_list_to_set.
        split; [auto|]. intros [->|?]; assumption. }
    replace ({[f x]} ∪ list_to_set (map f l) : gset B)
      with (list_to_set (map f l) : gset B); [assumption|].
    apply set_eq. intros y.
    rewrite elem_of_union, elem_of_singleton, !elem_of_list_to_set.
    split; [auto|]. intros [->|?]; [|assumption].
    apply list_elem_of_fmap. eauto.
  - rewrite !size_union, !size_singleton, IH'; [reflexivity| |].
    + intros y. rewrite elem_of_singleton, elem_of_list_to_set. intros -> ?. auto.
    + intros y. rewrite elem_of_singleton, elem_of_list_to_set. intros ->.
      intros Hin. apply list_elem_of_fmap in Hin as (z & Hfz & Hz).
      apply Hx. rewrite (Hinj x z); [assumption|left|right; assumption|assumption].
Qed.

Lemma bar_free_sorted2 u v :
  bar_free u = true → bar_free v = true → bar_free (sorted2 u v).1 = true.
Proof. intros Hu Hv. destruct (sorted2_cases u v) as [->| ->]; assumption. Qed.

(** When no node id holds the character of the separator, the table has
    one row for each unordered endpoint pair. *)
Lemma table_length_pairs G lbl rows :
  wf_graph G →
  Forall (λ nd, bar_free nd.1 = true) (nodes G) →
  compute_common_neighbors_table G lbl = Ok rows →
  length rows = size (endpoint_pairs G).
Proof.
  intros [_ Hedges] Hfree Hrun. rewrite (table_length G lbl rows Hrun).
  unfold edge_keys, endpoint_pairs.
  assert (map (λ e, edge_key e.1.1 e.1.2) (edges G)
          = map (λ p, p.1 +:+ "||" +:+ p.2)
                (map (λ e, sorted2 e.1.1 e.1.2) (edges G))) as ->.
  { rewrite map_map. apply map_ext. intros e. apply edge_key_eq. }
  apply size_list_to_set_inj.
  assert (Hids : ∀ n, n ∈ (nodes G).*1 → bar_free n = true).
  { intros n Hn. apply list_elem_of_fmap in Hn as (nd & -> & Hnd).
    rewrite Forall_forall in Hfree. apply Hfree, Hnd. }
  rewrite Forall_forall in Hedges.
  intros [a b] [a' b'] Hp Hp' Hkey. simpl in Hkey.
  apply list_elem_of_fmap in Hp as (e & He & Hin).
  apply list_elem_of_fmap in Hp' as (e' & He' & Hin').
  destruct (Hedges _ Hin) as [Hu Hv]. destruct (Hedges _ Hin') as [Hu' Hv'].
  pose proof (bar_free_sorted2 _ _ (Hids _ Hu) (Hids _ Hv)) as Ha.
  pose proof (bar_free_sorted2 _ _ (Hids _ Hu') (Hids _ Hv')) as Ha'.
  rewrite <- He in Ha. rewrite <- He' in Ha'. simpl in Ha, Ha'.
  destruct (join_key_inj a b a' b' Ha Ha' Hkey) as [-> ->]. reflexivity.
Qed.

(** *** Weights after [build_graph] *)

Lemma float_of_Z_one : float_of_Z 1 = Ok (Ffin one).
Proof.
  unfold float_of_Z. rewrite (of_Z_small 1), Z.mul_1_l; [reflexivity|].
  split; [lia|]. apply Z.ltb_lt. reflexivity.
Qed.

Lemma float_of_text_one :
  py_float (PStr (replace_comma (py_str (PInt 1)))) = Ok (Ffin one).
Proof. vm_compute. reflexivity. Qed.

Lemma weight_step_eq u v d :
  weight_step (u, v, d) = (u, v, <["weight" := PFloat (normalized_weight d)]> d).
Proof.
  unfold weight_step, normalized_weight.
  destruct (d !! "weight") as [w|]; cbn [default from_option id]; [reflexivity|].
  rewrite float_of_text_one. reflexivity.
Qed.

Lemma build_graph_edges G pos G' :
  build_graph G pos = Ok G' → edges G' = map weight_step (edges G).
Proof.
  unfold build_graph. destruct (for_each _ pos _) as [ns|e]; [|discriminate].
  rewrite bind_ok. intros [= <-]. reflexivity.
Qed.

Lemma first_of_key_weight_step seen es :
  first_of_key seen (map weight_step es) = map weight_step (first_of_key seen es).
Proof.
  revert seen. induction es as [|[[u v] d] es IH]; intros seen; [reflexivity|].
  rewrite map_cons, weight_step_eq. cbn [first_of_key].
  destruct (decide (edge_key u v ∈ seen)); [apply IH|].
  rewrite map_cons, weight_step_eq, IH. reflexivity.
Qed.

(** The row of an edge whose weight [build_graph] has normalized. *)
Lemma row_of_weight_step G lbl u v d :
  ∃ r, row_of G lbl (weight_step (u, v, d)) = Ok r ∧
       aresta r = display lbl (sorted2 u v).1 (sorted2 u v).2 ∧
       colabs r = table_weight d.
Proof.
  rewrite weight_step_eq. unfold row_of, table_weight.
  destruct (sorted2 u v) as [a b]. rewrite lookup_insert_eq.
  cbn [default from_option id].
  assert (Hw : py_float (py_or (PFloat (normalized_weight d)) (PInt 1))
               = Ok match normalized_weight d with
                    | Ffin 0 => Ffin one
                    | w => w
                    end).
  { destruct (normalized_weight d) as [| |[|p|p]];
      [reflexivity|reflexivity|apply float_of_Z_one|reflexivity|reflexivity]. }
  rewrite Hw, bind_ok. eexists. split; [reflexivity|]. split; reflexivity.
Qed.

End EdgeRows.

(** ** Coercions and the node entries *)

Section Coercions.

Local Open Scope Z_scope.

Lemma to_int_coerce x : to_int x = default 0 (coerce_int x).
Proof.
  unfold to_int, coerce_int. destruct (py_int x) as [z|e]; [reflexivity|].
  destruct (py_float (PStr (replace_comma (py_str x)))) as [[| |n]|e'];
    reflexivity.
Qed.

Lemma to_float_coerce x : to_float x = coerce_float x.
Proof.
  unfold to_float, coerce_float. cbn [py_float].
  destruct (float_of_string (replace_comma (py_str x))); reflexivity.
Qed.

(** The first loop of [build_graph] on one node: the connectivity is the
    stored one when it coerces to an int and the degree otherwise, the node
    holds a value that [to_int] reads as that connectivity, and no other
    attribute changes. *)
Lemma conexoes_step_spec G n data :
  let c := default (degree G n) (data !! "Conexões" ≫= coerce_int) in
  let nd := (conexoes_step G (n, data)).1 in
  (conexoes_step G (n, data)).2 = c ∧
  nd.1 = n ∧
  to_int (default (PInt 0) (nd.2 !! "Conexões")) = c ∧
  ∀ k, k ≠ "Conexões" → nd.2 !! k = data !! k.
Proof.
  unfold conexoes_step.
  destruct (data !! "Conexões") as [v|] eqn:Ev; cbn [mbind option_bind].
  - unfold coerce_int.
    destruct (py_int v) as [z|e] eqn:Ei; cbn [default from_option id fst snd].
    + rewrite Ev. cbn [default from_option id]. unfold to_int. rewrite Ei. auto.
    + destruct (py_float (PStr (replace_comma (py_str v)))) as [[| |m]|e'] eqn:Ef;
        rewrite ?bind_ok, ?bind_raise; cbn [py_int default from_option id fst snd];
        rewrite ?Ev, ?lookup_insert_eq; cbn [default from_option id];
        (split; [reflexivity|]); (split; [reflexivity|]);
        (split; [|try (intros k Hk; rewrite ?lookup_insert_ne by congruence);
                   reflexivity]);
        try reflexivity.
      unfold to_int. rewrite Ei, Ef. reflexivity.
  - cbn [default from_option id fst snd]. rewrite lookup_insert_eq.
    repeat split; try reflexivity.
    intros k Hk. rewrite lookup_insert_ne by congruence. reflexivity.
Qed.

Lemma node_entry_inv r n data out :
  node_entry r (n, data) = Ok out →
  n_id out = n ∧
  n_conex out = to_int (default (PInt 0) (data !! "Conexões")) ∧
  n_pub_tot out = to_int (default (PInt 0) (data !! "Publicações_totais")) ∧
  n_pub_coa out = to_int (default (PInt 0) (data !! "Publicações_em_coautoria")) ∧
  n_prop out = to_float (default PNone (data !! "Proporção_da_coautoria_Fiocruz")) ∧
  py_float (default (PFloat (Ffin 0)) (data !! "x")) = Ok (n_x out) ∧
  py_float (default (PFloat (Ffin 0)) (data !! "y")) = Ok (n_y out) ∧
  n_color out = default (PStr "#1f77b4") (data !! "color").
Proof.
  unfold node_entry.
  destruct (py_float (default (PFloat (Ffin 0)) (data !! "x"))) as [x|e];
    [|discriminate].
  destruct (py_float (default (PFloat (Ffin 0)) (data !! "y"))) as [y|e];
    [|discriminate].
  destruct (py_float r) as [fr|e]; [|discriminate].
  rewrite !bind_ok. intros [= <-]. cbn. repeat split; reflexivity.
Qed.

Lemma node_entry_total r n data :
  (∃ f, py_float (default (PFloat (Ffin 0)) (data !! "x")) = Ok f) →
  (∃ f, py_float (default (PFloat (Ffin 0)) (data !! "y")) = Ok f) →
  (∃ f, py_float r = Ok f) →
  ∃ out, node_entry r (n, data) = Ok out.
Proof.
  intros [x Hx] [y Hy] [fr Hr]. unfold node_entry.
  rewrite Hx, Hy, Hr, !bind_ok. eauto.
Qed.

Lemma report_inv G r rep :
  graph_to_embeddable_json G r = Ok rep →
  map_result (node_entry r) (nodes G) = Ok (graph_nodes rep) ∧
  map_result link_entry (edges G) = Ok (graph_links rep) ∧
  compute_common_neighbors_table G (labels G) = Ok (edge_table rep) ∧
  vertex_table rep = map vertex_entry (graph_nodes rep).
Proof.
  unfold graph_to_embeddable_json.
  destruct (map_result (node_entry r) (nodes G)) as [ns|e]; [|discriminate].
  destruct (map_result link_entry (edges G)) as [ls|e]; [|discriminate].
  destruct (compute_common_neighbors_table G (labels G)) as [rows|e]; [|discriminate].
  rewrite !bind_ok. intros [= <-]. cbn. auto.
Qed.

(** A stored connectivity that coerces to an int stays in the node as it
    was read. *)
Lemma conexoes_step_keeps G n data v c :
  data !! "Conexões" = Some v → coerce_int v = Some c →
  (conexoes_step G (n, data)).1 = (n, data).
Proof.
  intros Ev Hc. unfold conexoes_step, coerce_int in *. rewrite Ev.
  destruct (py_int v) as [z|e]; [reflexivity|].
  destruct (py_float (PStr (replace_comma (py_str v)))) as [[| |m]|e'];
    try discriminate. reflexivity.
Qed.

Lemma linear_color_rejects s vmin vmax palette :
  float_of_string s = None →
  linear_color (PStr s) vmin vmax palette = Raise ValueError.
Proof. intros Hs. unfold linear_color. cbn [py_float]. rewrite Hs. reflexivity. Qed.

(** [build_graph] raises whenever the layout positions a node whose stored
    connectivity is a text that the first loop reads as an int but that
    [float] does not read as it stands, such as a numeral with a decimal
    comma. *)
Lemma build_graph_raises_on_text G pos n data s c :
  NoDup (nodes G).*1 → (n, data) ∈ nodes G → n ∈ pos.*1 →
  data !! "Conexões" = Some (PStr s) →
  coerce_int (PStr s) = Some c → float_of_string s = None →
  ∃ e, build_graph G pos = Raise e.
Proof.
  intros Hnd Hin Hpos Ev Hc Hs.
  destruct (build_graph G pos) as [G'|e] eqn:Hrun; [exfalso|eauto].
  destruct (build_graph_inv G pos G' Hnd Hrun) as (_ & _ & Hlk).
  apply list_elem_of_lookup in Hin as [i Hi].
  destruct (Hlk i _ Hi) as (nd' & _ & _ & _ & Hcol & _).
  rewrite (conexoes_step_keeps G n data _ c Ev Hc) in Hcol.
  destruct (Hcol Hpos) as (color & Hlc & _). cbn [snd] in Hlc.
  rewrite Ev in Hlc. cbn [default from_option id] in Hlc.
  rewrite linear_color_rejects in Hlc by assumption. discriminate.
Qed.

End Coercions.

(** ** More on the colour mapper *)

Section ColorBounds.

Local Open Scope Z_scope.
Local Opaque Float.one Float.overflow.

Lemma index_in_bounds {A} (l : list A) i :
  0 ≤ i < Z.of_nat (length l) →
  ∃ a, index l i = Ok a ∧ l !! Z.to_nat i = Some a.
Proof.
  intros Hi. unfold index.
  destruct (Z.ltb_spec i 0); [lia|].
  destruct (Z.leb_spec 0 i); [|lia].
  destruct (Z.ltb_spec i (Z.of_nat (length l))); [|lia]. simpl.
  destruct (lookup_lt_is_Some_2 l (Z.to_nat i)) as [a Ha]; [lia|].
  rewrite Ha. eauto.
Qed.

Lemma index_elem_of {A} (l : list A) i a : index l i = Ok a → a ∈ l.
Proof.
  unfold index.
  destruct (_ && _); [|discriminate].
  destruct (l !! _) as [b|] eqn:E; [|discriminate].
  intros [= <-]. eapply list_elem_of_lookup_2, E.
Qed.

Lemma index_not_raise {A} (l : list A) i :
  0 ≤ i < Z.of_nat (length l) → index l i ≠ Raise IndexError.
Proof.
  intros Hi. destruct (index_in_bounds l i Hi) as (a & -> & _). discriminate.
Qed.

Lemma py_float_exn v e :
  py_float v = Raise e → e = TypeError ∨ e = ValueError ∨ e = OverflowError.
Proof.
  destruct v as [| | |f|s]; simpl; try discriminate.
  - intros [= <-]. auto.
  - unfold float_of_Z. destruct (of_Z z); [discriminate|]. intros [= <-]. auto.
  - destruct (float_of_string s); [discriminate|]. intros [= <-]. auto.
Qed.

Lemma float_of_Z_exn z e : float_of_Z z = Raise e → e = OverflowError.
Proof. unfold float_of_Z. destruct (of_Z z); [discriminate|]. intros [= <-]. auto. Qed.

Lemma py_round_exn x e : py_round x = Raise e → e = ValueError ∨ e = OverflowError.
Proof. destruct x; simpl; try discriminate; intros [= <-]; auto. Qed.

Lemma py_div_exn x y e : py_div x y = Raise e → e = ZeroDivisionError.
Proof.
  unfold py_div. destruct y as [| |[| |]]; try discriminate. intros [= <-]. auto.
Qed.

Lemma linear_color_cases value vmin vmax palette :
  palette ≠ [] →
  (∃ i, 0 ≤ i < Z.of_nat (length palette) ∧
        linear_color value vmin vmax palette = index palette i) ∨
  (∃ e, e ≠ IndexError ∧ linear_color value vmin vmax palette = Raise e).
Proof.
  intros Hne.
  assert (Hlen : 0 < Z.of_nat (length palette)).
  { destruct palette; [congruence|]. simpl. lia. }
  unfold linear_color.
  destruct (match value with
            | PNone => Ok true
            | _ => f ← py_float value; Ok (is_nan f)
            end) as [b|e] eqn:Em.
  2:{ right. exists e. split; [|reflexivity].
      destruct value; try discriminate;
        (destruct (py_float _) as [f|e'] eqn:Ef; [discriminate|]);
        rewrite bind_raise in Em; injection Em as <-;
        apply py_float_exn in Ef; intuition congruence. }
  clear Em. rewrite bind_ok. destruct b.
  { left. exists 0. split; [lia|reflexivity]. }
  destruct (vmax <=? vmin).
  { left. exists 0. split; [lia|reflexivity]. }
  destruct (py_float value) as [fv|e] eqn:Ef.
  2:{ right. exists e. split; [|reflexivity]. apply py_float_exn in Ef. intuition congruence. }
  rewrite bind_ok.
  destruct (float_of_Z vmin) as [lo|e] eqn:El.
  2:{ right. exists e. split; [|reflexivity]. apply float_of_Z_exn in El. congruence. }
  rewrite bind_ok.
  destruct (float_of_Z vmax) as [hi|e] eqn:Eh.
  2:{ right. exists e. split; [|reflexivity]. apply float_of_Z_exn in Eh. congruence. }
  rewrite !bind_ok.
  destruct (py_div (sub fv lo) (sub hi lo)) as [t|e] eqn:Et.
  2:{ right. exists e. split; [|reflexivity]. apply py_div_exn in Et. congruence. }
  rewrite bind_ok.
  set (len := Z.of_nat (length palette)) in *.
  destruct (float_of_Z (len - 1)) as [sc|e] eqn:Es.
  2:{ right. exists e. split; [|reflexivity]. apply float_of_Z_exn in Es. congruence. }
  rewrite bind_ok.
  destruct (py_round _) as [idx|e] eqn:Er.
  2:{ right. exists e. split; [|reflexivity]. apply py_round_exn in Er. intuition congruence. }
  rewrite bind_ok. left.
  set (i1 := if idx <? 0 then 0 else idx).
  assert (0 ≤ i1) by (unfold i1; destruct (Z.ltb_spec idx 0); lia).
  exists (if len <=? i1 then len - 1 else i1).
  split; [|reflexivity].
  destruct (Z.leb_spec len i1); lia.
Qed.

Lemma of_ratio_zero b : 0 < b → of_ratio 0 b = Ffin 0.
Proof.
  intros Hb. pose proof overflow_pos.
  assert (E : nearest 0 b = 0).
  { rewrite (nearest_ext 0 b (0 * 2 ^ 0) 1) by lia. apply nearest_exact; lia. }
  unfold of_ratio. rewrite E.
  destruct (Z.leb_spec overflow (Z.abs 0)); [lia|reflexivity].
Qed.

Lemma nearest_one : nearest one 1 = one.
Proof.
  rewrite <- (Z.mul_1_l one) at 1. apply nearest_small_int.
  split; [lia|]. apply Z.ltb_lt. reflexivity.
Qed.

Lemma one_below_overflow : one < overflow.
Proof. pose proof nine_below_overflow. pose proof one_pos. lia. Qed.

Lemma div_self d : 0 < d → div (Ffin d) (Ffin d) = Ffin one.
Proof.
  intros Hd. pose proof one_pos. pose proof one_below_overflow.
  simpl. destruct (Z.ltb_spec 0 d); [|lia]. unfold of_ratio.
  rewrite (nearest_ext (d * one) d one 1) by lia. rewrite nearest_one.
  destruct (Z.leb_spec overflow (Z.abs one)); [lia|reflexivity].
Qed.

Lemma div_zero d : 0 < d → div (Ffin 0) (Ffin d) = Ffin 0.
Proof.
  intros Hd. simpl. destruct (Z.ltb_spec 0 d); [|lia]. apply of_ratio_zero. lia.
Qed.

Lemma sub_self l : sub (Ffin l) (Ffin l) = Ffin 0.
Proof. simpl. rewrite Z.sub_diag. apply of_ratio_zero. lia. Qed.

Lemma mul_zero_nine : mul (Ffin 0) (Ffin (9 * one)) = Ffin 0.
Proof. pose proof one_pos. simpl. apply of_ratio_zero. lia. Qed.

Lemma mul_one_nine : mul (Ffin one) (Ffin (9 * one)) = Ffin (9 * one).
Proof.
  pose proof one_pos. pose proof nine_below_overflow. simpl. unfold of_ratio.
  rewrite (nearest_ext (one * (9 * one)) one (9 * one) 1) by lia.
  rewrite (nearest_small_int 9) by (split; [lia|apply Z.ltb_lt; reflexivity]).
  destruct (Z.leb_spec overflow (Z.abs (9 * one))); [lia|reflexivity].
Qed.

Lemma round_units_int z : round_units (z * one) = z.
Proof. apply round_half_even_exact, one_pos. Qed.

Lemma float_of_Z_inv z f : float_of_Z z = Ok f → of_Z z = Some f.
Proof. unfold float_of_Z. destruct (of_Z z); [|discriminate]. congruence. Qed.

(** At or below the lower bound the colour is the first palette entry, at
    or above the upper bound the last. *)
Lemma linear_color_low value f vmin vmax l :
  vmin < vmax → range_ok vmin vmax = true →
  of_Z vmin = Some (Ffin l) → py_float value = Ok f → fle f (Ffin l) →
  linear_color value vmin vmax PALETTE = Ok "#5e4fa2".
Proof.
  intros Hlt Hr Hlo Hf Hle. pose proof one_pos as Ho.
  destruct (range_ok_inv _ _ Hlt Hr) as (l' & h & d & Hl & Hh & Hd & Hd0 & Hlh).
  assert (l' = l) as -> by congruence.
  pose proof (fle_not_nan _ _ Hle) as [Hn1 Hn2].
  destruct (linear_color_in_range value f vmin vmax l h d Hf Hn1 Hlt Hl Hh Hd Hd0)
    as (t & m & c & Et & Ht & Em & Hm & Ec & Hc).
  pose proof (clamp01_mono _ _ (div_mono _ _ d Hd0 (sub_mono _ _ l Hle))) as Hmono.
  rewrite Et, sub_self, div_zero in Hmono by assumption.
  assert (t = 0) as ->.
  { unfold spec_clamp01 in Hmono. simpl in Hmono.
    destruct (Z.ltb_spec one 0); [lia|]. simpl in Hmono. lia. }
  rewrite mul_zero_nine in Em. injection Em as <-.
  rewrite Ec. f_equal. change 0 with (0 * one) in Hc.
  rewrite round_units_int in Hc. simpl in Hc. congruence.
Qed.

Lemma linear_color_high value f vmin vmax h :
  vmin < vmax → range_ok vmin vmax = true →
  of_Z vmax = Some (Ffin h) → py_float value = Ok f → fle (Ffin h) f →
  linear_color value vmin vmax PALETTE = Ok "#9e0142".
Proof.
  intros Hlt Hr Hhi Hf Hle. pose proof one_pos as Ho.
  destruct (range_ok_inv _ _ Hlt Hr) as (l & h' & d & Hl & Hh & Hd & Hd0 & Hlh).
  assert (h' = h) as -> by congruence.
  pose proof (fle_not_nan _ _ Hle) as [Hn1 Hn2].
  destruct (linear_color_in_range value f vmin vmax l h d Hf Hn2 Hlt Hl Hh Hd Hd0)
    as (t & m & c & Et & Ht & Em & Hm & Ec & Hc).
  pose proof (clamp01_mono _ _ (div_mono _ _ d Hd0 (sub_mono _ _ l Hle))) as Hmono.
  rewrite Et, Hd, div_self in Hmono by assumption.
  assert (t = one) as ->.
  { unfold spec_clamp01 in Hmono. simpl in Hmono.
    destruct (Z.ltb_spec one 0); [lia|].
    destruct (Z.ltb_spec one one); [lia|]. simpl in Hmono. lia. }
  rewrite mul_one_nine in Em. injection Em as <-.
  rewrite Ec. f_equal. rewrite round_units_int in Hc. simpl in Hc. congruence.
Qed.

(** On bounds that are degenerate or that [range_ok] accepts,
    [linear_color] returns for every value that [float] converts. *)
Lemma linear_color_total value vmin vmax :
  vmax ≤ vmin ∨ range_ok vmin vmax = true →
  float_ok value → ∃ c, linear_color value vmin vmax PALETTE = Ok c.
Proof.
  intros Hrange [f Hf].
  assert (f = Fnan ∨ f ≠ Fnan) as [->|Hnan]
    by (destruct f; [left; reflexivity|right; discriminate..]);
    [eexists; apply linear_color_nan; assumption|].
  destruct (Z_le_gt_dec vmax vmin) as [Hle|Hgt];
    [eexists; eapply linear_color_degenerate; eassumption|].
  destruct Hrange as [?|Hr]; [lia|].
  destruct (range_ok_inv vmin vmax ltac:(lia) Hr)
    as (l & h & d & Hl & Hh & Hd & Hd0 & _).
  destruct (linear_color_in_range value f vmin vmax l h d Hf Hnan ltac:(lia)
              Hl Hh Hd Hd0) as (_ & _ & c & _ & _ & _ & _ & Ec & _).
  eauto.
Qed.

(** Within bounds that [range_ok] accepts, the palette index does not
    decrease with the value. *)
Lemma linear_color_index_mono (vmin vmax : Z) (a b : pyval) (ua ub : Z) :
  vmin < vmax → range_ok vmin vmax = true →
  number_units a = Some ua → number_units b = Some ub →
  vmin * one ≤ ua → ua ≤ ub → ub ≤ vmax * one →
  ∃ (ia ib : nat) (ca cb : string),
    linear_color a vmin vmax PALETTE = Ok ca ∧
    linear_color b vmin vmax PALETTE = Ok cb ∧
    PALETTE !! ia = Some ca ∧ PALETTE !! ib = Some cb ∧ (ia ≤ ib)%nat.
Proof.
  intros Hlt Hr Ha Hb Hlo Hab Hhi.
  destruct (range_ok_inv _ _ Hlt Hr) as (l & h & d & Hl & Hh & Hd & Hd0 & Hlh).
  pose proof (number_float a ua vmin vmax l h Ha ltac:(lia) Hl Hh) as Hfa.
  pose proof (number_float b ub vmin vmax l h Hb ltac:(lia) Hl Hh) as Hfb.
  destruct (linear_color_in_range a _ vmin vmax l h d Hfa ltac:(discriminate)
              Hlt Hl Hh Hd Hd0) as (ta & ma & ca & Eta & _ & Ema & Hma & Eca & Hca).
  destruct (linear_color_in_range b _ vmin vmax l h d Hfb ltac:(discriminate)
              Hlt Hl Hh Hd Hd0) as (tb & mb & cb & Etb & _ & Emb & Hmb & Ecb & Hcb).
  exists (Z.to_nat (round_units ma)), (Z.to_nat (round_units mb)), ca, cb.
  repeat split; try assumption.
  assert (Hf : fle (Ffin (nearest ua 1)) (Ffin (nearest ub 1)))
    by (simpl; apply nearest_mono; lia).
  pose proof (clamp01_mono _ _ (div_mono _ _ d Hd0 (sub_mono _ _ l Hf))) as Ht.
  rewrite Eta, Etb in Ht. simpl in Ht.
  pose proof (scale9_mono _ _ Ht) as Hm. rewrite Ema, Emb in Hm. simpl in Hm.
  pose proof (round_units_mono _ _ Hm).
  pose proof (round_units_range _ Hma). lia.
Qed.

End ColorBounds.

(** ** More on [build_graph] *)

Section BuildGraphMore.

Local Open Scope Z_scope.
Local Open Scope list_scope.
Local Opaque Float.one Float.overflow.

Implicit Types ns : list (string * gmap string pyval).

Lemma linear_color_elem value vmin vmax c :
  linear_color value vmin vmax PALETTE = Ok c → c ∈ PALETTE.
Proof.
  destruct (linear_color_cases value vmin vmax PALETTE ltac:(discriminate))
    as [(i & Hi & ->)|(e & He & ->)]; [apply index_elem_of|discriminate].
Qed.

Lemma fold_min_spec l x :
  let m := fold_left Z.min l x in
  m ≤ x ∧ (∀ y, y ∈ l → m ≤ y) ∧ (m = x ∨ m ∈ l).
Proof.
  revert x. induction l as [|a l IH]; intros x; simpl.
  - split; [lia|]. split; [|auto]. intros y Hy. apply elem_of_nil in Hy. destruct Hy.
  - destruct (IH (Z.min x a)) as (H1 & H2 & H3).
    split; [lia|]. split.
    + intros y Hy. apply elem_of_cons in Hy as [->|Hy]; [lia|auto].
    + destruct H3 as [H3|H3]; [|right; right; assumption].
      destruct (Z.min_spec x a) as [[_ E]|[_ E]]; rewrite E in *;
        [left; assumption|right; rewrite H3; left].
Qed.

Lemma fold_max_spec l x :
  let m := fold_left Z.max l x in
  x ≤ m ∧ (∀ y, y ∈ l → y ≤ m) ∧ (m = x ∨ m ∈ l).
Proof.
  revert x. induction l as [|a l IH]; intros x; simpl.
  - split; [lia|]. split; [|auto]. intros y Hy. apply elem_of_nil in Hy. destruct Hy.
  - destruct (IH (Z.max x a)) as (H1 & H2 & H3).
    split; [lia|]. split.
    + intros y Hy. apply elem_of_cons in Hy as [->|Hy]; [lia|auto].
    + destruct H3 as [H3|H3]; [|right; right; assumption].
      destruct (Z.max_spec x a) as [[_ E]|[_ E]]; rewrite E in *;
        [right; rewrite H3; left|left; assumption].
Qed.

(** [min] and [max] of a list that is not empty: an element, and a bound. *)
Lemma min_or_spec d l :
  l ≠ [] → min_or d l ∈ l ∧ ∀ y, y ∈ l → min_or d l ≤ y.
Proof.
  destruct l as [|x l]; [congruence|]. intros _. simpl.
  destruct (fold_min_spec l x) as (H1 & H2 & H3). split.
  - destruct H3 as [->|H3]; [left|right; assumption].
  - intros y Hy. apply elem_of_cons in Hy as [->|Hy]; [assumption|auto].
Qed.

Lemma max_or_spec d l :
  l ≠ [] → max_or d l ∈ l ∧ ∀ y, y ∈ l → y ≤ max_or d l.
Proof.
  destruct l as [|x l]; [congruence|]. intros _. simpl.
  destruct (fold_max_spec l x) as (H1 & H2 & H3). split.
  - destruct H3 as [->|H3]; [left|right; assumption].
  - intros y Hy. apply elem_of_cons in Hy as [->|Hy]; [assumption|auto].
Qed.

Lemma node_data_total ns n : n ∈ ns.*1 → ∃ d, node_data ns n = Ok d.
Proof.
  intros Hin. unfold node_data.
  destruct (list_find (λ nd, nd.1 = n) ns) as [[j [m d]]|] eqn:E; [eauto|].
  apply list_find_None in E. rewrite Forall_forall in E.
  apply list_elem_of_fmap in Hin as (nd & -> & Hnd).
  destruct (E nd Hnd). reflexivity.
Qed.

Lemma nodup_same_index ns i j n d d' :
  NoDup ns.*1 → ns !! i = Some (n, d) → ns !! j = Some (n, d') → i = j.
Proof.
  intros Hnd Hi Hj. eapply NoDup_lookup; [exact Hnd| |];
    rewrite list_lookup_fmap; [rewrite Hi|rewrite Hj]; reflexivity.
Qed.

(** The node after the first loop. *)
Lemma conexoes_step_stored G n d :
  (conexoes_step G (n, d)).1.1 = n ∧
  (conexoes_step G (n, d)).1.2 !! "Conexões" = Some (stored_connectivity G n d) ∧
  (∀ k, k ≠ "Conexões" → (conexoes_step G (n, d)).1.2 !! k = d !! k) ∧
  coerce_int (stored_connectivity G n d) = Some (connectivity G (n, d)).
Proof.
  destruct (conexoes_step_spec G n d) as (Hc & Hid & _ & Hk).
  split; [assumption|]. split; [|split; [assumption|]].
  - unfold stored_connectivity.
    destruct (d !! "Conexões") as [v|] eqn:Ev.
    + destruct (coerce_int v) as [c|] eqn:Ec.
      * rewrite (conexoes_step_keeps G n d v c Ev Ec). exact Ev.
      * unfold conexoes_step, coerce_int in *. rewrite Ev.
        destruct (py_int v) as [z|e]; [discriminate|].
        destruct (py_float (PStr (replace_comma (py_str v)))) as [[| |m]|e'];
          try discriminate; rewrite ?bind_ok, ?bind_raise; cbn [py_int fst snd];
          apply lookup_insert_eq.
    + unfold conexoes_step. rewrite Ev. cbn [fst snd]. apply lookup_insert_eq.
  - unfold connectivity. rewrite Hc. unfold stored_connectivity.
    destruct (d !! "Conexões") as [v|] eqn:Ev; cbn [mbind option_bind].
    + destruct (coerce_int v) as [c|] eqn:Ec; cbn [default from_option id];
        [assumption|reflexivity].
    + reflexivity.
Qed.

(** The second loop, for the nodes it visits: the coordinates of the layout
    and a palette colour. *)
Lemma color_steps_xy vmin vmax pos ns ns' :
  NoDup pos.*1 →
  for_each (color_step vmin vmax) pos ns = Ok ns' →
  ∀ n x y i d', (n, (x, y)) ∈ pos → ns' !! i = Some (n, d') →
    d' !! "x" = Some (PFloat x) ∧ d' !! "y" = Some (PFloat y) ∧
    ∃ c, d' !! "color" = Some (PStr c) ∧ c ∈ PALETTE.
Proof.
  intros Hnd Hrun. revert Hnd.
  apply (for_each_invariant (color_step vmin vmax)
           (λ done s, NoDup done.*1 →
              ∀ n x y i d', (n, (x, y)) ∈ done → s !! i = Some (n, d') →
                d' !! "x" = Some (PFloat x) ∧ d' !! "y" = Some (PFloat y) ∧
                ∃ c, d' !! "color" = Some (PStr c) ∧ c ∈ PALETTE)
           pos ns ns'); [| |exact Hrun].
  - intros _ n x y i d' Hin. apply elem_of_nil in Hin. destruct Hin.
  - intros done [m [xm ym]] s1 s2 IH Hstep Hnd n x y i d' Hin Hi.
    rewrite fmap_app in Hnd. apply NoDup_app in Hnd as (Hnd & Hfresh & _).
    apply color_step_inv in Hstep as (data & color & Hdata & Hcolor & ->).
    rewrite set_node_data_lookup in Hi.
    destruct (s1 !! i) as [[k dk]|] eqn:Ei; [|discriminate].
    simpl in Hi. apply elem_of_app in Hin as [Hin|Hin].
    + assert (n ≠ m).
      { intros ->. eapply Hfresh; [|left].
        apply list_elem_of_fmap. exists (m, (x, y)). split; [reflexivity|assumption]. }
      destruct (decide (k = m)) as [->|Hne]; [congruence|].
      injection Hi as -> ->. eapply IH; eassumption.
    + apply list_elem_of_singleton in Hin. injection Hin as -> -> ->.
      destruct (decide (k = m)) as [->|Hne]; [|congruence].
      injection Hi as <-.
      rewrite !lookup_insert_ne by done. rewrite lookup_insert_eq.
      rewrite lookup_insert_ne by done. rewrite !lookup_insert_eq.
      repeat split. exists color. split; [reflexivity|].
      eapply linear_color_elem, Hcolor.
Qed.

Lemma build_graph_run G pos G' :
  build_graph G pos = Ok G' →
  let stepped := map (conexoes_step G) (nodes G) in
  for_each (color_step (min_or 0 (map snd stepped)) (max_or 1 (map snd stepped)))
    pos (map fst stepped) = Ok (nodes G').
Proof.
  unfold build_graph.
  destruct (for_each _ pos _) as [ns|e] eqn:Erun; [|discriminate].
  rewrite bind_ok. intros [= <-]. reflexivity.
Qed.

(** The connectivity values span a range that [linear_color] accepts when
    each is of magnitude at most [2^53]. *)
Lemma values_range G :
  (∀ nd, nd ∈ nodes G → Z.abs (connectivity G nd) ≤ 2 ^ 53) →
  let values := map snd (map (conexoes_step G) (nodes G)) in
  (max_or 1 values ≤ min_or 0 values
   ∨ range_ok (min_or 0 values) (max_or 1 values) = true) ∧
  (nodes G ≠ [] →
   min_or 0 values ∈ values ∧ max_or 1 values ∈ values) ∧
  ∀ nd, nd ∈ nodes G →
    min_or 0 values ≤ connectivity G nd ≤ max_or 1 values.
Proof.
  intros Hb values.
  assert (Hval : ∀ c, c ∈ values ↔ ∃ nd, nd ∈ nodes G ∧ c = connectivity G nd).
  { intros c. unfold values. rewrite map_map. split.
    - intros Hc. apply list_elem_of_fmap in Hc as (nd & -> & Hnd). eauto.
    - intros (nd & Hnd & ->). apply list_elem_of_fmap. eauto. }
  destruct (nodes G) as [|nd0 ns] eqn:En.
  - assert (values = []) as -> by (unfold values; try rewrite En; reflexivity).
    simpl. split; [|split].
    + right. apply range_ok_int53; [lia|..]; apply Z.leb_le; reflexivity.
    + congruence.
    + intros nd Hnd. apply elem_of_nil in Hnd. destruct Hnd.
  - assert (Hne : values ≠ []) by (unfold values; try rewrite En; discriminate).
    destruct (min_or_spec 0 values Hne) as [Hmin Hminle].
    destruct (max_or_spec 1 values Hne) as [Hmax Hmaxle].
    split; [|split].
    + destruct (Z_le_gt_dec (max_or 1 values) (min_or 0 values)); [left; assumption|].
      right. apply range_ok_int53; [lia|..].
      * apply Hval in Hmin as (nd & Hnd & ->). auto.
      * apply Hval in Hmax as (nd & Hnd & ->). auto.
    + auto.
    + intros nd Hnd. split; [apply Hminle|apply Hmaxle]; apply Hval; eauto.
Qed.

(** A stored connectivity converts to a float unless it is a rejected
    text. *)
Lemma float_ok_stored v c :
  coerce_int v = Some c → Z.abs c ≤ 2 ^ 53 → ¬ text_rejected v → float_ok v.
Proof.
  intros Hc Hb Hrej. destruct v as [|b|z|f|s].
  - vm_compute in Hc. discriminate.
  - eexists. reflexivity.
  - injection Hc as ->. exists (Ffin (c * one)). simpl. unfold float_of_Z.
    rewrite of_Z_int53 by assumption. reflexivity.
  - eexists. reflexivity.
  - destruct (float_of_string s) as [f|] eqn:Ef.
    + exists f. simpl. rewrite Ef. reflexivity.
    + destruct Hrej. exists s. split; [reflexivity|]. split; congruence.
Qed.

Lemma stored_not_rejected G n d :
  (∀ v, d !! "Conexões" = Some v → ¬ text_rejected v) →
  ¬ text_rejected (stored_connectivity G n d).
Proof.
  intros Hv. unfold stored_connectivity.
  destruct (d !! "Conexões") as [v|]; [destruct (coerce_int v)|]; auto;
    intros (s & Hs & _); discriminate.
Qed.

(** The stored connectivity of a node whose attribute is absent or an int. *)
Lemma stored_int G n d :
  int_or_absent (d !! "Conexões") →
  stored_connectivity G n d = PInt (connectivity G (n, d)).
Proof.
  intros Hd. destruct (conexoes_step_stored G n d) as (_ & _ & _ & Hc).
  assert (∃ z, stored_connectivity G n d = PInt z) as [z Hz].
  { unfold stored_connectivity. destruct Hd as [->|[z ->]]; eauto. }
  rewrite Hz in *. injection Hc as ->. reflexivity.
Qed.

(** The colour of a node that the layout positions. *)
Lemma node_color G pos G' n d d' :
  NoDup (nodes G).*1 → build_graph G pos = Ok G' →
  (n, d) ∈ nodes G → (n, d') ∈ nodes G' → n ∈ pos.*1 →
  let values := map snd (map (conexoes_step G) (nodes G)) in
  ∃ c, linear_color (stored_connectivity G n d) (min_or 0 values) (max_or 1 values)
         PALETTE = Ok c ∧
       d' !! "color" = Some (PStr c).
Proof.
  intros Hnd Hrun Hin Hin' Hpos values.
  destruct (build_graph_inv G pos G' Hnd Hrun) as (_ & Hids & Hlk).
  apply list_elem_of_lookup in Hin as [i Hi].
  apply list_elem_of_lookup in Hin' as [j Hj].
  destruct (Hlk i _ Hi) as ([n' d''] & Hi' & Hid & _ & Hcol & _).
  destruct (conexoes_step_stored G n d) as (Hsid & Hst & _ & _).
  rewrite Hsid in Hid, Hcol. cbn [fst snd] in Hid, Hcol. subst n'.
  assert (j = i) as ->.
  { eapply (nodup_same_index (nodes G')); [rewrite Hids; exact Hnd|eassumption..]. }
  assert (d'' = d') as -> by congruence.
  destruct (Hcol Hpos) as (c & Hc & Hd'). rewrite Hst in Hc. eauto.
Qed.

(** [build_graph] keeps every node. *)
Lemma node_after_build_graph G pos G' n d :
  NoDup (nodes G).*1 → build_graph G pos = Ok G' → (n, d) ∈ nodes G →
  ∃ d', (n, d') ∈ nodes G'.
Proof.
  intros Hnd Hrun Hin.
  destruct (build_graph_inv G pos G' Hnd Hrun) as (_ & _ & Hlk).
  apply list_elem_of_lookup in Hin as [i Hi].
  destruct (Hlk i _ Hi) as ([n' d'] & Hi' & Hid & _).
  rewrite conexoes_step_id in Hid. cbn [fst] in Hid. subst n'.
  exists d'. eapply list_elem_of_lookup_2, Hi'.
Qed.

Lemma color_step_total vmin vmax ns n x y data :
  node_data ns n = Ok data →
  (∃ c, linear_color (default (PInt 0) (data !! "Conexões")) vmin vmax PALETTE
          = Ok c) →
  ∃ c, color_step vmin vmax ns (n, (x, y))
       = Ok (set_node_data ns n
               (<["color" := PStr c]>
                  (<["y" := PFloat y]> (<["x" := PFloat x]> data)))).
Proof.
  intros Hd [c Hc]. exists c. unfold color_step. rewrite Hd, bind_ok.
  rewrite !lookup_insert_ne by done. rewrite Hc. reflexivity.
Qed.

(** [build_graph] returns when the layout positions nodes of the graph only,
    the connectivities are of magnitude at most [2^53], and no positioned
    node stores a rejected text. *)
Lemma build_graph_total G pos :
  NoDup (nodes G).*1 →
  (∀ n, n ∈ pos.*1 → n ∈ (nodes G).*1) →
  (∀ nd, nd ∈ nodes G → Z.abs (connectivity G nd) ≤ 2 ^ 53) →
  (∀ n d v, (n, d) ∈ nodes G → n ∈ pos.*1 → d !! "Conexões" = Some v →
     ¬ text_rejected v) →
  ∃ G', build_graph G pos = Ok G'.
Proof.
  intros Hnd Hsub Hb Htext. unfold build_graph.
  destruct (values_range G Hb) as (Hrange & _ & _).
  set (stepped := map (conexoes_step G) (nodes G)) in *.
  set (vmin := min_or 0 (map snd stepped)) in *.
  set (vmax := max_or 1 (map snd stepped)) in *.
  destruct (for_each_total (color_step vmin vmax)
              (λ ns, ns.*1 = (nodes G).*1 ∧
                 ∀ i n d, nodes G !! i = Some (n, d) →
                   ∃ d', ns !! i = Some (n, d') ∧
                     d' !! "Conexões" = Some (stored_connectivity G n d))
              pos (map fst stepped)) as (ns & -> & _); [| |rewrite bind_ok; eauto].
  - split; [apply stepped_ids|]. intros i n d Hi.
    destruct (conexoes_step_stored G n d) as (Hsid & Hst & _ & _).
    exists (conexoes_step G (n, d)).1.2. split; [|assumption].
    unfold stepped. rewrite !list_lookup_fmap, Hi. cbn [fmap option_fmap option_map].
    f_equal. destruct (conexoes_step G (n, d)).1 as [a b1].
    cbn [fst snd] in *. congruence.
  - intros ns [n [x y]] [Hids Hlk] Hin.
    assert (Hn : n ∈ pos.*1).
    { apply list_elem_of_fmap. exists (n, (x, y)). split; [reflexivity|assumption]. }
    pose proof (Hsub n Hn) as Hn'.
    apply list_elem_of_fmap in Hn' as ([n0 d] & Hn0 & Hnd0). simpl in Hn0. subst n0.
    apply list_elem_of_lookup in Hnd0 as Hi. destruct Hi as [i Hi].
    destruct (Hlk i n d Hi) as (d' & Hi' & Hst).
    assert (Hdata : node_data ns n = Ok d').
    { eapply node_data_lookup; [rewrite Hids; exact Hnd|exact Hi']. }
    destruct (color_step_total vmin vmax ns n x y d' Hdata) as [c Hc].
    { rewrite Hst. cbn [default from_option id].
      apply linear_color_total; [exact Hrange|].
      destruct (conexoes_step_stored G n d) as (_ & _ & _ & Hco).
      eapply float_ok_stored; [exact Hco|apply Hb; assumption|].
      apply stored_not_rejected. intros v Hv. eapply Htext; eassumption. }
    eexists. split; [exact Hc|]. split; [rewrite set_node_data_ids; assumption|].
    intros j m dm Hj. destruct (Hlk j m dm Hj) as (dm' & Hj' & Hstm).
    rewrite set_node_data_lookup, Hj'. simpl.
    destruct (decide (m = n)) as [->|Hne].
    + assert (j = i) as -> by (eapply (nodup_same_index (nodes G)); eassumption).
      assert (dm = d) as -> by congruence.
      eexists. split; [reflexivity|].
      rewrite !lookup_insert_ne by done. congruence.
    + eauto.
Qed.

End BuildGraphMore.

(** ** More on the report *)

Section ReportMore.

Local Open Scope Z_scope.
Local Open Scope list_scope.
Local Opaque Float.one Float.overflow.

Lemma map_result_map {A B} (f : A → result B) (g : A → B) l :
  (∀ a, a ∈ l → f a = Ok (g a)) → map_result f l = Ok (map g l).
Proof.
  induction l as [|a l IH]; intros Hall; simpl; [reflexivity|].
  rewrite Hall by left. rewrite bind_ok, IH, bind_ok; [reflexivity|].
  intros b Hb. apply Hall. right. assumption.
Qed.

(** The weight that [float(d.get("weight", 1) or 1)] reads from an edge
    that [build_graph] has normalized. *)
Lemma weight_after_step d :
  py_float (py_or (default (PInt 1)
                     ((<["weight" := PFloat (normalized_weight d)]> d) !! "weight"))
                  (PInt 1))
  = Ok (table_weight d).
Proof.
  rewrite lookup_insert_eq. cbn [default from_option id].
  unfold table_weight, py_or.
  destruct (normalized_weight d) as [|s|[|p|p]]; cbn [truthy py_float];
    [reflexivity|reflexivity|apply float_of_Z_one|reflexivity..].
Qed.

Lemma link_entry_weight_step u v d :
  link_entry (weight_step (u, v, d))
  = Ok {| l_source := u; l_target := v; l_weight := table_weight d;
          l_color := default (PStr "#aaa") (d !! "color") |}.
Proof.
  rewrite weight_step_eq. unfold link_entry.
  rewrite weight_after_step, bind_ok.
  rewrite lookup_insert_ne by done. reflexivity.
Qed.

(** The links of the report, from the edges of the graph as loaded. *)
Lemma links_after_build_graph es :
  map_result link_entry (map weight_step es)
  = Ok (map (λ e, {| l_source := e.1.1; l_target := e.1.2;
                     l_weight := table_weight e.2;
                     l_color := default (PStr "#aaa") (e.2 !! "color") |}) es).
Proof.
  induction es as [|[[u v] d] es IH]; [reflexivity|].
  cbn [map map_result]. rewrite link_entry_weight_step, bind_ok, IH. reflexivity.
Qed.

(** After [build_graph] the edge table is always built. *)
Lemma table_after_build_graph G pos G' lbl :
  build_graph G pos = Ok G' →
  ∃ rows, compute_common_neighbors_table G' lbl = Ok rows.
Proof.
  intros Hrun. apply build_graph_edges in Hrun as Hedges.
  assert (Hall : ∀ e, e ∈ first_of_key ∅ (edges G') →
                      ∃ r, row_of G' lbl e = Ok r).
  { intros e He. rewrite Hedges, first_of_key_weight_step in He.
    apply list_elem_of_fmap in He as ([[u v] d] & -> & _).
    destruct (row_of_weight_step G' lbl u v d) as (r & Hr & _). eauto. }
  apply map_result_total in Hall as [rs Hrs].
  exists (sort_rows rs).
  unfold compute_common_neighbors_table. rewrite edge_rows_eq, Hrs. reflexivity.
Qed.

Lemma edge_keys_weight_step G G' :
  edges G' = map weight_step (edges G) → edge_keys G' = edge_keys G.
Proof.
  intros H. unfold edge_keys. rewrite H, map_map. f_equal.
  apply map_ext. intros [[u v] d]. reflexivity.
Qed.

(** The entry of a node that holds float coordinates. *)
Lemma node_entry_positioned r n d x y :
  d !! "x" = Some (PFloat x) → d !! "y" = Some (PFloat y) →
  node_entry (PFloat r) (n, d)
  = Ok {| n_id := n;
          n_label := py_str (default (PStr n) (d !! "label"));
          n_x := x; n_y := y; n_r := r;
          n_color := default (PStr "#1f77b4") (d !! "color");
          n_pub_tot := to_int (default (PInt 0) (d !! "Publicações_totais"));
          n_pub_coa := to_int (default (PInt 0) (d !! "Publicações_em_coautoria"));
          n_conex := to_int (default (PInt 0) (d !! "Conexões"));
          n_prop := to_float (default PNone (d !! "Proporção_da_coautoria_Fiocruz")) |}.
Proof. intros Hx Hy. unfold node_entry. rewrite Hx, Hy. reflexivity. Qed.

End ReportMore.

(** ** More on the edge table *)

Section EdgeTableMore.

Local Open Scope Z_scope.
Local Open Scope list_scope.
Local Arguments edge_key : simpl never.

Lemma sorted2_comm u v : sorted2 u v = sorted2 v u.
Proof.
  unfold sorted2, String.ltb.
  rewrite (String.compare_antisym u v).
  destruct (String.compare v u) eqn:E; simpl; try reflexivity.
  apply String.compare_eq_iff in E. subst. reflexivity.
Qed.

Lemma string_leb_antisym s1 s2 :
  String.leb s1 s2 = true → String.leb s2 s1 = true → s1 = s2.
Proof.
  unfold String.leb. rewrite (String.compare_antisym s2 s1).
  destruct (String.compare s1 s2) eqn:E; simpl; try discriminate.
  intros _ _. apply String.compare_eq_iff in E. congruence.
Qed.

(** The order of the table is antisymmetric. *)
Lemma row_order_antisym r1 r2 : row_order r1 r2 → row_order r2 r1 → r1 = r2.
Proof.
  unfold row_order. intros [H1|(Hw1 & H1)] [H2|(Hw2 & H2)].
  - apply ltb_asym in H1. congruence.
  - rewrite Hw2, ltb_irrefl in H1. discriminate.
  - rewrite Hw1, ltb_irrefl in H2. discriminate.
  - destruct H1 as [H1|[Hc1 Ha1]], H2 as [H2|[Hc2 Ha2]]; try lia.
    pose proof (string_leb_antisym _ _ Ha1 Ha2).
    destruct r1, r2; simpl in *; congruence.
Qed.

(** A list has one sorted arrangement. *)
Lemma sorted_perm_eq (l1 l2 : list row) :
  StronglySorted row_order l1 → StronglySorted row_order l2 →
  Permutation l1 l2 → l1 = l2.
Proof.
  revert l2. induction l1 as [|a l1 IH]; intros l2 H1 H2 Hp.
  - apply Permutation_nil in Hp. congruence.
  - destruct l2 as [|b l2]; [apply Permutation_sym, Permutation_nil in Hp; discriminate|].
    apply StronglySorted_inv in H1 as [H1 Ha]. apply StronglySorted_inv in H2 as [H2 Hb].
    rewrite Forall_forall in Ha, Hb.
    assert (a = b) as ->.
    { assert (Hab : a ∈ b :: l2) by (rewrite <- Hp; left).
      assert (Hba : b ∈ a :: l1) by (rewrite Hp; left).
      apply elem_of_cons in Hab as [?|Hab]; [assumption|].
      apply elem_of_cons in Hba as [?|Hba]; [congruence|].
      apply row_order_antisym; [apply Ha|apply Hb]; assumption. }
    f_equal. apply IH; try assumption. eapply Permutation_cons_inv, Hp.
Qed.

Lemma sort_rows_perm_eq l1 l2 :
  Permutation l1 l2 → Forall (λ r, colabs r ≠ Fnan) l1 →
  sort_rows l1 = sort_rows l2.
Proof.
  intros Hp Hn. apply sorted_perm_eq.
  - apply sort_rows_sorted. assumption.
  - apply sort_rows_sorted. rewrite <- Hp. assumption.
  - rewrite !sort_rows_perm. assumption.
Qed.

Lemma map_result_perm {A B} (f : A → result B) l1 l2 rs1 :
  Permutation l1 l2 → map_result f l1 = Ok rs1 →
  ∃ rs2, map_result f l2 = Ok rs2 ∧ Permutation rs1 rs2.
Proof.
  intros Hp. revert rs1. induction Hp as [|a l1 l2 Hp IH|a b l|l1 l2 l3 H12 IH12 H23 IH23];
    intros rs1; simpl.
  - intros [= <-]. eauto.
  - destruct (f a) as [x|e]; [|discriminate]. rewrite bind_ok.
    destruct (map_result f l1) as [xs|e]; [|discriminate]. rewrite bind_ok.
    intros [= <-]. destruct (IH xs eq_refl) as (ys & -> & Hys).
    rewrite bind_ok. eauto.
  - destruct (f b) as [y|e]; [|discriminate]. rewrite bind_ok.
    destruct (f a) as [x|e]; [|discriminate]. rewrite bind_ok.
    destruct (map_result f l) as [xs|e]; [|discriminate]. rewrite !bind_ok.
    intros [= <-]. eexists. split; [reflexivity|]. apply perm_swap.
  - intros H1. destruct (IH12 _ H1) as (rs2 & H2 & Hp2).
    destruct (IH23 _ H2) as (rs3 & H3 & Hp3).
    exists rs3. split; [assumption|]. etransitivity; eassumption.
Qed.

(** The neighbour sets depend on the edges as a set of unordered pairs. *)
Lemma neigh_ext G1 G2 :
  nodes G1 = nodes G2 →
  (∀ u w, adjacent G1 u w ↔ adjacent G2 u w) →
  neigh G1 = neigh G2.
Proof.
  intros Hn Hadj. unfold neigh. rewrite Hn. f_equal.
  apply map_ext. intros nd. f_equal.
  apply set_eq. intros w. rewrite !elem_of_neighbors. apply Hadj.
Qed.

Lemma adjacent_perm G1 G2 :
  edges G1 ≡ₚ edges G2 → ∀ u w, adjacent G1 u w ↔ adjacent G2 u w.
Proof.
  intros Hp u w. unfold adjacent. setoid_rewrite Hp. reflexivity.
Qed.

Lemma adjacent_flipped G1 G2 :
  Forall2 flipped (edges G1) (edges G2) →
  ∀ u w, adjacent G1 u w ↔ adjacent G2 u w.
Proof.
  intros Hf u w. unfold adjacent. split; intros [d Hd]; exists d.
  - assert (Hone : ∀ e, e ∈ edges G1 →
              e ∈ edges G2 ∨ (e.1.2, e.1.1, e.2) ∈ edges G2).
    { intros e He. apply list_elem_of_lookup in He as [i Hi].
      destruct (Forall2_lookup_l _ _ _ _ _ Hf Hi) as (e2 & Hi2 & [->| ->]);
        [left|right]; eapply list_elem_of_lookup_2, Hi2. }
    destruct Hd as [Hd|Hd]; apply Hone in Hd; simpl in Hd; tauto.
  - assert (Hone : ∀ e, e ∈ edges G2 →
              e ∈ edges G1 ∨ (e.1.2, e.1.1, e.2) ∈ edges G1).
    { intros e He. apply list_elem_of_lookup in He as [i Hi].
      destruct (Forall2_lookup_r _ _ _ _ _ Hf Hi) as ([[a b] c] & Hi1 & [->| ->]);
        [left|right]; eapply list_elem_of_lookup_2, Hi1. }
    destruct Hd as [Hd|Hd]; apply Hone in Hd; simpl in Hd; tauto.
Qed.

Lemma edge_step_ext G1 G2 lbl st u v d :
  neigh G1 = neigh G2 →
  edge_step G1 lbl st (u, v, d) = edge_step G2 lbl st (u, v, d).
Proof. intros Hn. unfold edge_step. rewrite Hn. reflexivity. Qed.

Lemma edge_step_flip G lbl st u v d :
  edge_step G lbl st (v, u, d) = edge_step G lbl st (u, v, d).
Proof. unfold edge_step. rewrite (sorted2_comm v u). reflexivity. Qed.

Lemma row_of_ext G1 G2 lbl e :
  neigh G1 = neigh G2 → row_of G1 lbl e = row_of G2 lbl e.
Proof. intros Hn. unfold row_of. rewrite Hn. reflexivity. Qed.

Lemma map_result_ext {A B} (f g : A → result B) l :
  (∀ a, f a = g a) → map_result f l = map_result g l.
Proof.
  intros H. induction l as [|a l IH]; simpl; [reflexivity|]. rewrite H, IH. reflexivity.
Qed.

Lemma first_of_key_le seen es :
  (length (first_of_key seen es) ≤ length es)%nat.
Proof.
  revert seen. induction es as [|[[u v] d] es IH]; intros seen; simpl; [lia|].
  destruct (decide (edge_key u v ∈ seen)); simpl.
  - specialize (IH seen). lia.
  - specialize (IH (seen ∪ {[edge_key u v]})). lia.
Qed.

Lemma table_length_le G lbl rows :
  compute_common_neighbors_table G lbl = Ok rows →
  (length rows ≤ length (edges G))%nat.
Proof.
  intros Hrows. apply table_inv in Hrows as (rs & Hrs & ->).
  rewrite edge_rows_eq in Hrs. apply map_result_length in Hrs.
  rewrite (Permutation_length (sort_rows_perm rs)), Hrs.
  apply first_of_key_le.
Qed.

(** [id_to_label] maps each node to its label. *)
Lemma labels_fold (l : list (string * gmap string pyval)) (m : gmap string string) n :
  NoDup l.*1 →
  fold_left (λ m nd, <[nd.1 := py_str (default (PStr nd.1) (nd.2 !! "label"))]> m) l m
    !! n
  = match list_find (λ nd, nd.1 = n) l with
    | Some (_, (_, d)) => Some (label_of n d)
    | None => m !! n
    end.
Proof.
  revert m. induction l as [|[k d] l IH]; intros m Hnd; [reflexivity|].
  rewrite fmap_cons in Hnd. apply NoDup_cons in Hnd as [Hk Hnd].
  cbn [fold_left]. rewrite IH by assumption. cbn [list_find fst snd].
  destruct (decide (k = n)) as [->|Hne].
  - destruct (list_find (λ nd, nd.1 = n) l) as [[j [n' d']]|] eqn:E.
    + apply list_find_Some in E as (Hj & Hn' & _). simpl in Hn'. subst n'.
      destruct Hk. apply list_elem_of_fmap. exists (n, d').
      split; [reflexivity|]. eapply list_elem_of_lookup_2, Hj.
    + simpl. rewrite lookup_insert_eq. reflexivity.
  - destruct (list_find (λ nd, nd.1 = n) l) as [[j [n' d']]|]; simpl; [reflexivity|].
    apply lookup_insert_ne. assumption.
Qed.

Lemma labels_lookup G n d :
  NoDup (nodes G).*1 → (n, d) ∈ nodes G → labels G !! n = Some (label_of n d).
Proof.
  intros Hnd Hin. unfold labels. rewrite labels_fold by assumption.
  apply list_elem_of_lookup in Hin as [i Hi].
  pose proof (node_data_lookup _ _ _ _ Hnd Hi) as Hd. unfold node_data in Hd.
  destruct (list_find (λ nd, nd.1 = n) (nodes G)) as [[j [n' d']]|]; [|discriminate].
  congruence.
Qed.

(** Every edge has its key in common with an edge that the loop builds a
    row from. *)
Lemma first_of_key_covers seen es e :
  e ∈ es → edge_key e.1.1 e.1.2 ∉ seen →
  ∃ e0, e0 ∈ first_of_key seen es ∧ edge_key e0.1.1 e0.1.2 = edge_key e.1.1 e.1.2.
Proof.
  revert seen. induction es as [|[[u v] d] es IH]; intros seen Hin Hseen.
  - apply elem_of_nil in Hin as [].
  - cbn [first_of_key]. destruct (decide (edge_key u v ∈ seen)) as [Hs|Hs].
    + apply elem_of_cons in Hin as [->|Hin]; [destruct (Hseen Hs)|].
      apply IH; assumption.
    + destruct (decide (edge_key e.1.1 e.1.2 = edge_key u v)) as [Hk|Hk].
      * exists (u, v, d). split; [left|symmetry; exact Hk].
      * apply elem_of_cons in Hin as [->|Hin]; [destruct Hk; reflexivity|].
        destruct (IH (seen ∪ {[edge_key u v]}) Hin) as (e0 & He0 & Hkey).
        { rewrite elem_of_union, elem_of_singleton. tauto. }
        exists e0. split; [right|]; assumption.
Qed.

End EdgeTableMore.

(** ** The path of the report *)

Section Paths.

Local Open Scope Z_scope.
Local Open Scope list_scope.

Lemma rfind_from_spec c l i acc :
  let r := rfind_from c l i acc in
  (r = acc ∧ c ∉ l) ∨
  (i ≤ r < i + Z.of_nat (length l) ∧ l !! Z.to_nat (r - i) = Some c ∧
   ∀ j : nat, (Z.to_nat (r - i) < j)%nat → l !! j ≠ Some c).
Proof.
  revert i acc. induction l as [|x l IH]; intros i acc; simpl.
  - left. split; [reflexivity|]. apply not_elem_of_nil.
  - destruct (IH (i + 1) (if Ascii.eqb x c then i else acc))
      as [[Hr Hno]|(Hr & Hat & Hlater)].
    + rewrite Hr. destruct (Ascii.eqb_spec x c) as [->|Hne].
      * right. split; [lia|]. replace (i - i) with 0 by lia. split; [reflexivity|].
        intros [|j] Hj; [lia|]. simpl. intros Hl.
        apply Hno. eapply list_elem_of_lookup_2, Hl.
      * left. split; [reflexivity|]. rewrite elem_of_cons. intuition congruence.
    + right. split; [lia|].
      replace (Z.to_nat (rfind_from c l (i + 1) (if Ascii.eqb x c then i else acc) - i))
        with (S (Z.to_nat (rfind_from c l (i + 1)
                             (if Ascii.eqb x c then i else acc) - (i + 1))))
        by lia.
      split; [exact Hat|].
      intros [|j] Hj; [lia|]. simpl. apply Hlater. lia.
Qed.

(** [rfind] finds the last occurrence. *)
Lemma rfind_spec c l :
  (rfind c l = -1 ∧ c ∉ l) ∨
  (0 ≤ rfind c l < Z.of_nat (length l) ∧ l !! Z.to_nat (rfind c l) = Some c ∧
   ∀ j : nat, (Z.to_nat (rfind c l) < j)%nat → l !! j ≠ Some c).
Proof.
  unfold rfind. destruct (rfind_from_spec c l 0 (-1)) as [H|(H1 & H2 & H3)].
  - left. exact H.
  - right. rewrite Z.sub_0_r in H2, H3. split; [lia|]. split; assumption.
Qed.

Lemma rfind_none c l : c ∉ l → rfind c l = -1.
Proof.
  intros Hno. destruct (rfind_spec c l) as [[H _]|(_ & H & _)]; [assumption|].
  destruct Hno. eapply list_elem_of_lookup_2, H.
Qed.

Lemma rfind_last c l (r : nat) :
  l !! r = Some c → (∀ j : nat, (r < j)%nat → l !! j ≠ Some c) →
  rfind c l = Z.of_nat r.
Proof.
  intros Hat Hlater. destruct (rfind_spec c l) as [[_ Hno]|(Hr & Hat' & Hlater')].
  - destruct Hno. eapply list_elem_of_lookup_2, Hat.
  - destruct (Nat.lt_trichotomy (Z.to_nat (rfind c l)) r) as [Hlt|[Heq|Hgt]].
    + destruct (Hlater' r Hlt Hat).
    + lia.
    + destruct (Hlater _ Hgt Hat').
Qed.

Lemma string_of_list_ascii_app l1 l2 :
  string_of_list_ascii (l1 ++ l2)
  = string_of_list_ascii l1 +:+ string_of_list_ascii l2.
Proof. induction l1 as [|c l1 IH]; simpl; [reflexivity|]. rewrite IH. reflexivity. Qed.

Lemma list_ascii_of_string_app s1 s2 :
  list_ascii_of_string (s1 +:+ s2)
  = list_ascii_of_string s1 ++ list_ascii_of_string s2.
Proof. induction s1 as [|c s1 IH]; simpl; [reflexivity|]. rewrite IH. reflexivity. Qed.

(** What [splitext] returns, on the characters of the path. *)
Lemma splitext_spec p :
  let l := list_ascii_of_string p in
  ∃ root ext,
    splitext p = (string_of_list_ascii root, string_of_list_ascii ext) ∧
    root ++ ext = l ∧
    (ext = [] ∨
     ∃ e, ext = "."%char :: e ∧ ("."%char ∉ e) ∧ ("/"%char ∉ e) ∧
          (rfind "/" l < Z.of_nat (length root))).
Proof.
  intros l. unfold splitext. fold l.
  destruct ((rfind "/" l <? rfind "." l) && _) eqn:Econd.
  - apply andb_true_iff in Econd as [Hlt _]. apply Z.ltb_lt in Hlt.
    exists (take (Z.to_nat (rfind "." l)) l), (drop (Z.to_nat (rfind "." l)) l).
    split; [reflexivity|]. split; [apply take_drop|]. right.
    destruct (rfind_spec "." l) as [[Hd _]|(Hd & Hat & Hlater)].
    { destruct (rfind_spec "/" l) as [[Hs _]|(Hs & _)]; lia. }
    set (k := Z.to_nat (rfind "." l)) in *.
    exists (drop (S k) l). split; [|split; [|split]].
    + apply drop_S. exact Hat.
    + intros Hin. apply list_elem_of_lookup in Hin as [j Hj].
      rewrite lookup_drop in Hj. apply (Hlater (S k + j)%nat); [lia|assumption].
    + intros Hin. apply list_elem_of_lookup in Hin as [j Hj].
      rewrite lookup_drop in Hj.
      destruct (rfind_spec "/" l) as [[_ Hno]|(Hs & _ & Hslater)].
      * apply Hno. eapply list_elem_of_lookup_2, Hj.
      * apply (Hslater (S k + j)%nat); [lia|assumption].
    + rewrite length_take. lia.
  - exists l, []. split; [|split; [apply app_nil_r|left; reflexivity]].
    unfold l. rewrite string_of_list_ascii_of_string. reflexivity.
Qed.

(** The last slash of a path is the last slash of its root followed by
    any text without one. *)
Lemma rfind_root (l root ext tail : list ascii) :
  root ++ ext = l →
  (ext = [] ∨ ∃ e, ext = "."%char :: e ∧ ("."%char ∉ e) ∧ ("/"%char ∉ e) ∧
                   (rfind "/" l < Z.of_nat (length root))) →
  "/"%char ∉ tail →
  rfind "/" (root ++ tail) = rfind "/" l ∧
  take (Z.to_nat (rfind "/" l + 1)) (root ++ tail)
  = take (Z.to_nat (rfind "/" l + 1)) l.
Proof.
  intros Hl Hext Htail.
  assert (Hlen : rfind "/" l < Z.of_nat (length root)).
  { destruct Hext as [->|(e & _ & _ & _ & H)]; [|assumption].
    rewrite app_nil_r in Hl. subst root.
    destruct (rfind_spec "/" l) as [[Hs _]|(Hs & _)]; lia. }
  assert (Hext' : "/"%char ∉ ext).
  { destruct Hext as [->|(e & -> & _ & He & _)]; [apply not_elem_of_nil|].
    rewrite elem_of_cons. intros [H|H]; [discriminate|auto]. }
  clear Hext. set (r := rfind "/" l) in *.
  assert (Hspec := rfind_spec "/" l). fold r in Hspec.
  split.
  - destruct Hspec as [[Hs Hno]|(Hs & Hat & Hlater)].
    + rewrite Hs. apply rfind_none. rewrite <- Hl in Hno.
      rewrite elem_of_app in *. tauto.
    + rewrite <- (Z2Nat.id r) by lia. apply rfind_last.
      * rewrite lookup_app_l by lia. rewrite <- Hl in Hat.
        rewrite lookup_app_l in Hat by lia. exact Hat.
      * intros j Hj Hin. destruct (decide (j < length root)%nat) as [Hjr|Hjr].
        -- rewrite lookup_app_l in Hin by assumption.
           apply (Hlater j Hj). rewrite <- Hl, lookup_app_l by assumption. exact Hin.
        -- rewrite lookup_app_r in Hin by lia.
           apply Htail. eapply list_elem_of_lookup_2, Hin.
  - rewrite <- Hl. rewrite !take_app_le by lia. reflexivity.
Qed.

End Paths.

(** ** Numerals as texts *)

Section Numerals.

Local Open Scope Z_scope.
Local Open Scope list_scope.
Local Opaque Float.one Float.overflow.

Lemma dval_from_app acc l1 l2 :
  dval_from acc (l1 ++ l2) = dval_from (dval_from acc l1) l2.
Proof. unfold dval_from. apply fold_left_app. Qed.

Lemma dval_from_shift acc l :
  dval_from acc l = acc * 10 ^ Z.of_nat (length l) + dval_from 0 l.
Proof.
  revert acc. induction l as [|c l IH]; intros acc.
  - simpl. lia.
  - cbn [dval_from fold_left length]. fold (dval_from (10 * acc + default 0 (digit_of c)) l).
    fold (dval_from (10 * 0 + default 0 (digit_of c)) l).
    rewrite (IH (10 * acc + _)), (IH (10 * 0 + _)).
    rewrite Nat2Z.inj_succ, Z.pow_succ_r by lia. ring.
Qed.

Lemma dval_from_nonneg acc l : 0 ≤ acc → 0 ≤ dval_from acc l.
Proof.
  revert acc. induction l as [|c l IH]; intros acc Hacc; [exact Hacc|].
  cbn [dval_from fold_left]. apply IH.
  unfold digit_of. destruct (_ && _) eqn:E; cbn [default from_option id]; [|lia].
  apply andb_true_iff in E as [E _]. apply Z.leb_le in E. lia.
Qed.

(** The parser of digits reads a run of digits to its end. *)
Lemma digitpart_from_digits l rest acc cnt :
  Forall (λ c, is_digit c = true) l → stops rest →
  digitpart_from acc cnt (l ++ rest)
  = (dval_from acc l, cnt + Z.of_nat (length l), rest).
Proof.
  intros Hl Hrest. revert acc cnt. induction Hl as [|c l Hc _ IH]; intros acc cnt.
  - simpl. rewrite Z.add_0_r. destruct rest as [|c r]; [reflexivity|].
    destruct Hrest as [Hd Hu]. unfold is_digit in Hd. simpl.
    destruct (digit_of c); [discriminate|].
    destruct (Ascii.eqb_spec c "_"); [congruence|reflexivity].
  - unfold is_digit in Hc. cbn [app digitpart_from].
    destruct (digit_of c) as [d|] eqn:Ed; [|discriminate].
    rewrite IH. cbn [dval_from fold_left length]. rewrite Ed.
    cbn [default from_option id]. f_equal. f_equal. lia.
Qed.

Lemma digitpart_digits l rest :
  l ≠ [] → Forall (λ c, is_digit c = true) l → stops rest →
  digitpart (l ++ rest) = Some (dval_from 0 l, Z.of_nat (length l), rest).
Proof.
  intros Hne Hl Hrest. destruct l as [|c l]; [congruence|].
  apply Forall_cons in Hl as [Hc Hl]. unfold is_digit in Hc.
  cbn [app digitpart]. destruct (digit_of c) as [d|] eqn:Ed; [|discriminate].
  rewrite digitpart_from_digits by assumption.
  cbn [dval_from fold_left length]. rewrite Ed. cbn [default from_option id].
  do 3 f_equal; lia.
Qed.

(** The digits that [str] writes for a positive int. *)
Lemma uint_digits u :
  Forall (λ c, is_digit c = true) (list_ascii_of_string (NilEmpty.string_of_uint u)) ∧
  (∀ acc, dval_from (Z.pos acc) (list_ascii_of_string (NilEmpty.string_of_uint u))
          = Z.pos (Pos.of_uint_acc u acc)) ∧
  dval_from 0 (list_ascii_of_string (NilEmpty.string_of_uint u))
  = Z.of_N (Pos.of_uint u).
Proof.
  assert (Hstep : ∀ (c : ascii) (k : Z) l (acc : Z),
            digit_of c = Some k →
            dval_from acc (c :: l) = dval_from (10 * acc + k) l).
  { intros c k l acc Hc. cbn [dval_from fold_left]. rewrite Hc. reflexivity. }
  induction u as [|u (IH1 & IH2 & IH3)|u (IH1 & IH2 & IH3)|u (IH1 & IH2 & IH3)
                  |u (IH1 & IH2 & IH3)|u (IH1 & IH2 & IH3)|u (IH1 & IH2 & IH3)
                  |u (IH1 & IH2 & IH3)|u (IH1 & IH2 & IH3)|u (IH1 & IH2 & IH3)
                  |u (IH1 & IH2 & IH3)];
    cbn [NilEmpty.string_of_uint list_ascii_of_string Pos.of_uint Pos.of_uint_acc].
  { split; [constructor|split; reflexivity]. }
  all: split; [constructor; [reflexivity|assumption]|].
  all: split;
     [intros acc; erewrite Hstep by (vm_compute; reflexivity); rewrite <- IH2;
      apply (f_equal (λ a, dval_from a _)); lia
     |erewrite Hstep by (vm_compute; reflexivity); first [exact IH3|apply IH2]].
Qed.

(** [str] of a positive int: digits, the first of them there, whose value
    is the int. *)
Lemma str_of_pos p :
  let l := list_ascii_of_string (str_of_Z (Z.pos p)) in
  l ≠ [] ∧ Forall (λ c, is_digit c = true) l ∧ dval_from 0 l = Z.pos p.
Proof.
  unfold str_of_Z. cbn [Z.to_int NilZero.string_of_int NilZero.string_of_uint].
  pose proof (Unsigned.to_uint_nonnil p) as Hnn.
  destruct (uint_digits (Pos.to_uint p)) as (H1 & _ & H3).
  rewrite Unsigned.of_to in H3.
  destruct (Pos.to_uint p) eqn:E; [congruence|..]; cbn zeta;
    (split; [discriminate|split; [exact H1|exact H3]]).
Qed.

Lemma is_digit_range c : is_digit c = true ↔ 48 ≤ code c ≤ 57.
Proof.
  unfold is_digit, digit_of.
  destruct (Z.leb_spec 48 (code c)), (Z.leb_spec (code c) 57); simpl;
    intuition (try discriminate; lia).
Qed.

Lemma is_digit_not_space c : is_digit c = true → is_space c = false.
Proof.
  rewrite is_digit_range. intros Hc. unfold is_space.
  destruct (Z.leb_spec 9 (code c)), (Z.leb_spec (code c) 13),
    (Z.eqb_spec (code c) 32); simpl; try reflexivity; lia.
Qed.

Lemma code_inj c1 c2 : code c1 = code c2 → c1 = c2.
Proof.
  unfold code. intros H. apply N2Z.inj in H.
  rewrite <- (ascii_N_embedding c1), <- (ascii_N_embedding c2), H. reflexivity.
Qed.

Lemma is_digit_neq c c' : is_digit c = true → is_digit c' = false → c ≠ c'.
Proof. intros H1 H2 ->. congruence. Qed.

Lemma is_digit_to_lower c : is_digit c = true → to_lower c = c.
Proof.
  rewrite is_digit_range. intros Hc. unfold to_lower.
  destruct (Z.leb_spec 65 (code c)); simpl; [lia|reflexivity].
Qed.

Lemma lstrip_plain l :
  match l with [] => True | c :: _ => is_space c = false end → lstrip l = l.
Proof. destruct l as [|c l]; [reflexivity|]. simpl. intros ->. reflexivity. Qed.

(** [strip] leaves a text without white space as it is. *)
Lemma strip_plain l : Forall (λ c, is_space c = false) l → strip l = l.
Proof.
  intros Hl. unfold strip. rewrite (lstrip_plain l).
  - rewrite lstrip_plain; [apply rev_involutive|].
    apply Forall_rev in Hl. destruct (rev l); [exact I|].
    apply Forall_cons in Hl as [H _]. exact H.
  - destruct l; [exact I|]. apply Forall_cons in Hl as [H _]. exact H.
Qed.

Lemma sign_split_digit c l :
  is_digit c = true → sign_split (c :: l) = (false, c :: l).
Proof.
  intros Hc. unfold sign_split.
  destruct (Ascii.eqb_spec c "-") as [->|_]; [discriminate|].
  destruct (Ascii.eqb_spec c "+") as [->|_]; [discriminate|]. reflexivity.
Qed.

(** A text that starts with a digit is none of the words that [float]
    reads. *)
Lemma not_a_word c l :
  is_digit c = true →
  let word := string_of_list_ascii (map to_lower (c :: l)) in
  String.eqb word "inf" || String.eqb word "infinity" = false ∧
  String.eqb word "nan" = false.
Proof.
  intros Hc. cbn [map string_of_list_ascii]. rewrite (is_digit_to_lower c Hc).
  cbn [String.eqb].
  destruct (Ascii.eqb_spec c "i") as [->|_]; [discriminate|].
  destruct (Ascii.eqb_spec c "n") as [->|_]; [discriminate|]. auto.
Qed.

(** [replace(",", ".")] leaves a text without comma as it is. *)
Lemma replace_comma_plain s :
  Forall (λ c, c ≠ ","%char) (list_ascii_of_string s) → replace_comma s = s.
Proof.
  induction s as [|c s IH]; [reflexivity|]. cbn [list_ascii_of_string replace_comma].
  intros H. apply Forall_cons in H as [Hc Hs].
  destruct (Ascii.eqb_spec c ","); [congruence|]. rewrite IH by assumption. reflexivity.
Qed.

Lemma digits_plain l :
  Forall (λ c, is_digit c = true) l →
  Forall (λ c, is_space c = false) l ∧ Forall (λ c, c ≠ ","%char) l.
Proof.
  intros Hl. split; eapply Forall_impl; try exact Hl.
  - intros c. apply is_digit_not_space.
  - intros c Hc ->. discriminate.
Qed.

(** [float] of a run of digits. *)
Lemma floatnumber_digits l :
  l ≠ [] → Forall (λ c, is_digit c = true) l →
  floatnumber l = Some (dval_from 0 l, 0).
Proof.
  intros Hne Hl. unfold floatnumber.
  rewrite <- (app_nil_r l) at 1. rewrite digitpart_digits by (try assumption; exact I).
  cbn [default from_option id]. f_equal. f_equal; lia.
Qed.

(** The text that [str] writes for an int, as [int] and [float] read it. *)
Lemma numeral_text z :
  int_of_string (str_of_Z z) = Some z ∧
  float_of_string (str_of_Z z) = Some (of_ratio (z * one) 1) ∧
  replace_comma (str_of_Z z) = str_of_Z z.
Proof.
  destruct z as [|p|p].
  - repeat split; reflexivity.
  - destruct (str_of_pos p) as (Hne & Hd & Hv). cbn zeta in *.
    destruct (digits_plain _ Hd) as [Hsp Hco].
    split; [|split].
    + unfold int_of_string. rewrite strip_plain by assumption.
      destruct (list_ascii_of_string (str_of_Z (Z.pos p))) as [|c l] eqn:El; [congruence|].
      apply Forall_cons in Hd as Hd'. destruct Hd' as [Hc _].
      rewrite sign_split_digit by assumption.
      rewrite <- (app_nil_r (c :: l)), digitpart_digits by (try assumption; exact I).
      rewrite Hv. reflexivity.
    + unfold float_of_string. rewrite strip_plain by assumption.
      destruct (list_ascii_of_string (str_of_Z (Z.pos p))) as [|c l] eqn:El; [congruence|].
      apply Forall_cons in Hd as Hd'. destruct Hd' as [Hc _].
      rewrite sign_split_digit by assumption.
      destruct (not_a_word c l Hc) as [-> ->].
      rewrite floatnumber_digits, Hv by assumption.
      unfold of_decimal. cbn [Z.leb Z.compare]. rewrite Z.pow_0_r, Z.mul_1_r. reflexivity.
    + apply replace_comma_plain. assumption.
  - destruct (str_of_pos p) as (Hne & Hd & Hv). cbn zeta in *.
    destruct (digits_plain _ Hd) as [Hsp Hco].
    assert (Hs : list_ascii_of_string (str_of_Z (Z.neg p))
                 = "-"%char :: list_ascii_of_string (str_of_Z (Z.pos p))).
    { unfold str_of_Z. cbn [Z.to_int NilZero.string_of_int list_ascii_of_string].
      reflexivity. }
    split; [|split].
    + unfold int_of_string. rewrite Hs, strip_plain by (constructor; [reflexivity|assumption]).
      cbn [sign_split Ascii.eqb Bool.eqb].
      rewrite <- (app_nil_r (list_ascii_of_string _)), digitpart_digits
        by (try assumption; exact I).
      rewrite Hv. reflexivity.
    + unfold float_of_string. rewrite Hs, strip_plain by (constructor; [reflexivity|assumption]).
      cbn [sign_split Ascii.eqb Bool.eqb].
      destruct (list_ascii_of_string (str_of_Z (Z.pos p))) as [|c l] eqn:El; [congruence|].
      apply Forall_cons in Hd as Hd'. destruct Hd' as [Hc _].
      destruct (not_a_word c l Hc) as [-> ->].
      rewrite floatnumber_digits, Hv by assumption.
      unfold of_decimal. cbn [Z.leb Z.compare]. rewrite Z.pow_0_r, Z.mul_1_r. reflexivity.
    + apply replace_comma_plain. rewrite Hs. constructor; [discriminate|assumption].
Qed.

End Numerals.

(** ** The shortest decimal of a float reads back as the float *)

Section ShortestDigits.

Local Open Scope Z_scope.

(** The integer strictly within one half of [a / b] is its rounding. *)
Lemma round_half_even_near a b m :
  0 < b → 2 * Z.abs (a - m * b) < b → round_half_even a b = m.
Proof.
  intros Hb Hm. destruct (round_half_even_spec a b Hb) as [[Hlo Hhi] _].
  set (q := round_half_even a b) in *.
  assert (Z.abs (q - m) < 1); [|lia].
  assert (2 * b * Z.abs (q - m) < 2 * b * 1); [|nia].
  rewrite <- (Z.abs_eq (2 * b)) at 1 by lia. rewrite <- Z.abs_mul. lia.
Qed.

(** A positive binary64 number as a significand times a power of two. *)
Lemma binary64_decompose a :
  0 < a → nearest a 1 = a →
  ∃ m k, a = m * 2 ^ k ∧ k = ulp_exp a 1 ∧ 0 ≤ k ∧ 0 < m < 2 ^ 53 ∧
         (0 < k → 2 ^ 52 ≤ m).
Proof.
  intros Ha Hn. unfold nearest in Hn. destruct (Z.ltb_spec a 0); [lia|].
  unfold round53 in Hn. rewrite Z.mul_1_l in Hn.
  set (k := ulp_exp a 1) in *. set (m := round_half_even a (2 ^ k)) in *.
  assert (Hk : 0 ≤ k) by apply ulp_exp_nonneg.
  assert (Hp : 0 < 2 ^ k) by (apply Z.pow_pos_nonneg; lia).
  exists m, k. split; [lia|]. split; [reflexivity|]. split; [assumption|].
  assert (Hm0 : 0 < m) by nia.
  assert (Hlt : a < 2 ^ (k + 53)).
  { apply Z.log2_lt_pow2; [assumption|]. unfold k, ulp_exp. rewrite Z.div_1_r. lia. }
  rewrite Z.pow_add_r in Hlt by lia.
  split; [split; [assumption|nia]|].
  intros Hk0. pose proof (significand_lower a 1 ltac:(lia) ltac:(lia)) as Hl.
  fold k in Hl. rewrite Z.mul_1_l in Hl. apply Hl. assumption.
Qed.

(** Any rational within a relative distance of [10^-16 / 2] of a positive
    binary64 number rounds to it: seventeen significant digits tell
    binary64 numbers apart. *)
Lemma nearest_close a N D :
  0 < a → nearest a 1 = a → 0 < D →
  2 * 10 ^ 16 * Z.abs (N - a * D) ≤ a * D →
  nearest N D = a.
Proof.
  intros Ha Hbin HD Hclose.
  destruct (binary64_decompose a Ha Hbin) as (m & k & Hak & Hk & Hk0 & Hm & Hm52).
  assert (Hp : 0 < 2 ^ k) by (apply Z.pow_pos_nonneg; lia).
  assert (H53 : 2 ^ 53 < 10 ^ 16) by (apply Z.ltb_lt; reflexivity).
  assert (H52 : 2 * 2 ^ 52 = 2 ^ 53) by reflexivity.
  assert (HN : 0 < N) by nia.
  unfold nearest. destruct (Z.ltb_spec N 0); [lia|].
  set (E := Z.abs (N - a * D)) in *.
  (* the error is less than half a unit in the last place *)
  assert (HE : 2 * E < 2 ^ k * D).
  { assert (2 * 10 ^ 16 * E < 10 ^ 16 * (2 ^ k * D)); [|nia].
    eapply Z.le_lt_trans; [exact Hclose|]. rewrite Hak.
    assert (m * 2 ^ k * D < 2 ^ 53 * (2 ^ k * D)) by nia. nia. }
  unfold round53.
  assert (Hq_hi : N / D < 2 ^ (k + 53)).
  { apply Z.div_lt_upper_bound; [assumption|]. rewrite Z.pow_add_r by lia.
    unfold E in HE. nia. }
  destruct (Z_le_gt_dec (a * D) N) as [Hge|Hlt].
  - (* at or above [a]: the same exponent *)
    assert (Hqa : a ≤ N / D) by (apply Z.div_le_lower_bound; lia).
    assert (Hk' : ulp_exp N D = k).
    { rewrite Hk. unfold ulp_exp. rewrite Z.div_1_r.
      assert (Z.log2 a ≤ Z.log2 (N / D)) by (apply Z.log2_le_mono; assumption).
      assert (Z.log2 (N / D) < k + 53) by (apply Z.log2_lt_pow2; lia).
      unfold ulp_exp in Hk. rewrite Z.div_1_r in Hk. lia. }
    rewrite Hk'. rewrite (round_half_even_near N (D * 2 ^ k) m); [lia|nia|].
    unfold E in HE. nia.
  - destruct (Z.eq_dec k 0) as [Hz|Hnz].
    + (* below [a], subnormal or small: the exponent is still zero *)
      assert (Hk' : ulp_exp N D = 0).
      { unfold ulp_exp.
        assert (Z.log2 (N / D) < 53); [|lia].
        destruct (Z_le_gt_dec (N / D) 0) as [Hz0|Hpos];
          [rewrite (Z.log2_nonpos _ Hz0); lia|].
        apply Z.log2_lt_pow2; [lia|]. rewrite Hz in Hq_hi. exact Hq_hi. }
      rewrite Hk'. rewrite Hz in *. rewrite Z.pow_0_r in *.
      rewrite (round_half_even_near N (D * 1) a); [lia|lia|].
      unfold E in HE. nia.
    + specialize (Hm52 ltac:(lia)).
      assert (Hk1 : 2 ^ k = 2 * 2 ^ (k - 1)).
      { rewrite <- Z.pow_succ_r by lia. f_equal. lia. }
      assert (Hp1 : 0 < 2 ^ (k - 1)) by (apply Z.pow_pos_nonneg; lia).
      destruct (Z.eq_dec m (2 ^ 52)) as [Hpow|Hnp].
      * (* just below a power of two: the exponent is one less *)
        assert (HE' : 2 * E < 2 ^ (k - 1) * D).
        { assert (2 * 10 ^ 16 * E < 10 ^ 16 * (2 ^ (k - 1) * D)); [|nia].
          eapply Z.le_lt_trans; [exact Hclose|]. rewrite Hak, Hpow, Hk1. nia. }
        assert (Hlo : 2 ^ (k + 51) ≤ N / D).
        { apply Z.div_le_lower_bound; [assumption|].
          replace (k + 51) with (51 + 1 + (k - 1)) by lia.
          rewrite !Z.pow_add_r by lia. change (2 ^ 51 * 2 ^ 1) with (2 ^ 52).
          unfold E in HE'. rewrite Hak, Hpow, Hk1 in *. nia. }
        assert (Hhi : N / D < 2 ^ (k + 52)).
        { apply Z.div_lt_upper_bound; [assumption|].
          rewrite Z.pow_add_r by lia. rewrite Hak, Hpow in Hlt. nia. }
        assert (Hk' : ulp_exp N D = k - 1).
        { unfold ulp_exp.
          assert (0 < 2 ^ (k + 51)) by (apply Z.pow_pos_nonneg; lia).
          assert (k + 51 ≤ Z.log2 (N / D)) by (apply Z.log2_le_pow2; lia).
          assert (Z.log2 (N / D) < k + 52) by (apply Z.log2_lt_pow2; lia).
          lia. }
        rewrite Hk'. rewrite (round_half_even_near N (D * 2 ^ (k - 1)) (2 ^ 53)).
        -- rewrite Hak, Hpow, Hk1, <- H52. ring.
        -- nia.
        -- unfold E in HE'. rewrite Hak, Hpow, Hk1, <- H52 in *.
           replace (N - 2 * 2 ^ 52 * (D * 2 ^ (k - 1)))
             with (N - 2 ^ 52 * (2 * 2 ^ (k - 1)) * D) by ring. nia.
      * (* below [a], within the same binade *)
        assert (Hlo : 2 ^ (k + 52) ≤ N / D).
        { apply Z.div_le_lower_bound; [assumption|].
          rewrite Z.pow_add_r by lia. unfold E in HE. rewrite Hak in *. nia. }
        assert (Hk' : ulp_exp N D = k).
        { unfold ulp_exp.
          assert (0 < 2 ^ (k + 52)) by (apply Z.pow_pos_nonneg; lia).
          assert (k + 52 ≤ Z.log2 (N / D)) by (apply Z.log2_le_pow2; lia).
          assert (Z.log2 (N / D) < k + 53) by (apply Z.log2_lt_pow2; lia).
          lia. }
        rewrite Hk'. rewrite (round_half_even_near N (D * 2 ^ k) m); [lia|nia|].
        unfold E in HE. nia.
Qed.

Lemma of_ratio_ext a1 b1 a2 b2 :
  0 < b1 → 0 < b2 → a1 * b2 = a2 * b1 → of_ratio a1 b1 = of_ratio a2 b2.
Proof.
  intros H1 H2 H. unfold of_ratio. rewrite (nearest_ext a1 b1 a2 b2) by assumption.
  reflexivity.
Qed.

Lemma pow10_pos e : 0 < 10 ^ e ∨ e < 0.
Proof. destruct (Z_lt_le_dec e 0); [right; assumption|left; apply Z.pow_pos_nonneg; lia]. Qed.

(** A numeral denotes the same float with a factor of ten moved into its
    exponent. *)
Lemma of_decimal_shift m e : of_decimal (10 * m) e = of_decimal m (e + 1).
Proof.
  pose proof one_pos as Ho. unfold of_decimal.
  destruct (Z.leb_spec 0 e) as [He|He]; destruct (Z.leb_spec 0 (e + 1)) as [He1|He1];
    try lia.
  - rewrite Z.pow_add_r by lia. apply of_ratio_ext; lia.
  - assert (e = -1) as -> by lia. apply of_ratio_ext; [reflexivity|lia|].
    change (- (-1)) with 1. change (-1 + 1) with 0. lia.
  - assert (0 < 10 ^ (- (e + 1))) by (apply Z.pow_pos_nonneg; lia).
    replace (- e) with (1 + - (e + 1)) by lia. rewrite Z.pow_add_r by lia.
    apply of_ratio_ext; lia.
Qed.

Lemma of_decimal_pow m e j :
  0 ≤ j → of_decimal (m * 10 ^ j) e = of_decimal m (e + j).
Proof.
  intros Hj. revert m e. pattern j. apply natlike_ind; [| |exact Hj].
  - intros m e. rewrite Z.pow_0_r, Z.mul_1_r, Z.add_0_r. reflexivity.
  - intros i Hi IH m e. rewrite Z.pow_succ_r by assumption.
    replace (m * (10 * 10 ^ i)) with ((10 * m) * 10 ^ i) by ring.
    rewrite IH, of_decimal_shift. f_equal. lia.
Qed.

(** What [reads_back] says. *)
Lemma reads_back_spec d x a : reads_back d x a = true ↔ of_decimal d x = Ffin a.
Proof.
  unfold reads_back. destruct (of_decimal d x) as [| |n]; split; try discriminate.
  - intros H. apply Z.eqb_eq in H. congruence.
  - intros [= ->]. apply Z.eqb_refl.
Qed.

(** The decimal nearest to a binary64 number at seventeen significant
    digits reads back as the number. *)
Lemma reads_back_17 a e10 :
  0 < a → nearest a 1 = a → Z.abs a < overflow → ge_pow10 a e10 = true →
  let x := e10 - 16 in
  let '(num, den) := if 0 <=? x then (a, one * 10 ^ x)
                     else (a * 10 ^ (- x), one) in
  reads_back (round_half_even num den) x a = true.
Proof.
  intros Ha Hbin Hfin Hge x. pose proof one_pos as Ho.
  assert (H16 : 0 < 10 ^ 16) by (apply Z.pow_pos_nonneg; lia).
  destruct (Z.leb_spec 0 x) as [Hx|Hx]; apply reads_back_spec;
    unfold of_decimal, of_ratio.
  - destruct (Z.leb_spec 0 x); [|lia].
    assert (Hpx : 0 < 10 ^ x) by (apply Z.pow_pos_nonneg; lia).
    destruct (round_half_even_spec a (one * 10 ^ x) ltac:(nia)) as [Hr _].
    set (near := round_half_even a (one * 10 ^ x)) in *.
    unfold ge_pow10 in Hge. destruct (Z.leb_spec 0 e10); [|lia].
    apply Z.leb_le in Hge. replace e10 with (16 + x) in Hge by (unfold x; lia).
    rewrite Z.pow_add_r in Hge by lia.
    rewrite (nearest_close a (near * 10 ^ x * one) 1);
      try assumption; try lia; try (rewrite !Z.mul_1_r; nia).
    destruct (Z.leb_spec overflow (Z.abs a)); [lia|reflexivity].
  - destruct (Z.leb_spec 0 x); [lia|].
    assert (Hpx : 0 < 10 ^ (- x)) by (apply Z.pow_pos_nonneg; lia).
    destruct (round_half_even_spec (a * 10 ^ (- x)) one Ho) as [Hr _].
    set (near := round_half_even (a * 10 ^ (- x)) one) in *.
    assert (Hscale : 10 ^ 16 * one ≤ a * 10 ^ (- x)).
    { unfold ge_pow10 in Hge. destruct (Z.leb_spec 0 e10) as [He|He].
      - apply Z.leb_le in Hge.
        replace 16 with (e10 + - x) by (unfold x; lia). rewrite Z.pow_add_r by lia.
        nia.
      - apply Z.leb_le in Hge.
        replace (- x) with (16 + - e10) by (unfold x; lia). rewrite Z.pow_add_r by lia.
        assert (0 < 10 ^ (- e10)) by (apply Z.pow_pos_nonneg; lia). nia. }
    rewrite (nearest_close a (near * one) (10 ^ (- x)));
      try assumption; try nia.
    destruct (Z.leb_spec overflow (Z.abs a)); [lia|reflexivity].
Qed.

(** [ge_pow10] is monotone in the number. *)
Lemma ge_pow10_mono a b e : a ≤ b → ge_pow10 a e = true → ge_pow10 b e = true.
Proof.
  intros Hab. unfold ge_pow10. destruct (0 <=? e).
  - rewrite !Z.leb_le. lia.
  - rewrite !Z.leb_le. destruct (pow10_pos (- e)) as [H|H]; [nia|].
    rewrite (Z.pow_neg_r _ _ H). lia.
Qed.

(** Ten to the [e] is at most two to the [10 * (e / 3)] and a little. *)
Lemma pow10_le_pow2 e :
  0 ≤ e → 10 ^ e ≤ 2 ^ (10 * (e / 3) + ((e mod 3) * 7 + 1) / 2).
Proof.
  intros He.
  assert (Hdm : e = 3 * (e / 3) + e mod 3) by (apply Z.div_mod; lia).
  assert (Hr : 0 ≤ e mod 3 < 3) by (apply Z.mod_pos_bound; lia).
  assert (Hq : 0 ≤ e / 3) by (apply Z.div_pos; lia).
  set (q := e / 3) in *. set (r := e mod 3) in *. clearbody q r. subst e.
  assert (H1 : 1000 ^ q ≤ 1024 ^ q) by (apply Z.pow_le_mono_l; lia).
  assert (H2 : 10 ^ r ≤ 2 ^ ((r * 7 + 1) / 2)).
  { assert (r = 0 ∨ r = 1 ∨ r = 2) as [->|[->| ->]] by lia; apply Z.leb_le; reflexivity. }
  assert (0 < 1000 ^ q) by (apply Z.pow_pos_nonneg; lia).
  assert (0 < 10 ^ r) by (apply Z.pow_pos_nonneg; lia).
  assert (0 ≤ (r * 7 + 1) / 2) by (apply Z.div_pos; lia).
  rewrite (Z.pow_add_r 10), (Z.pow_add_r 2), !Z.pow_mul_r by lia.
  change (10 ^ 3) with 1000. change (2 ^ 10) with 1024.
  apply Z.mul_le_mono_nonneg; lia.
Qed.

Lemma pow2_small r :
  0 ≤ r < 93 → 2 ^ r ≤ 10 ^ ((r * 30103 + 99999) / 100000).
Proof.
  intros Hr.
  assert (H : forallb (λ r, 2 ^ r <=? 10 ^ ((r * 30103 + 99999) / 100000))
                (seqZ 0 93) = true) by (vm_compute; reflexivity).
  rewrite forallb_forall in H. apply Z.leb_le, H, list_elem_of_In, elem_of_seqZ. lia.
Qed.

(** Two to the [j] is at most ten to the [28 * (j / 93)] and a little. *)
Lemma pow2_le_pow10 j :
  0 ≤ j →
  2 ^ j ≤ 10 ^ (28 * (j / 93) + ((j mod 93) * 30103 + 99999) / 100000).
Proof.
  intros Hj.
  assert (Hdm : j = 93 * (j / 93) + j mod 93) by (apply Z.div_mod; lia).
  assert (Hr : 0 ≤ j mod 93 < 93) by (apply Z.mod_pos_bound; lia).
  assert (Hq : 0 ≤ j / 93) by (apply Z.div_pos; lia).
  set (q := j / 93) in *. set (r := j mod 93) in *. clearbody q r. subst j.
  assert (0 ≤ (r * 30103 + 99999) / 100000) by (apply Z.div_pos; lia).
  rewrite (Z.pow_add_r 2), (Z.pow_add_r 10), !Z.pow_mul_r by lia.
  assert (H1 : (2 ^ 93) ^ q ≤ (10 ^ 28) ^ q).
  { apply Z.pow_le_mono_l. split; apply Z.leb_le; reflexivity. }
  pose proof (pow2_small r Hr) as H2.
  assert (0 < (2 ^ 93) ^ q) by (apply Z.pow_pos_nonneg; [reflexivity|lia]).
  assert (0 < 2 ^ r) by (apply Z.pow_pos_nonneg; lia).
  apply Z.mul_le_mono_nonneg; lia.
Qed.

Lemma estimate_low_arith k :
  0 ≤ k < 1024 → 0 ≤ k * 30103 / 100000 - 1 →
  let e := k * 30103 / 100000 - 1 in
  10 * (e / 3) + ((e mod 3) * 7 + 1) / 2 ≤ k.
Proof.
  intros Hk _.
  assert (H : forallb (λ k, let e := k * 30103 / 100000 - 1 in
                        10 * (e / 3) + ((e mod 3) * 7 + 1) / 2 <=? k)
                (seqZ 0 1024) = true) by (vm_compute; reflexivity).
  rewrite forallb_forall in H. apply Z.leb_le.
  apply (H k), list_elem_of_In, elem_of_seqZ. lia.
Qed.

Lemma estimate_high_arith j :
  0 < j ≤ 1074 →
  28 * (j / 93) + ((j mod 93) * 30103 + 99999) / 100000
  ≤ - ((- j) * 30103 / 100000 - 1).
Proof.
  intros Hj.
  assert (H : forallb (λ j, 28 * (j / 93) + ((j mod 93) * 30103 + 99999) / 100000
                        <=? - ((- j) * 30103 / 100000 - 1))
                (seqZ 1 1074) = true) by (vm_compute; reflexivity).
  rewrite forallb_forall in H. apply Z.leb_le.
  apply (H j), list_elem_of_In, elem_of_seqZ. lia.
Qed.

(** The estimate of the decimal exponent is at most one too large, for
    every binary exponent of the format. *)
Lemma estimate_reached L :
  0 ≤ L < 2098 →
  ge_pow10 (2 ^ L) ((L - 1074) * 30103 / 100000 - 1) = true.
Proof.
  intros HL. unfold ge_pow10. set (e := (L - 1074) * 30103 / 100000 - 1).
  assert (Hone : one = 2 ^ 1074) by reflexivity.
  destruct (Z.leb_spec 0 e) as [He|He]; apply Z.leb_le.
  - assert (Hk : 0 ≤ L - 1074 < 1024) by (subst e; Z.div_mod_to_equations; lia).
    pose proof (estimate_low_arith (L - 1074) Hk He) as Ha. cbn zeta in Ha. fold e in Ha.
    replace L with ((L - 1074) + 1074) at 1 by lia.
    rewrite Z.pow_add_r, <- Hone by lia.
    apply Z.mul_le_mono_nonneg_r; [pose proof one_pos; lia|].
    etransitivity; [apply pow10_le_pow2, He|].
    apply Z.pow_le_mono_r; lia.
  - assert (Hp : 0 < 10 ^ (- e)) by (apply Z.pow_pos_nonneg; lia).
    assert (H2 : 0 < 2 ^ L) by (apply Z.pow_pos_nonneg; lia).
    destruct (Z.le_gt_cases 1074 L) as [Hge|Hlt].
    + assert (one ≤ 2 ^ L) by (rewrite Hone; apply Z.pow_le_mono_r; lia). nia.
    + set (j := 1074 - L). assert (Hj : 0 < j ≤ 1074) by lia.
      pose proof (estimate_high_arith j Hj) as Ha.
      replace (- j) with (L - 1074) in Ha by lia. fold e in Ha.
      rewrite Hone. replace 1074 with (L + j) at 1 by lia.
      rewrite Z.pow_add_r by lia.
      apply Z.mul_le_mono_nonneg_l; [lia|].
      etransitivity; [apply pow2_le_pow10; lia|].
      apply Z.pow_le_mono_r; lia.
Qed.

(** [decimal_exponent] returns a power of ten that the number reaches. *)
Lemma decimal_exponent_reached a :
  0 < a < overflow → ge_pow10 a (decimal_exponent a) = true.
Proof.
  intros [Ha Hfin]. unfold decimal_exponent.
  set (est := (Z.log2 a - 1074) * 30103 / 100000).
  destruct (ge_pow10 a (est + 1)) eqn:E1; [assumption|].
  destruct (ge_pow10 a est) eqn:E0; [assumption|].
  destruct (Z.log2_spec a Ha) as [Hlo _].
  apply (ge_pow10_mono (2 ^ Z.log2 a)); [assumption|].
  apply estimate_reached. split; [apply Z.log2_nonneg|].
  apply Z.log2_lt_pow2; [assumption|exact Hfin].
Qed.

(** The digits that [shortest_digits] returns read back as the number. *)
Lemma shortest_digits_reads_back fuel p a e10 :
  0 < a → nearest a 1 = a → Z.abs a < overflow → ge_pow10 a e10 = true →
  p + Z.of_nat fuel = 17 →
  reads_back (shortest_digits fuel p a e10).1 (shortest_digits fuel p a e10).2 a
  = true.
Proof.
  intros Ha Hbin Hfin Hge. revert p. induction fuel as [|fuel IH]; intros p Hp.
  - assert (p = 17) as -> by lia.
    pose proof (reads_back_17 a e10 Ha Hbin Hfin Hge) as H17. cbn zeta in H17.
    cbn [shortest_digits]. replace (e10 - (17 - 1)) with (e10 - 16) by lia.
    destruct (if 0 <=? e10 - 16 then _ else _) as [num den]. exact H17.
  - cbn [shortest_digits].
    destruct (if 0 <=? e10 - (p - 1) then _ else _) as [num den].
    set (near := round_half_even num den).
    set (other := if near =? num / den then num / den + 1 else num / den).
    destruct (reads_back near (e10 - (p - 1)) a) eqn:E1; [exact E1|].
    destruct (reads_back other (e10 - (p - 1)) a) eqn:E2; [exact E2|].
    apply IH. lia.
Qed.

(** Dropping trailing zeros keeps the float that the digits denote. *)
Lemma drop_zeros_reads_back fuel d x a :
  reads_back d x a = true →
  reads_back (drop_zeros fuel d x).1 (drop_zeros fuel d x).2 a = true.
Proof.
  revert d x. induction fuel as [|fuel IH]; intros d x H; [exact H|].
  cbn [drop_zeros]. destruct (Z.eqb_spec (d mod 10) 0) as [Hz|_]; [|exact H].
  apply IH. apply reads_back_spec. apply reads_back_spec in H.
  rewrite <- of_decimal_shift, <- H. f_equal.
  pose proof (Z.div_mod d 10 ltac:(lia)). lia.
Qed.

(** Only positive digits read back as a positive number. *)
Lemma reads_back_pos d x a : 0 < a → reads_back d x a = true → 0 < d.
Proof.
  intros Ha H. apply reads_back_spec in H. pose proof one_pos as Ho.
  destruct (Z_lt_le_dec 0 d) as [|Hd]; [assumption|exfalso].
  unfold of_decimal, of_ratio in H.
  destruct (Z.leb_spec 0 x).
  - assert (0 < 10 ^ x) by (apply Z.pow_pos_nonneg; lia).
    pose proof (nearest_mono (d * 10 ^ x * one) 1 (0 * 2 ^ 0) 1 ltac:(lia) ltac:(lia)
                  ltac:(nia)) as Hm.
    rewrite (nearest_exact 0 0) in Hm by lia.
    destruct (_ <=? _); [discriminate|]. injection H as H. lia.
  - assert (0 < 10 ^ (- x)) by (apply Z.pow_pos_nonneg; lia).
    pose proof (nearest_mono (d * one) (10 ^ (- x)) (0 * 2 ^ 0) 1 ltac:(lia) ltac:(lia)
                  ltac:(nia)) as Hm.
    rewrite (nearest_exact 0 0) in Hm by lia.
    destruct (_ <=? _); [discriminate|]. injection H as H. lia.
Qed.

End ShortestDigits.

(** ** The text of a float, as [float] reads it *)

Section FloatText.

Local Open Scope Z_scope.
Local Open Scope list_scope.
Local Opaque Float.one Float.overflow.

Lemma dval_app l1 l2 :
  dval_from 0 (l1 ++ l2)
  = dval_from 0 l1 * 10 ^ Z.of_nat (length l2) + dval_from 0 l2.
Proof. rewrite dval_from_app. apply dval_from_shift. Qed.

Lemma dval_zeros k : dval_from 0 (replicate k "0"%char) = 0.
Proof. induction k as [|k IH]; [reflexivity|]. exact IH. Qed.

Lemma digits_zeros k : Forall (λ c, is_digit c = true) (replicate k "0"%char).
Proof. apply Forall_replicate. reflexivity. Qed.

Lemma chars_substring n m s :
  list_ascii_of_string (substring n m s) = take m (drop n (list_ascii_of_string s)).
Proof.
  revert n m. induction s as [|c s IH]; intros [|n] [|m]; simpl; try reflexivity.
  - rewrite (IH 0%nat m). rewrite drop_0. reflexivity.
  - apply IH.
  - apply IH.
Qed.

Lemma chars_length s : length (list_ascii_of_string s) = String.length s.
Proof. induction s as [|c s IH]; simpl; congruence. Qed.

(** The three shapes of a numeral that [repr] writes. *)
Lemma floatnumber_point ipd fpd :
  ipd ≠ [] → fpd ≠ [] →
  Forall (λ c, is_digit c = true) ipd → Forall (λ c, is_digit c = true) fpd →
  floatnumber (ipd ++ "."%char :: fpd)
  = Some (dval_from 0 ipd * 10 ^ Z.of_nat (length fpd) + dval_from 0 fpd,
          - Z.of_nat (length fpd)).
Proof.
  intros Hi Hf Hid Hfd. unfold floatnumber.
  rewrite digitpart_digits by first [assumption|split; [reflexivity|discriminate]].
  cbn [Ascii.eqb Bool.eqb andb].
  rewrite <- (app_nil_r fpd) at 1.
  rewrite digitpart_digits by first [assumption|exact I].
  cbn [default from_option id]. reflexivity.
Qed.

Lemma floatnumber_exp ipd (eneg : bool) ed :
  ipd ≠ [] → ed ≠ [] →
  Forall (λ c, is_digit c = true) ipd → Forall (λ c, is_digit c = true) ed →
  floatnumber (ipd ++ "e"%char :: (if eneg then "-"%char else "+"%char) :: ed)
  = Some (dval_from 0 ipd, if eneg then - dval_from 0 ed else dval_from 0 ed).
Proof.
  intros Hi He Hid Hed. unfold floatnumber.
  rewrite digitpart_digits by first [assumption|split; [reflexivity|discriminate]].
  cbn [Ascii.eqb Bool.eqb andb default from_option id to_lower].
  change (Ascii.eqb (to_lower "e") "e") with true. cbn iota.
  assert (Hs : sign_split ((if eneg then "-"%char else "+"%char) :: ed) = (eneg, ed))
    by (destruct eneg; reflexivity).
  rewrite Hs. rewrite <- (app_nil_r ed) at 1.
  rewrite digitpart_digits by first [assumption|exact I].
  f_equal. f_equal; [lia|]. destruct eneg; lia.
Qed.

Lemma floatnumber_point_exp ipd fpd (eneg : bool) ed :
  ipd ≠ [] → fpd ≠ [] → ed ≠ [] →
  Forall (λ c, is_digit c = true) ipd → Forall (λ c, is_digit c = true) fpd →
  Forall (λ c, is_digit c = true) ed →
  floatnumber (ipd ++ "."%char :: fpd
                   ++ "e"%char :: (if eneg then "-"%char else "+"%char) :: ed)
  = Some (dval_from 0 ipd * 10 ^ Z.of_nat (length fpd) + dval_from 0 fpd,
          (if eneg then - dval_from 0 ed else dval_from 0 ed)
          - Z.of_nat (length fpd)).
Proof.
  intros Hi Hf He Hid Hfd Hed. unfold floatnumber.
  rewrite digitpart_digits by first [assumption|split; [reflexivity|discriminate]].
  cbn [Ascii.eqb Bool.eqb andb].
  rewrite digitpart_digits by first [assumption|split; [reflexivity|discriminate]].
  cbn [default from_option id].
  change (Ascii.eqb (to_lower "e") "e") with true. cbn iota.
  assert (Hs : sign_split ((if eneg then "-"%char else "+"%char) :: ed) = (eneg, ed))
    by (destruct eneg; reflexivity).
  rewrite Hs. rewrite <- (app_nil_r ed) at 1.
  rewrite digitpart_digits by first [assumption|exact I].
  reflexivity.
Qed.

Lemma numchar_plain l :
  Forall numchar l →
  Forall (λ c, is_space c = false) l ∧ Forall (λ c, c ≠ ","%char) l.
Proof.
  intros Hl. split; eapply Forall_impl; try exact Hl; intros c Hc.
  - destruct Hc as [Hc|[->|[->|[->| ->]]]]; try reflexivity.
    apply is_digit_not_space, Hc.
  - destruct Hc as [Hc|[->|[->|[->| ->]]]]; try discriminate.
    intros ->. discriminate.
Qed.

Lemma digits_numchar l : Forall (λ c, is_digit c = true) l → Forall numchar l.
Proof. intros Hl. eapply Forall_impl; [exact Hl|]. intros c Hc. left. exact Hc. Qed.

(** The exponent that [repr] writes with two digits at least. *)
Lemma two_digits_chars e :
  0 < e →
  let l := list_ascii_of_string (two_digits e) in
  l ≠ [] ∧ Forall (λ c, is_digit c = true) l ∧ dval_from 0 l = e.
Proof.
  intros He. destruct e as [|p|p]; try lia.
  destruct (str_of_pos p) as (Hne & Hd & Hv). cbn zeta in *.
  unfold two_digits. destruct (Z.pos p <? 10); [|auto].
  cbn [append list_ascii_of_string]. split; [discriminate|].
  split; [constructor; [reflexivity|assumption]|exact Hv].
Qed.

Lemma layout_chars_eq ds decpt :
  list_ascii_of_string (layout ds decpt)
  = layout_chars (list_ascii_of_string ds) decpt.
Proof.
  unfold layout, layout_chars. rewrite chars_length.
  destruct ((decpt <=? -4) || (16 <? decpt)).
  - cbn zeta. rewrite !list_ascii_of_string_app, chars_substring, drop_0.
    f_equal. f_equal.
    + destruct (1 <? Z.of_nat (String.length ds)); [|reflexivity].
      rewrite list_ascii_of_string_app, chars_substring.
      change (list_ascii_of_string ".") with ["."%char]. cbn [app]. f_equal.
      apply take_ge. rewrite length_drop, chars_length. lia.
    + destruct (decpt - 1 <? 0); reflexivity.
  - destruct (decpt <=? 0).
    + rewrite !list_ascii_of_string_app. unfold zeros.
      rewrite list_ascii_of_string_of_list_ascii. reflexivity.
    + destruct (Z.of_nat (String.length ds) <=? decpt).
      * rewrite !list_ascii_of_string_app. unfold zeros.
        rewrite list_ascii_of_string_of_list_ascii. reflexivity.
      * rewrite !list_ascii_of_string_app, !chars_substring, drop_0.
        change (list_ascii_of_string ".") with ["."%char]. cbn [app]. do 2 f_equal.
        apply take_ge. rewrite length_drop, chars_length. lia.
Qed.

(** The text that [repr] lays out for digits of value [d] and the exponent
    [x] is a numeral that denotes [d * 10^x]. *)
Lemma layout_chars_reads dl d x :
  dl ≠ [] → Forall (λ c, is_digit c = true) dl → dval_from 0 dl = d →
  let l := layout_chars dl (Z.of_nat (length dl) + x) in
  (∃ j, 0 ≤ j ∧ floatnumber l = Some (d * 10 ^ j, x - j)) ∧
  (∃ c l', l = c :: l' ∧ is_digit c = true) ∧
  Forall numchar l.
Proof.
  intros Hne Hdig Hval. cbn zeta. unfold layout_chars.
  set (L := Z.of_nat (length dl)).
  assert (HLdef : L = Z.of_nat (length dl)) by reflexivity. clearbody L.
  destruct dl as [|c0 dl0] eqn:Edl; [congruence|].
  assert (Hc0 : is_digit c0 = true) by (apply Forall_cons in Hdig as [H _]; exact H).
  assert (Hdl0 : Forall (λ c, is_digit c = true) dl0)
    by (apply Forall_cons in Hdig as [_ H]; exact H).
  assert (HL : L = 1 + Z.of_nat (length dl0)) by (rewrite HLdef; cbn [length]; lia).
  rewrite <- Edl in *.
  set (decpt := L + x).
  destruct ((decpt <=? -4) || (16 <? decpt)) eqn:Eexp.
  - (* exponent form *)
    cbn zeta. set (e := decpt - 1).
    assert (He : 0 < Z.abs e).
    { apply orb_true_iff in Eexp as [H|H]; [apply Z.leb_le in H|apply Z.ltb_lt in H];
        unfold e; lia. }
    destruct (two_digits_chars (Z.abs e) He) as (Hne2 & Hd2 & Hv2). cbn zeta in *.
    set (ed := list_ascii_of_string (two_digits (Z.abs e))) in *.
    assert (Hv2' : (if e <? 0 then - dval_from 0 ed else dval_from 0 ed) = e).
    { rewrite Hv2. destruct (Z.ltb_spec e 0); lia. }
    assert (Ht1 : take 1 dl = [c0]) by (rewrite Edl; reflexivity).
    assert (Hd1 : drop 1 dl = dl0) by (rewrite Edl; reflexivity).
    rewrite Ht1, Hd1.
    destruct (Z.ltb_spec 1 L) as [HL1|HL1].
    + assert (Hne0 : dl0 ≠ []).
      { intros E0. rewrite E0 in HL. simpl in HL. lia. }
      split; [|split].
      * exists 0. split; [lia|].
        change ([c0] ++ ("."%char :: dl0) ++ "e"%char
                  :: (if e <? 0 then "-"%char else "+"%char) :: ed)
          with ([c0] ++ "."%char :: dl0 ++ "e"%char
                  :: (if e <? 0 then "-"%char else "+"%char) :: ed).
        rewrite (floatnumber_point_exp [c0] dl0 (e <? 0) ed);
          try assumption; try discriminate; [|constructor; [assumption|constructor]].
        rewrite Hv2'. f_equal. f_equal.
        -- rewrite Z.pow_0_r, Z.mul_1_r, <- Hval, Edl.
           change (c0 :: dl0) with ([c0] ++ dl0). rewrite dval_app. reflexivity.
        -- unfold e, decpt. lia.
      * exists c0. eexists. split; [reflexivity|assumption].
      * apply Forall_app. split; [constructor; [left; assumption|constructor]|].
        apply Forall_app. split.
        -- constructor; [right; left; reflexivity|apply digits_numchar; assumption].
        -- constructor; [right; right; left; reflexivity|].
           constructor; [destruct (e <? 0); unfold numchar; auto|].
           apply digits_numchar. assumption.
    + assert (Hdl0' : dl0 = []).
      { destruct dl0; [reflexivity|]. cbn [length] in HL. lia. }
      cbn [app].
      split; [|split].
      * exists 0. split; [lia|].
        change (c0 :: "e"%char :: (if e <? 0 then "-"%char else "+"%char) :: ed)
          with ([c0] ++ "e"%char :: (if e <? 0 then "-"%char else "+"%char) :: ed).
        rewrite (floatnumber_exp [c0] (e <? 0) ed);
          try assumption; try discriminate; [|constructor; [assumption|constructor]].
        rewrite Hv2'. f_equal. f_equal.
        -- rewrite Z.pow_0_r, Z.mul_1_r, <- Hval, Edl, Hdl0'. reflexivity.
        -- rewrite Hdl0' in HL. cbn [length] in HL. unfold e, decpt. lia.
      * exists c0. eexists. split; [reflexivity|assumption].
      * constructor; [left; assumption|].
        constructor; [right; right; left; reflexivity|].
        constructor; [destruct (e <? 0); unfold numchar; auto|].
        apply digits_numchar. assumption.
  - apply orb_false_iff in Eexp as [Hlo Hhi].
    apply Z.leb_gt in Hlo. apply Z.ltb_ge in Hhi.
    destruct (Z.leb_spec decpt 0) as [Hd0|Hd0].
    + (* a fraction below one *)
      set (zs := replicate (Z.to_nat (- decpt)) "0"%char).
      assert (Hzs : Forall (λ c, is_digit c = true) (zs ++ dl))
        by (apply Forall_app; split; [apply digits_zeros|assumption]).
      split; [|split].
      * exists 0. split; [lia|].
        change ("0"%char :: "."%char :: zs ++ dl)
          with (["0"%char] ++ "."%char :: zs ++ dl).
        rewrite (floatnumber_point ["0"%char] (zs ++ dl)); try assumption;
          try discriminate; [| |constructor; [reflexivity|constructor]].
        -- f_equal. f_equal.
           ++ rewrite dval_app, (dval_zeros (Z.to_nat (- decpt)) : dval_from 0 zs = 0), Hval.
              change (dval_from 0 ["0"%char]) with 0. lia.
           ++ rewrite length_app. unfold zs. rewrite length_replicate.
              unfold decpt in *. lia.
        -- rewrite Edl. destruct zs; discriminate.
      * eexists _, _. split; [reflexivity|reflexivity].
      * constructor; [left; reflexivity|].
        constructor; [right; left; reflexivity|]. apply digits_numchar. assumption.
    + destruct (Z.leb_spec L decpt) as [HLd|HLd].
      * (* an integer with a zero fraction *)
        set (zs := replicate (Z.to_nat (decpt - L)) "0"%char).
        rewrite app_assoc.
        assert (Hip : Forall (λ c, is_digit c = true) (dl ++ zs))
          by (apply Forall_app; split; [assumption|apply digits_zeros]).
        split; [|split].
        -- exists (x + 1). split; [unfold decpt in *; lia|].
           rewrite (floatnumber_point (dl ++ zs) ["0"%char]); try assumption;
             try discriminate; [| |constructor; [reflexivity|constructor]].
           ++ f_equal. f_equal; [|cbn [length]; lia].
              rewrite dval_app, (dval_zeros (Z.to_nat (decpt - L)) : dval_from 0 zs = 0), Hval.
              unfold zs. rewrite length_replicate. cbn [length dval_from fold_left].
              replace (Z.of_nat (Z.to_nat (decpt - L))) with x
                by (unfold decpt in *; lia).
              rewrite Z.pow_add_r by (unfold decpt in *; lia).
              change (Z.of_nat 1) with 1.
              change (default 0 (digit_of "0")) with 0. lia.
           ++ rewrite Edl. discriminate.
        -- rewrite Edl. eexists _, _. split; [reflexivity|assumption].
        -- apply Forall_app. split; [apply digits_numchar; assumption|].
           constructor; [right; left; reflexivity|].
           constructor; [left; reflexivity|constructor].
      * (* the point within the digits *)
        set (k := Z.to_nat decpt).
        assert (Hk : (0 < k < length dl)%nat) by (unfold k in *; lia).
        assert (Hipd : Forall (λ c, is_digit c = true) (take k dl))
          by (apply Forall_take; assumption).
        assert (Hfpd : Forall (λ c, is_digit c = true) (drop k dl))
          by (apply Forall_drop; assumption).
        split; [|split].
        -- exists 0. split; [lia|].
           rewrite (floatnumber_point (take k dl) (drop k dl)); try assumption.
           ++ f_equal. f_equal.
              ** rewrite <- dval_app, take_drop, Hval. lia.
              ** rewrite length_drop. unfold k, decpt in *. lia.
           ++ rewrite Edl. destruct k; [lia|discriminate].
           ++ intros E0. apply (f_equal length) in E0.
              rewrite length_drop in E0. simpl in E0. lia.
        -- rewrite Edl. destruct k as [|k']; [lia|].
           eexists _, _. split; [reflexivity|assumption].
        -- apply Forall_app. split; [apply digits_numchar; assumption|].
           constructor; [right; left; reflexivity|apply digits_numchar; assumption].
Qed.

End FloatText.

(** ** [float(repr(x)) == x] *)

Section ReprRoundTrip.

Local Open Scope Z_scope.
Local Open Scope list_scope.
Local Opaque Float.one Float.overflow.

Lemma nearest_opp a b : 0 < b → nearest (- a) b = - nearest a b.
Proof.
  intros Hb. unfold nearest.
  destruct (Z.ltb_spec (- a) 0), (Z.ltb_spec a 0); try lia.
  - rewrite Z.opp_involutive. reflexivity.
  - assert (a = 0) as -> by lia. change (- 0) with 0.
    pose proof (nearest_ext 0 b (0 * 2 ^ 0) 1 Hb ltac:(lia) ltac:(lia)) as Hz.
    rewrite (nearest_exact 0 0) in Hz by lia. unfold nearest in Hz.
    destruct (Z.ltb_spec 0 0); [lia|]. lia.
Qed.

Lemma of_ratio_opp a b : 0 < b → of_ratio (- a) b = neg (of_ratio a b).
Proof.
  intros Hb. pose proof overflow_pos. unfold of_ratio.
  rewrite nearest_opp, Z.abs_opp by assumption.
  destruct (Z.leb_spec overflow (Z.abs (nearest a b))); simpl; [|reflexivity].
  f_equal. destruct (Z.ltb_spec (- nearest a b) 0), (Z.ltb_spec (nearest a b) 0);
    try reflexivity; lia.
Qed.

Lemma of_decimal_opp m e : of_decimal (- m) e = neg (of_decimal m e).
Proof.
  unfold of_decimal. destruct (Z.leb_spec 0 e).
  - rewrite <- of_ratio_opp by lia. f_equal. ring.
  - destruct (pow10_pos (- e)) as [Hp|Hp]; [|lia].
    rewrite <- of_ratio_opp by assumption. f_equal. ring.
Qed.

(** The digits and the exponent that [repr] finds for a positive binary64
    number. *)
Lemma repr_digits a :
  0 < a → nearest a 1 = a → Z.abs a < overflow →
  let sd := shortest_digits 16 1 a (decimal_exponent a) in
  let dz := drop_zeros 17 sd.1 sd.2 in
  0 < dz.1 ∧ of_decimal dz.1 dz.2 = Ffin a.
Proof.
  intros Ha Hbin Hfin sd dz.
  assert (Hrb : reads_back dz.1 dz.2 a = true).
  { apply drop_zeros_reads_back, shortest_digits_reads_back; try assumption;
      [|reflexivity].
    apply decimal_exponent_reached. lia. }
  split; [eapply reads_back_pos; eassumption|apply reads_back_spec, Hrb].
Qed.

(** The text of a numeral for the digits [d] and the exponent [x], with a
    sign or none, reads as the float that [d * 10^x] denotes. *)
Lemma numeral_reads (sgn : bool) d x :
  0 < d →
  let ds := str_of_Z d in
  let s := (if sgn then "-" else EmptyString)
           +:+ layout ds (Z.of_nat (String.length ds) + x) in
  float_of_string s = Some (of_decimal (if sgn then - d else d) x) ∧
  replace_comma s = s.
Proof.
  intros Hd ds s. destruct d as [|p|p]; try lia.
  destruct (str_of_pos p) as (Hne & Hdig & Hval). cbn zeta in *. fold ds in Hne, Hdig, Hval.
  destruct (layout_chars_reads (list_ascii_of_string ds) (Z.pos p) x Hne Hdig Hval)
    as ((j & Hj & Hfn) & (c & l' & Hl & Hc) & Hnum).
  rewrite chars_length, <- layout_chars_eq in Hfn, Hl, Hnum.
  set (body := layout ds (Z.of_nat (String.length ds) + x)) in *.
  destruct (numchar_plain _ Hnum) as [Hsp Hco].
  assert (Hs : list_ascii_of_string s
               = (if sgn then ["-"%char] else []) ++ list_ascii_of_string body).
  { unfold s. rewrite list_ascii_of_string_app. destruct sgn; reflexivity. }
  split.
  - unfold float_of_string. rewrite Hs.
    rewrite strip_plain
      by (apply Forall_app; split; [destruct sgn; repeat constructor|assumption]).
    assert (Hss : sign_split ((if sgn then ["-"%char] else [])
                              ++ list_ascii_of_string body)
                  = (sgn, list_ascii_of_string body)).
    { destruct sgn; [reflexivity|]. rewrite Hl. apply sign_split_digit, Hc. }
    rewrite Hss, Hl. destruct (not_a_word c l' Hc) as [-> ->].
    rewrite <- Hl, Hfn. f_equal.
    replace (if sgn then - (Z.pos p * 10 ^ j) else Z.pos p * 10 ^ j)
      with ((if sgn then - Z.pos p else Z.pos p) * 10 ^ j)
      by (destruct sgn; ring).
    rewrite of_decimal_pow by assumption. f_equal. lia.
  - apply replace_comma_plain. rewrite Hs. apply Forall_app.
    split; [destruct sgn; repeat constructor; discriminate|assumption].
Qed.

(** The text that [repr] writes for a binary64 number reads back as that
    number, and holds no comma. *)
Lemma repr_float_reads f :
  is_binary64 f = true →
  float_of_string (repr_float f) = Some f ∧
  replace_comma (repr_float f) = repr_float f.
Proof.
  intros Hf. destruct f as [|s|n].
  - split; reflexivity.
  - destruct s; split; reflexivity.
  - cbn [is_binary64] in Hf. apply andb_true_iff in Hf as [Hbin Hfin].
    apply Z.eqb_eq in Hbin. apply Z.ltb_lt in Hfin.
    destruct n as [|p|p].
    + split; vm_compute; reflexivity.
    + destruct (repr_digits (Z.pos p) ltac:(lia) Hbin Hfin) as [Hd Hrb].
      cbn zeta in Hd, Hrb. unfold repr_float.
      change (Z.abs (Z.pos p)) with (Z.pos p).
      destruct (shortest_digits 16 1 (Z.pos p) (decimal_exponent (Z.pos p)))
        as [d0 x0].
      cbn [fst snd] in Hd, Hrb. destruct (drop_zeros 17 d0 x0) as [d x].
      cbn [fst snd] in Hd, Hrb.
      change (Z.pos p <? 0) with false. cbn iota.
      destruct (numeral_reads false d x Hd) as [H1 H2]. cbn zeta in H1, H2.
      rewrite H1, H2, Hrb. auto.
    + assert (Hbin' : nearest (Z.pos p) 1 = Z.pos p).
      { change (Z.neg p) with (- Z.pos p) in Hbin.
        rewrite nearest_opp in Hbin by lia. lia. }
      destruct (repr_digits (Z.pos p) ltac:(lia) Hbin' Hfin) as [Hd Hrb].
      cbn zeta in Hd, Hrb. unfold repr_float.
      change (Z.abs (Z.neg p)) with (Z.pos p).
      destruct (shortest_digits 16 1 (Z.pos p) (decimal_exponent (Z.pos p)))
        as [d0 x0].
      cbn [fst snd] in Hd, Hrb. destruct (drop_zeros 17 d0 x0) as [d x].
      cbn [fst snd] in Hd, Hrb.
      change (Z.neg p <? 0) with true. cbn iota.
      destruct (numeral_reads true d x Hd) as [H1 H2]. cbn zeta in H1, H2.
      rewrite H1, H2, of_decimal_opp, Hrb. auto.
Qed.

(** Correct rounding yields binary64 numbers. *)
Lemma round53_binary64 a b :
  0 ≤ a → 0 < b → nearest (round53 a b) 1 = round53 a b.
Proof.
  intros Ha Hb. unfold round53. set (k := ulp_exp a b).
  assert (Hk : 0 ≤ k) by apply ulp_exp_nonneg.
  pose proof (significand_upper a b Ha Hb) as Hu. fold k in Hu.
  assert (Hp : 0 < 2 ^ k) by (apply Z.pow_pos_nonneg; lia).
  assert (Hm : 0 ≤ round_half_even a (b * 2 ^ k)).
  { rewrite <- (round_half_even_exact 0 (b * 2 ^ k)) by nia.
    apply round_half_even_mono; nia. }
  set (m := round_half_even a (b * 2 ^ k)) in *.
  destruct (Z.eq_dec m (2 ^ 53)) as [->|Hne].
  - rewrite <- Z.pow_add_r by lia. rewrite <- (Z.mul_1_l (2 ^ (53 + k))).
    apply nearest_exact; [|lia]. apply Z.ltb_lt. reflexivity.
  - apply nearest_exact; lia.
Qed.

Lemma of_ratio_binary64 a b : 0 < b → is_binary64 (of_ratio a b) = true.
Proof.
  intros Hb. unfold of_ratio.
  destruct (Z.leb_spec overflow (Z.abs (nearest a b))) as [|Hfin]; [reflexivity|].
  cbn [is_binary64]. apply andb_true_iff. split; [|apply Z.ltb_lt; assumption].
  apply Z.eqb_eq. unfold nearest at 2 3. destruct (Z.ltb_spec a 0).
  - rewrite nearest_opp by lia. rewrite round53_binary64 by lia. reflexivity.
  - apply round53_binary64; assumption.
Qed.

(** Every float that [float] reads from a text is a binary64 number. *)
Lemma float_of_string_binary64 s f :
  float_of_string s = Some f → is_binary64 f = true.
Proof.
  unfold float_of_string. destruct (sign_split _) as [sg l].
  destruct (_ || _); [intros [= <-]; reflexivity|].
  destruct (String.eqb _ "nan"); [intros [= <-]; reflexivity|].
  destruct (floatnumber l) as [[m e]|]; [|discriminate].
  intros [= <-]. unfold of_decimal. destruct (Z.leb_spec 0 e).
  - apply of_ratio_binary64. lia.
  - apply of_ratio_binary64. apply Z.pow_pos_nonneg; lia.
Qed.

Lemma one_binary64 : is_binary64 (Ffin one) = true.
Proof.
  pose proof one_below_overflow. pose proof one_pos. cbn [is_binary64].
  rewrite nearest_one, Z.eqb_refl. apply Z.ltb_lt. lia.
Qed.

(** The weight that the third loop of [build_graph] stores is a binary64
    number. *)
Lemma normalized_weight_binary64 d : is_binary64 (normalized_weight d) = true.
Proof.
  unfold normalized_weight. destruct (d !! "weight") as [w|]; [|apply one_binary64].
  cbn [py_float].
  destruct (float_of_string _) as [f|] eqn:E; [|apply one_binary64].
  eapply float_of_string_binary64, E.
Qed.

(** The text of a binary64 float reads back as the float, also through
    [replace(",", ".")]. *)
Lemma float_text_reads f :
  is_binary64 f = true →
  py_float (PStr (replace_comma (py_str (PFloat f)))) = Ok f.
Proof.
  intros Hf. destruct (repr_float_reads f Hf) as [H1 H2].
  cbn [py_str py_float]. rewrite H2, H1. reflexivity.
Qed.

End ReprRoundTrip.

(** * The claims *)

Section Claims.

Local Open Scope Z_scope.

(** Decide a closed decidable proposition by evaluation. *)
Ltac by_compute :=
  match goal with
  | |- ?P => refine (@bool_decide_unpack P _ _); vm_compute; exact I
  end.

(** At the bounds [2^53] and [2^53 + 1] the two floats are equal and the
    quotient in [linear_color] divides by zero. *)
Lemma linear_color_equal_bounds value :
  (∃ f, py_float value = Ok f ∧ is_nan f = false) →
  linear_color value (2 ^ 53) (2 ^ 53 + 1) PALETTE = Raise ZeroDivisionError.
Proof.
  intros (f & Hf & Hn). unfold linear_color.
  assert (Hmiss : match value with
                  | PNone => Ok true
                  | _ => f ← py_float value; Ok (is_nan f)
                  end = Ok false).
  { destruct value; try discriminate; rewrite Hf, bind_ok; congruence. }
  rewrite Hmiss, bind_ok.
  replace (2 ^ 53 + 1 <=? 2 ^ 53) with false by (vm_compute; reflexivity).
  rewrite Hf, bind_ok.
  replace (float_of_Z (2 ^ 53)) with (Ok (Ffin (2 ^ 53 * one)))
    by (vm_compute; reflexivity).
  replace (float_of_Z (2 ^ 53 + 1)) with (Ok (Ffin (2 ^ 53 * one)))
    by (vm_compute; reflexivity).
  rewrite !bind_ok.
  replace (sub (Ffin (2 ^ 53 * one)) (Ffin (2 ^ 53 * one))) with (Ffin 0)
    by (vm_compute; reflexivity).
  reflexivity.
Qed.

(** C1 (as amended).  For every value that is [None] or that [float]
    converts, and integer bounds [vmin], [vmax]: [linear_color] returns the
    first palette entry when the value is [None] or NaN, or when
    [vmax <= vmin]; otherwise, when [float(vmax) - float(vmin)] is finite and
    not zero, it returns the palette entry at the index obtained by
    normalizing the value linearly, clamping to [[0, 1]], scaling to
    [[0, 9]], rounding to a nearest integer and clamping the index into
    bounds.  When every node has the same connectivity and [build_graph]
    returns, every node that the layout positions has the first palette
    colour. *)
Theorem linear_color_contract :
  (∀ (value : pyval) (vmin vmax : Z),
     (value = PNone ∨ py_float value = Ok Fnan →
      linear_color value vmin vmax PALETTE = Ok "#5e4fa2") ∧
     (∀ f, py_float value = Ok f → vmax ≤ vmin →
      linear_color value vmin vmax PALETTE = Ok "#5e4fa2") ∧
     (∀ f, py_float value = Ok f → f ≠ Fnan → vmin < vmax →
      range_ok vmin vmax = true →
      ∃ lo hi i c,
        float_of_Z vmin = Ok lo ∧ float_of_Z vmax = Ok hi ∧
        spec_index f lo hi i ∧ 0 ≤ i ≤ 9 ∧
        PALETTE !! Z.to_nat i = Some c ∧
        linear_color value vmin vmax PALETTE = Ok c)) ∧
  (∀ G pos G' c,
     NoDup (nodes G).*1 → build_graph G pos = Ok G' →
     (∀ nd, nd ∈ nodes G → connectivity G nd = c) →
     ∀ n d', n ∈ pos.*1 → (n, d') ∈ nodes G' →
       d' !! "color" = Some (PStr "#5e4fa2")).
Proof.
  split; [|exact same_connectivity_first_color].
  intros value vmin vmax. split; [|split].
  - intros [->|Hnan].
    + apply linear_color_missing.
    + apply linear_color_nan. assumption.
  - intros f Hf Hle. eapply linear_color_degenerate; eassumption.
  - intros f Hf Hnan Hlt Hr.
    destruct (range_ok_inv _ _ Hlt Hr) as (l & h & d & Hl & Hh & Hd & Hd0 & _).
    destruct (linear_color_in_range value f vmin vmax l h d Hf Hnan Hlt Hl Hh Hd Hd0)
      as (t & m & c & Et & Htr & Em & Hmr & Ec & Hc).
    pose proof (round_units_range m Hmr) as Hir.
    exists (Ffin l), (Ffin h), (round_units m), c.
    unfold float_of_Z. rewrite Hl, Hh.
    repeat split; try assumption; try lia.
    exists (round_units m). split.
    + unfold spec_normalize, spec_scale. rewrite Hd, Et.
      change ((10 - 1) * one) with (9 * one). rewrite Em.
      apply round_units_nearest.
    + unfold spec_clamp_index. lia.
Qed.

Lemma linear_color_contract_witness :
  ∃ lo hi i c,
    float_of_Z 0 = Ok lo ∧ float_of_Z 10 = Ok hi ∧
    spec_index (Ffin (3 * one)) lo hi i ∧ 0 ≤ i ≤ 9 ∧
    PALETTE !! Z.to_nat i = Some c ∧
    linear_color (PInt 3) 0 10 PALETTE = Ok c.
Proof.
  destruct linear_color_contract as [H _].
  destruct (H (PInt 3) 0 10) as (_ & _ & H3).
  apply (H3 (Ffin (3 * one))).
  - vm_compute. reflexivity.
  - discriminate.
  - lia.
  - vm_compute. reflexivity.
Defined.

(** C1 as stated fails: with [vmin = 2^53 < vmax = 2^53 + 1] and the value
    [0], which is neither missing nor NaN, [linear_color] returns no palette
    entry: it raises ZeroDivisionError. *)
Lemma linear_color_contract_counterexample :
  2 ^ 53 < 2 ^ 53 + 1 ∧
  py_float (PInt 0) = Ok (Ffin 0) ∧
  linear_color (PInt 0) (2 ^ 53) (2 ^ 53 + 1) PALETTE = Raise ZeroDivisionError.
Proof.
  split; [lia|]. split; [vm_compute; reflexivity|].
  apply linear_color_equal_bounds. exists (Ffin 0).
  split; [vm_compute; reflexivity|reflexivity].
Qed.

Lemma linear_color_monotone_witness :
  ∃ (ia ib : nat) (ca cb : string),
    linear_color (PInt 3) 0 10 PALETTE = Ok ca ∧
    linear_color (PFloat (of_dyadic 15 (-1))) 0 10 PALETTE = Ok cb ∧
    PALETTE !! ia = Some ca ∧ PALETTE !! ib = Some cb ∧ (ia ≤ ib)%nat.
Proof.
  apply (linear_color_monotone 0 10 (PInt 3) (PFloat (of_dyadic 15 (-1)))
           (3 * one) (15 * 2 ^ 1073)).
  - lia.
  - vm_compute. reflexivity.
  - reflexivity.
  - vm_compute. reflexivity.
  - vm_compute. discriminate.
  - vm_compute. discriminate.
  - vm_compute. discriminate.
Defined.

(** C2 as stated fails: [2^53 <= 2^53 + 1] both lie within the bounds
    [vmin = 2^53 < vmax = 2^53 + 1], and [linear_color] assigns neither of
    them a palette index: it raises ZeroDivisionError on both. *)
Lemma linear_color_monotone_counterexample :
  2 ^ 53 < 2 ^ 53 + 1 ∧
  linear_color (PInt (2 ^ 53)) (2 ^ 53) (2 ^ 53 + 1) PALETTE
    = Raise ZeroDivisionError ∧
  linear_color (PInt (2 ^ 53 + 1)) (2 ^ 53) (2 ^ 53 + 1) PALETTE
    = Raise ZeroDivisionError.
Proof.
  split; [lia|].
  split; apply linear_color_equal_bounds; eexists;
    (split; [vm_compute; reflexivity|reflexivity]).
Qed.

(** C7 (as amended).  When no weight in the edge table is NaN, its rows are
    ordered by weight descending, then shared-neighbour count descending,
    then display string ascending; in particular, of two rows with equal
    weight the one that comes first has at least the shared-neighbour
    count of the other. *)
Theorem edge_table_sorted (G : graph) (id_to_label : gmap string string)
    (rows : list row) :
  compute_common_neighbors_table G id_to_label = Ok rows →
  Forall (λ r, colabs r ≠ Fnan) rows →
  StronglySorted row_order rows ∧
  ∀ (i j : nat) r1 r2,
    (i < j)%nat → rows !! i = Some r1 → rows !! j = Some r2 →
    colabs r1 = colabs r2 → comuns r2 ≤ comuns r1.
Proof.
  intros Hrun Hnan. apply table_inv in Hrun as (rs & _ & ->).
  assert (Hs : StronglySorted row_order (sort_rows rs)).
  { apply sort_rows_sorted. rewrite <- (sort_rows_perm rs). assumption. }
  split; [assumption|].
  intros i j r1 r2 Hij Hi Hj Hw.
  destruct (strongly_sorted_lookup _ i j r1 r2 Hs Hij Hi Hj) as [Hlt|[_ [Hc|[Hc _]]]].
  - rewrite Hw, ltb_irrefl in Hlt. discriminate.
  - lia.
  - lia.
Qed.

Lemma edge_table_sorted_witness :
  ∃ rows,
    compute_common_neighbors_table G_abc ∅ = Ok rows ∧
    StronglySorted row_order rows ∧
    ∀ (i j : nat) r1 r2,
      (i < j)%nat → rows !! i = Some r1 → rows !! j = Some r2 →
      colabs r1 = colabs r2 → comuns r2 ≤ comuns r1.
Proof.
  eexists. split; [vm_compute; reflexivity|].
  apply (edge_table_sorted G_abc ∅).
  - vm_compute. reflexivity.
  - repeat constructor; discriminate.
Defined.

(** The example of section 8: with equal weights 5, the row with three
    shared neighbours sorts before the row with two. *)
Example sort_rows_tie :
  sort_rows [ {| aresta := "A, B"; colabs := of_dyadic 5 0; comuns := 2 |};
              {| aresta := "A, C"; colabs := of_dyadic 5 0; comuns := 3 |} ]
  = [ {| aresta := "A, C"; colabs := of_dyadic 5 0; comuns := 3 |};
      {| aresta := "A, B"; colabs := of_dyadic 5 0; comuns := 2 |} ].
Proof. vm_compute. reflexivity. Qed.

(** C7 as stated fails: with the weights NaN and 5 the table lists the NaN
    row first, and the two rows are not in descending order of weight. *)
Lemma edge_table_sorted_counterexample :
  ∃ r1 r2,
    compute_common_neighbors_table G_nan ∅ = Ok [r1; r2] ∧
    colabs r1 = Fnan ∧ colabs r2 = of_dyadic 5 0 ∧
    ¬ row_order r1 r2 ∧ ¬ StronglySorted row_order [r1; r2].
Proof.
  eexists _, _. split; [vm_compute; reflexivity|].
  split; [reflexivity|]. split; [reflexivity|].
  assert (Hno : ¬ row_order
                    {| aresta := "A, B"; colabs := Fnan; comuns := 0 |}
                    {| aresta := "A, C"; colabs := of_dyadic 5 0; comuns := 0 |}).
  { intros [H|[H _]]; simpl in H; discriminate. }
  split; [exact Hno|].
  intros Hs. apply StronglySorted_inv in Hs as [_ Hall].
  apply Forall_cons in Hall as [H _]. exact (Hno H).
Qed.

(** C3: the code at the failing input.  The first loop of [build_graph]
    normalizes the connectivity ["3,5"] to 3, as it does ["3.5"], but
    leaves the text in the node; the colour step then passes the text to
    [linear_color], whose [float(value)] rejects the comma: [build_graph]
    raises ValueError on ["3,5"] while it returns on ["3.5"]. *)
Theorem build_graph_comma_raises :
  connectivity G_comma ("A", {["Conexões" := PStr "3,5"]}) = 3 ∧
  connectivity G_dot ("A", {["Conexões" := PStr "3.5"]}) = 3 ∧
  (∃ G', build_graph G_dot pos_A = Ok G') ∧
  build_graph G_comma pos_A = Raise ValueError.
Proof.
  split; [vm_compute; reflexivity|]. split; [vm_compute; reflexivity|].
  split; [eexists; vm_compute; reflexivity|]. vm_compute. reflexivity.
Qed.

(** C4: the code at the failing input.  The pairs {a, ||b} and {a||, b} are
    two unordered endpoint pairs with the one key ["a||||b"]: the table
    has one row for the two of them. *)
Theorem edge_table_key_collision :
  edge_key "a" "||b" = edge_key "a||" "b" ∧
  size (endpoint_pairs G_bar) = 2%nat ∧
  ∃ rows, compute_common_neighbors_table G_bar ∅ = Ok rows ∧
          length rows = 1%nat.
Proof.
  split; [reflexivity|]. split; [vm_compute; reflexivity|].
  eexists. split; vm_compute; reflexivity.
Qed.

(** The example of section 8: the edges (A,B), (B,A), (A,C) give two rows. *)
Example edge_table_abc :
  ∃ rows, compute_common_neighbors_table G_abc ∅ = Ok rows ∧
          map aresta rows = ["A, B"; "A, C"] ∧
          size (endpoint_pairs G_abc) = 2%nat.
Proof.
  eexists. split; [vm_compute; reflexivity|].
  split; vm_compute; reflexivity.
Qed.

(** C5.  In a well-formed graph, every row of the edge table is built for
    an edge (u, v) of the graph, and its shared-neighbour count is the
    size of the intersection of the neighbour sets of [u] and [v] with [u]
    and [v] removed: the number of nodes other than [u] and [v] that are
    adjacent to both, whatever self-loops or mutual adjacency there are. *)
Theorem shared_neighbor_count (G : graph) (id_to_label : gmap string string)
    (rows : list row) :
  wf_graph G →
  compute_common_neighbors_table G id_to_label = Ok rows →
  ∀ r, r ∈ rows →
    ∃ u v d,
      (u, v, d) ∈ edges G ∧
      aresta r = display id_to_label (sorted2 u v).1 (sorted2 u v).2 ∧
      comuns r = Z.of_nat (size (shared_neighbors G u v)) ∧
      shared_neighbors G u v = (neighbors G u ∩ neighbors G v) ∖ {[u; v]} ∧
      (u ∉ shared_neighbors G u v) ∧ (v ∉ shared_neighbors G u v) ∧
      ∀ w, w ∈ shared_neighbors G u v ↔
           w ≠ u ∧ w ≠ v ∧ adjacent G u w ∧ adjacent G v w.
Proof.
  intros Hwf Hrun r Hr.
  destruct (table_rows G id_to_label rows Hrun) as [Hrows _].
  destruct (Hrows r Hr) as ([[u v] d] & He & Hrow).
  apply first_of_key_subseteq in He.
  destruct (row_of_inv G id_to_label u v d r Hwf He Hrow) as (Ha & _ & Hc).
  exists u, v, d.
  split; [assumption|]. split; [assumption|]. split; [assumption|].
  split; [reflexivity|]. split; [|split].
  - rewrite elem_of_shared_neighbors. tauto.
  - rewrite elem_of_shared_neighbors. tauto.
  - apply elem_of_shared_neighbors.
Qed.

Lemma shared_neighbor_count_witness :
  ∃ rows,
    compute_common_neighbors_table G_loop ∅ = Ok rows ∧
    map (λ r, (aresta r, comuns r)) rows
      = [("A, A", 2); ("A, B", 1); ("A, C", 1); ("B, C", 1)] ∧
    ∀ r, r ∈ rows →
      ∃ u v d,
        (u, v, d) ∈ edges G_loop ∧
        aresta r = display ∅ (sorted2 u v).1 (sorted2 u v).2 ∧
        comuns r = Z.of_nat (size (shared_neighbors G_loop u v)) ∧
        shared_neighbors G_loop u v
          = (neighbors G_loop u ∩ neighbors G_loop v) ∖ {[u; v]} ∧
        (u ∉ shared_neighbors G_loop u v) ∧ (v ∉ shared_neighbors G_loop u v) ∧
        ∀ w, w ∈ shared_neighbors G_loop u v ↔
             w ≠ u ∧ w ≠ v ∧ adjacent G_loop u w ∧ adjacent G_loop v w.
Proof.
  eexists. split; [vm_compute; reflexivity|].
  split; [vm_compute; reflexivity|].
  apply (shared_neighbor_count G_loop ∅).
  - split; by_compute.
  - vm_compute. reflexivity.
Defined.

(** C6.  After [build_graph] the edge table is always built, and the
    weight of each row is the normalized weight of the edge the row is
    built from, with [1.0] in place of a zero: a missing, an unparseable
    and a zero weight all give [1.0].  The row is built from the first
    edge yielded with its key: every edge has the row of its key, which
    carries the weight of that first edge, and this is the edge's own
    weight when no two edges have the same key. *)
Theorem edge_weight_fallback (G : graph) (pos : list (string * (float * float)))
    (G' : graph) (id_to_label : gmap string string) :
  build_graph G pos = Ok G' →
  ∃ rows,
    compute_common_neighbors_table G' id_to_label = Ok rows ∧
    (∀ r, r ∈ rows →
       ∃ u v d, (u, v, d) ∈ first_of_key ∅ (edges G) ∧
         aresta r = display id_to_label (sorted2 u v).1 (sorted2 u v).2 ∧
         colabs r = table_weight d) ∧
    (∀ u v d, (u, v, d) ∈ first_of_key ∅ (edges G) →
       ∃ r, r ∈ rows ∧
         aresta r = display id_to_label (sorted2 u v).1 (sorted2 u v).2 ∧
         colabs r = table_weight d) ∧
    (∀ u v d, (u, v, d) ∈ edges G →
       ∃ u0 v0 d0 r,
         (u0, v0, d0) ∈ first_of_key ∅ (edges G) ∧
         edge_key u0 v0 = edge_key u v ∧ r ∈ rows ∧
         aresta r = display id_to_label (sorted2 u0 v0).1 (sorted2 u0 v0).2 ∧
         colabs r = table_weight d0) ∧
    (NoDup (map (λ e, edge_key e.1.1 e.1.2) (edges G)) →
     first_of_key ∅ (edges G) = edges G) ∧
    (∀ d, d !! "weight" = None → table_weight d = Ffin one) ∧
    (∀ d w e, d !! "weight" = Some w →
       py_float (PStr (replace_comma (py_str w))) = Raise e →
       table_weight d = Ffin one) ∧
    (∀ d w, d !! "weight" = Some w →
       py_float (PStr (replace_comma (py_str w))) = Ok (Ffin 0) →
       table_weight d = Ffin one) ∧
    (∀ d w f, d !! "weight" = Some w →
       py_float (PStr (replace_comma (py_str w))) = Ok f → f ≠ Ffin 0 →
       table_weight d = f).
Proof.
  intros Hrun. apply build_graph_edges in Hrun as Hedges.
  assert (Hall : ∀ e, e ∈ first_of_key ∅ (edges G') →
                      ∃ r, row_of G' id_to_label e = Ok r).
  { intros e He. rewrite Hedges, first_of_key_weight_step in He.
    apply list_elem_of_fmap in He as ([[u v] d] & -> & _).
    destruct (row_of_weight_step G' id_to_label u v d) as (r & Hr & _). eauto. }
  apply map_result_total in Hall as [rs Hrs].
  assert (Htab : compute_common_neighbors_table G' id_to_label = Ok (sort_rows rs)).
  { unfold compute_common_neighbors_table. rewrite edge_rows_eq, Hrs. reflexivity. }
  exists (sort_rows rs). split; [assumption|].
  destruct (table_rows G' id_to_label _ Htab) as [Hfrom Hto].
  assert (Hfirst : ∀ u v d, (u, v, d) ∈ first_of_key ∅ (edges G) →
            ∃ r, r ∈ sort_rows rs ∧
              aresta r = display id_to_label (sorted2 u v).1 (sorted2 u v).2 ∧
              colabs r = table_weight d).
  { intros u v d He.
    destruct (row_of_weight_step G' id_to_label u v d) as (r & Hr & Ha & Hw).
    destruct (Hto (weight_step (u, v, d))) as (r' & Hin & Hr').
    { rewrite Hedges, first_of_key_weight_step.
      apply list_elem_of_fmap. exists (u, v, d). split; [reflexivity|assumption]. }
    assert (r' = r) as -> by congruence. exists r. auto. }
  split; [|split; [exact Hfirst|split; [|split]]].
  - intros r Hr. destruct (Hfrom r Hr) as (e & He & Hrow).
    rewrite Hedges, first_of_key_weight_step in He.
    apply list_elem_of_fmap in He as ([[u v] d] & -> & He).
    destruct (row_of_weight_step G' id_to_label u v d) as (r' & Hr' & Ha & Hw).
    assert (r' = r) as -> by congruence. exists u, v, d. auto.
  - intros u v d He.
    destruct (first_of_key_covers ∅ (edges G) (u, v, d) He)
      as ([[u0 v0] d0] & He0 & Hkey); [apply not_elem_of_empty|].
    destruct (Hfirst u0 v0 d0 He0) as (r & Hr & Ha & Hw).
    exists u0, v0, d0, r. auto.
  - intros Hnd. apply first_of_key_all; [assumption|].
    intros e _. apply not_elem_of_empty.
  - unfold table_weight, normalized_weight.
    repeat split.
    + intros d ->. reflexivity.
    + intros d w e -> ->. reflexivity.
    + intros d w -> ->. reflexivity.
    + intros d w f -> -> Hf. destruct f as [| |[|p|p]]; congruence.
Qed.

Lemma edge_weight_fallback_witness :
  ∃ rows,
    compute_common_neighbors_table G_abc' ∅ = Ok rows ∧
    (∀ r, r ∈ rows →
       ∃ u v d, (u, v, d) ∈ first_of_key ∅ (edges G_abc) ∧
         aresta r = display ∅ (sorted2 u v).1 (sorted2 u v).2 ∧
         colabs r = table_weight d) ∧
    (∀ u v d, (u, v, d) ∈ first_of_key ∅ (edges G_abc) →
       ∃ r, r ∈ rows ∧
         aresta r = display ∅ (sorted2 u v).1 (sorted2 u v).2 ∧
         colabs r = table_weight d) ∧
    (∀ u v d, (u, v, d) ∈ edges G_abc →
       ∃ u0 v0 d0 r,
         (u0, v0, d0) ∈ first_of_key ∅ (edges G_abc) ∧
         edge_key u0 v0 = edge_key u v ∧ r ∈ rows ∧
         aresta r = display ∅ (sorted2 u0 v0).1 (sorted2 u0 v0).2 ∧
         colabs r = table_weight d0) ∧
    (NoDup (map (λ e, edge_key e.1.1 e.1.2) (edges G_abc)) →
     first_of_key ∅ (edges G_abc) = edges G_abc) ∧
    (∀ d, d !! "weight" = None → table_weight d = Ffin one) ∧
    (∀ d w e, d !! "weight" = Some w →
       py_float (PStr (replace_comma (py_str w))) = Raise e →
       table_weight d = Ffin one) ∧
    (∀ d w, d !! "weight" = Some w →
       py_float (PStr (replace_comma (py_str w))) = Ok (Ffin 0) →
       table_weight d = Ffin one) ∧
    (∀ d w f, d !! "weight" = Some w →
       py_float (PStr (replace_comma (py_str w))) = Ok f → f ≠ Ffin 0 →
       table_weight d = f).
Proof.
  apply (edge_weight_fallback G_abc pos_abc G_abc' ∅).
  vm_compute. reflexivity.
Defined.

(** C6 as stated fails: of the edges (A,B), (B,A), (A,C) of section 8, the
    edge (B,A) has no weight and normalizes to [1.0], but the only row of
    its pair is the row of the edge (A,B) and carries 2.5: no row records
    the weight of the edge (B,A). *)
Lemma edge_weight_fallback_counterexample :
  build_graph G_abc pos_abc = Ok G_abc' ∧
  ("B", "A", ∅) ∈ edges G_abc ∧
  table_weight ∅ = Ffin one ∧
  ∃ rows,
    compute_common_neighbors_table G_abc' ∅ = Ok rows ∧
    map (λ r, (aresta r, colabs r)) rows
    = [("A, B", of_dyadic 5 (-1)); ("A, C", Ffin one)] ∧
    ¬ ∃ r, r ∈ rows ∧
        aresta r = display ∅ (sorted2 "B" "A").1 (sorted2 "B" "A").2 ∧
        colabs r = table_weight ∅.
Proof.
  split; [vm_compute; reflexivity|].
  split; [right; left|]. split; [reflexivity|].
  eexists. split; [vm_compute; reflexivity|].
  split; [vm_compute; reflexivity|].
  intros (r & Hr & Ha & Hw).
  apply elem_of_cons in Hr as [->|Hr].
  - vm_compute in Hw. discriminate.
  - apply elem_of_cons in Hr as [->|Hr].
    + vm_compute in Ha. discriminate.
    + apply elem_of_nil in Hr as [].
Qed.

(** The rows for four kinds of weight, once the nodes are positioned: the
    comma weight reads as 2.5; the zero, the missing and the unparseable
    weight each give 1. *)
Example edge_weight_rows :
  (rows ← compute_common_neighbors_table G_weights' ∅;
   Ok (map (λ r, (aresta r, colabs r)) rows))
  = Ok [("A, B", of_dyadic 5 (-1)); ("A, C", Ffin one);
        ("B, D", Ffin one); ("C, D", Ffin one)].
Proof. vm_compute. reflexivity. Qed.

(** C8.  [to_int] is the integer coercion of the specification with the
    fallback 0: the direct conversion when it succeeds; otherwise the float
    read from the text with comma as dot, truncated; otherwise 0.
    [to_float] is the float read from the text with comma as dot, and the
    missing marker [None], never 0, when that fails.  ["3,5"] coerces to
    the float 3.5, and ["abc"] coerces to the int 0. *)
Theorem coercions :
  (∀ x, to_int x = default 0 (coerce_int x)) ∧
  (∀ x z, py_int x = Ok z → to_int x = z) ∧
  (∀ x e n, py_int x = Raise e →
     float_of_string (replace_comma (py_str x)) = Some (Ffin n) →
     to_int x = Z.quot n one) ∧
  (∀ x e, py_int x = Raise e →
     (∀ n, float_of_string (replace_comma (py_str x)) ≠ Some (Ffin n)) →
     to_int x = 0) ∧
  (∀ x, to_float x = coerce_float x) ∧
  (∀ x f, float_of_string (replace_comma (py_str x)) = Some f →
     to_float x = Some f) ∧
  (∀ x, float_of_string (replace_comma (py_str x)) = None → to_float x = None) ∧
  to_float (PStr "3,5") = Some (of_dyadic 7 (-1)) ∧
  to_float (PStr "3.5") = Some (of_dyadic 7 (-1)) ∧
  to_int (PStr "3,5") = 3 ∧
  to_int (PStr "abc") = 0 ∧
  to_float (PStr "abc") = None ∧
  to_float (PStr "0") = Some (Ffin 0).
Proof.
  split; [exact to_int_coerce|].
  split. { intros x z Hi. unfold to_int. rewrite Hi. reflexivity. }
  split. { intros x e n Hi Hf. unfold to_int. cbn [py_float].
           rewrite Hi, Hf. reflexivity. }
  split. { intros x e Hi Hf. unfold to_int. cbn [py_float]. rewrite Hi.
           destruct (float_of_string (replace_comma (py_str x))) as [[| |n]|];
             try reflexivity. destruct (Hf n). reflexivity. }
  split; [exact to_float_coerce|].
  split. { intros x f Hf. unfold to_float. cbn [py_float]. rewrite Hf. reflexivity. }
  split. { intros x Hf. unfold to_float. cbn [py_float]. rewrite Hf. reflexivity. }
  repeat (split; [vm_compute; reflexivity|]). vm_compute. reflexivity.
Qed.

Lemma coercions_witness :
  to_int (PStr "12") = 12 ∧
  to_int (PStr "3,5") = Z.quot (7 * 2 ^ 1073) one ∧
  to_int (PStr "abc") = 0 ∧
  to_float (PStr "3,5") = Some (Ffin (7 * 2 ^ 1073)) ∧
  to_float (PStr "abc") = None.
Proof.
  destruct coercions as (_ & H1 & H2 & H3 & _ & H5 & H6 & _).
  split; [apply H1; reflexivity|].
  split; [apply (H2 _ ValueError); vm_compute; reflexivity|].
  split; [apply (H3 _ ValueError); [reflexivity|intros n; vm_compute; discriminate]|].
  split; [apply H5; vm_compute; reflexivity|].
  apply H6. vm_compute. reflexivity.
Defined.

(** C9.  When [build_graph] and then [graph_to_embeddable_json] return,
    every node of the graph has an entry, in order, whose connectivity is an
    int: the stored connectivity when it is present and coerces to an int,
    and the degree of the node otherwise.  The publication counts fall back
    to the fixed 0 and the ratio to the missing marker: connectivity is the
    only attribute that falls back to the graph. *)
Theorem node_connectivity (G : graph) (pos : list (string * (float * float)))
    (G' : graph) (r : pyval) (rep : report) :
  NoDup (nodes G).*1 →
  build_graph G pos = Ok G' →
  graph_to_embeddable_json G' r = Ok rep →
  length (graph_nodes rep) = length (nodes G) ∧
  vertex_table rep = map vertex_entry (graph_nodes rep) ∧
  ∀ (i : nat) n data, nodes G !! i = Some (n, data) →
    ∃ out,
      graph_nodes rep !! i = Some out ∧
      n_id out = n ∧
      n_conex out = default (degree G n) (data !! "Conexões" ≫= coerce_int) ∧
      n_pub_tot out = default 0 (data !! "Publicações_totais" ≫= coerce_int) ∧
      n_pub_coa out
        = default 0 (data !! "Publicações_em_coautoria" ≫= coerce_int) ∧
      n_prop out = data !! "Proporção_da_coautoria_Fiocruz" ≫= coerce_float.
Proof.
  intros Hnd Hbuild Hrep.
  destruct (build_graph_inv G pos G' Hnd Hbuild) as (_ & Hids & Hlk).
  destruct (report_inv G' r rep Hrep) as (Hns & _ & _ & Hvt).
  apply map_result_lookup in Hns as [Hlen Hout].
  split.
  { rewrite Hlen, <- (length_fmap fst (nodes G')), Hids, length_fmap. reflexivity. }
  split; [assumption|].
  intros i n data Hi.
  destruct (Hlk i (n, data) Hi) as ([n' d'] & Hi' & Hid & Hkeys & _).
  destruct (conexoes_step_spec G n data) as (_ & Hn & Hc & Hother).
  cbn [fst snd] in Hid, Hkeys. rewrite Hn in Hid. subst n'.
  destruct (Hout i (n, d') Hi') as (out & Hio & Hentry).
  apply node_entry_inv in Hentry as (E1 & E2 & E3 & E4 & E5 & _).
  exists out. split; [assumption|]. split; [assumption|].
  rewrite E2, E3, E4, E5. cbn [snd]. rewrite !Hkeys by done.
  split; [exact Hc|]. rewrite !Hother by done.
  rewrite !to_int_coerce, to_float_coerce.
  destruct (data !! "Publicações_totais"), (data !! "Publicações_em_coautoria"),
    (data !! "Proporção_da_coautoria_Fiocruz"); auto.
Qed.

Lemma node_connectivity_witness :
  length (graph_nodes report_conn) = length (nodes G_conn) ∧
  vertex_table report_conn = map vertex_entry (graph_nodes report_conn) ∧
  ∀ (i : nat) n data, nodes G_conn !! i = Some (n, data) →
    ∃ out,
      graph_nodes report_conn !! i = Some out ∧
      n_id out = n ∧
      n_conex out = default (degree G_conn n) (data !! "Conexões" ≫= coerce_int) ∧
      n_pub_tot out = default 0 (data !! "Publicações_totais" ≫= coerce_int) ∧
      n_pub_coa out
        = default 0 (data !! "Publicações_em_coautoria" ≫= coerce_int) ∧
      n_prop out = data !! "Proporção_da_coautoria_Fiocruz" ≫= coerce_float.
Proof.
  apply (node_connectivity G_conn pos_abc G_conn' (PFloat (of_dyadic 1 3))).
  - by_compute.
  - vm_compute. reflexivity.
  - vm_compute. reflexivity.
Defined.

(** The entries of the sample: the numeral is kept, the absent and the
    unparseable connectivity are the degree 2. *)
Example node_connectivity_sample :
  map (λ n, (n_id n, n_conex n, n_pub_tot n, n_prop n)) (graph_nodes report_conn)
  = [("A", 2, 12, Some (of_dyadic 7 (-1))); ("B", 2, 0, None); ("C", 2, 0, None)].
Proof. vm_compute. reflexivity. Qed.

(** C10.  When the stored coordinates that are present, the radius and the
    edge weights convert to floats, [graph_to_embeddable_json] returns, with
    one entry for each node, in order; a node without ["x"] or ["y"] is
    placed at 0.0, and a node without ["color"] has the colour
    ["#1f77b4"]. *)
Theorem missing_position_color (G : graph) (r : pyval) :
  Forall (λ nd, ∀ v, nd.2 !! "x" = Some v ∨ nd.2 !! "y" = Some v → float_ok v)
         (nodes G) →
  float_ok r →
  Forall (λ e, float_ok (py_or (default (PInt 1) (e.2 !! "weight")) (PInt 1)))
         (edges G) →
  ∃ rep,
    graph_to_embeddable_json G r = Ok rep ∧
    map n_id (graph_nodes rep) = (nodes G).*1 ∧
    ∀ (i : nat) n data, nodes G !! i = Some (n, data) →
      ∃ out,
        graph_nodes rep !! i = Some out ∧ n_id out = n ∧
        (data !! "x" = None → n_x out = Ffin 0) ∧
        (data !! "y" = None → n_y out = Ffin 0) ∧
        (data !! "color" = None → n_color out = PStr "#1f77b4").
Proof.
  intros Hxy Hr Hw. rewrite Forall_forall in Hxy. rewrite Forall_forall in Hw.
  assert (Hnodes : ∃ ns, map_result (node_entry r) (nodes G) = Ok ns).
  { apply map_result_total. intros [n data] Hin.
    specialize (Hxy _ Hin). simpl in Hxy.
    apply node_entry_total; [| |assumption].
    - destruct (data !! "x") as [v|] eqn:Ex; [apply Hxy; auto|].
      eexists. reflexivity.
    - destruct (data !! "y") as [v|] eqn:Ey; [apply Hxy; auto|].
      eexists. reflexivity. }
  destruct Hnodes as [ns Hns].
  assert (Hlinks : ∃ ls, map_result link_entry (edges G) = Ok ls).
  { apply map_result_total. intros [[u v] d] Hin.
    destruct (Hw _ Hin) as [f Hf]. simpl in Hf. unfold link_entry.
    rewrite Hf, bind_ok. eauto. }
  destruct Hlinks as [ls Hls].
  assert (Hrows : ∃ rows, compute_common_neighbors_table G (labels G) = Ok rows).
  { unfold compute_common_neighbors_table. rewrite edge_rows_eq.
    destruct (map_result_total (row_of G (labels G)) (first_of_key ∅ (edges G)))
      as [rs ->]; [|rewrite bind_ok; eauto].
    intros [[u v] d] Hin. apply first_of_key_subseteq in Hin.
    destruct (Hw _ Hin) as [f Hf]. simpl in Hf. unfold row_of.
    destruct (sorted2 u v). rewrite Hf, bind_ok. eauto. }
  destruct Hrows as [rows Hrows].
  eexists. split.
  { unfold graph_to_embeddable_json. rewrite Hns, Hls, Hrows, !bind_ok.
    reflexivity. }
  cbn [graph_nodes]. apply map_result_lookup in Hns as [Hlen Hout].
  split.
  - apply list_eq. intros i. rewrite !list_lookup_fmap.
    destruct (nodes G !! i) as [[n data]|] eqn:Ei.
    + destruct (Hout i _ Ei) as (out & -> & Hentry).
      apply node_entry_inv in Hentry as (E & _). simpl. rewrite E. reflexivity.
    + apply lookup_ge_None in Ei. rewrite <- Hlen in Ei.
      apply lookup_ge_None in Ei. rewrite Ei. reflexivity.
  - intros i n data Hi. destruct (Hout i _ Hi) as (out & Hio & Hentry).
    apply node_entry_inv in Hentry as (E1 & _ & _ & _ & _ & Ex & Ey & Ec).
    exists out. split; [assumption|]. split; [assumption|].
    split; [|split].
    + intros Hx. rewrite Hx in Ex. simpl in Ex. congruence.
    + intros Hy. rewrite Hy in Ey. simpl in Ey. congruence.
    + intros Hc. rewrite Ec, Hc. reflexivity.
Qed.

Lemma missing_position_color_witness :
  ∃ rep,
    graph_to_embeddable_json G_loop (PFloat (of_dyadic 1 3)) = Ok rep ∧
    map n_id (graph_nodes rep) = (nodes G_loop).*1 ∧
    ∀ (i : nat) n data, nodes G_loop !! i = Some (n, data) →
      ∃ out,
        graph_nodes rep !! i = Some out ∧ n_id out = n ∧
        (data !! "x" = None → n_x out = Ffin 0) ∧
        (data !! "y" = None → n_y out = Ffin 0) ∧
        (data !! "color" = None → n_color out = PStr "#1f77b4").
Proof.
  apply (missing_position_color G_loop (PFloat (of_dyadic 1 3))).
  - repeat constructor; intros v [H|H]; vm_compute in H; discriminate.
  - eexists. reflexivity.
  - repeat constructor; eexists; vm_compute; reflexivity.
Defined.

End Claims.

(** * Further properties of the script *)

Section Further.

Local Open Scope Z_scope.
Local Open Scope list_scope.
Local Opaque Float.one Float.overflow.

Ltac decide_by_compute :=
  match goal with
  | |- ?P => refine (@bool_decide_unpack P _ _); vm_compute; exact I
  end.

(** X1.  With a palette that is not empty, [linear_color] never raises
    IndexError, and a colour it returns is an entry of the palette: the
    two clamps keep the index within bounds, whatever the value and the
    bounds. *)
Theorem linear_color_in_palette (value : pyval) (vmin vmax : Z)
    (palette : list string) :
  palette ≠ [] →
  linear_color value vmin vmax palette ≠ Raise IndexError ∧
  ∀ c, linear_color value vmin vmax palette = Ok c → c ∈ palette.
Proof.
  intros Hne.
  destruct (linear_color_cases value vmin vmax palette Hne)
    as [(i & Hi & ->)|(e & He & ->)].
  - split; [apply index_not_raise; assumption|].
    intros c. apply index_elem_of.
  - split; [congruence|discriminate].
Qed.

Lemma linear_color_in_palette_witness :
  linear_color (PInt 3) 0 10 PALETTE ≠ Raise IndexError ∧
  ∀ c, linear_color (PInt 3) 0 10 PALETTE = Ok c → c ∈ PALETTE.
Proof. apply linear_color_in_palette. discriminate. Defined.


(** X2.  For bounds [vmin < vmax] that [range_ok] accepts, [linear_color]
    saturates: a value that converts to a float at or below [float(vmin)]
    gets the first palette entry, and one at or above [float(vmax)] the
    last. *)
Theorem linear_color_saturates (value : pyval) (f : float) (vmin vmax : Z)
    (lo hi : float) :
  vmin < vmax → range_ok vmin vmax = true →
  float_of_Z vmin = Ok lo → float_of_Z vmax = Ok hi →
  py_float value = Ok f →
  (fle f lo → linear_color value vmin vmax PALETTE = Ok "#5e4fa2") ∧
  (fle hi f → linear_color value vmin vmax PALETTE = Ok "#9e0142").
Proof.
  intros Hlt Hr Hlo Hhi Hf.
  destruct (range_ok_inv _ _ Hlt Hr) as (l & h & d & Hl & Hh & _).
  apply float_of_Z_inv in Hlo, Hhi.
  assert (lo = Ffin l) as -> by congruence.
  assert (hi = Ffin h) as -> by congruence.
  split; intros Hle.
  - eapply linear_color_low; eassumption.
  - eapply linear_color_high; eassumption.
Qed.

Lemma linear_color_saturates_witness :
  (fle (Ffin (2 * one)) (Ffin (3 * one)) →
   linear_color (PInt 2) 3 7 PALETTE = Ok "#5e4fa2") ∧
  (fle (Ffin (7 * one)) (Ffin (2 * one)) →
   linear_color (PInt 2) 3 7 PALETTE = Ok "#9e0142").
Proof.
  apply (linear_color_saturates (PInt 2) (Ffin (2 * one)) 3 7
           (Ffin (3 * one)) (Ffin (7 * one)));
    [lia | vm_compute; reflexivity..].
Defined.

(** Below the bounds [3] and [7] the colour is the first palette entry,
    above them the last, also for an infinite value. *)
Example linear_color_saturates_sample :
  linear_color (PInt 2) 3 7 PALETTE = Ok "#5e4fa2" ∧
  linear_color (PInt 3) 3 7 PALETTE = Ok "#5e4fa2" ∧
  linear_color (PInt 7) 3 7 PALETTE = Ok "#9e0142" ∧
  linear_color (PFloat (Finf false)) 3 7 PALETTE = Ok "#9e0142".
Proof. vm_compute. auto. Qed.

(** X3.  On bounds that are degenerate ([vmax <= vmin]) or that [range_ok]
    accepts, [linear_color] returns a colour exactly when the value is
    [None] or [float] converts it; when the value is not [None] and
    [float(value)] raises, [linear_color] raises that exception. *)
Theorem linear_color_returns (value : pyval) (vmin vmax : Z) :
  vmax ≤ vmin ∨ range_ok vmin vmax = true →
  ((∃ c, linear_color value vmin vmax PALETTE = Ok c) ↔
   value = PNone ∨ float_ok value) ∧
  (∀ e, value ≠ PNone → py_float value = Raise e →
     linear_color value vmin vmax PALETTE = Raise e).
Proof.
  intros Hrange. split; [split|].
  - intros [c Hc]. unfold linear_color in Hc.
    destruct value; [left; reflexivity|right..];
      (destruct (py_float _) as [x|e] eqn:Ef; [exists x; exact Ef|]);
      rewrite bind_raise in Hc; discriminate.
  - intros [->|Hf]; [eexists; apply linear_color_missing|].
    apply linear_color_total; assumption.
  - intros e Hv He. unfold linear_color.
    destruct value; [congruence|..]; rewrite He; reflexivity.
Qed.

Lemma linear_color_returns_witness :
  ((∃ c, linear_color (PStr "3,5") 0 10 PALETTE = Ok c) ↔
   PStr "3,5" = PNone ∨ float_ok (PStr "3,5")) ∧
  (∀ e, PStr "3,5" ≠ PNone → py_float (PStr "3,5") = Raise e →
     linear_color (PStr "3,5") 0 10 PALETTE = Raise e).
Proof.
  apply linear_color_returns. right. vm_compute. reflexivity.
Defined.

(** X4.  When [build_graph] returns, the graph has the same nodes in the
    same order.  Each node keeps every attribute but ["x"], ["y"],
    ["color"] and ["Conexões"]; it holds under ["Conexões"] the stored
    value when that coerces to an int and the degree otherwise; a node that
    the layout positions holds the two coordinates of the layout as floats
    and a colour of the palette; a node that the layout leaves out keeps
    its coordinates and colour as they were. *)
Theorem build_graph_nodes (G : graph) (pos : list (string * (float * float)))
    (G' : graph) :
  NoDup (nodes G).*1 → NoDup pos.*1 → build_graph G pos = Ok G' →
  (nodes G').*1 = (nodes G).*1 ∧
  ∀ (i : nat) n d, nodes G !! i = Some (n, d) →
    ∃ d', nodes G' !! i = Some (n, d') ∧
      (∀ k, k ≠ "x" → k ≠ "y" → k ≠ "color" → k ≠ "Conexões" →
         d' !! k = d !! k) ∧
      d' !! "Conexões" = Some (stored_connectivity G n d) ∧
      (∀ x y, (n, (x, y)) ∈ pos →
         d' !! "x" = Some (PFloat x) ∧ d' !! "y" = Some (PFloat y) ∧
         ∃ c, d' !! "color" = Some (PStr c) ∧ c ∈ PALETTE) ∧
      (n ∉ pos.*1 →
         d' !! "x" = d !! "x" ∧ d' !! "y" = d !! "y" ∧
         d' !! "color" = d !! "color").
Proof.
  intros Hnd Hpos Hrun.
  destruct (build_graph_inv G pos G' Hnd Hrun) as (_ & Hids & Hlk).
  split; [assumption|]. intros i n d Hi.
  destruct (Hlk i _ Hi) as ([n' d'] & Hi' & Hid & Hkeys & _ & Hout).
  destruct (conexoes_step_stored G n d) as (Hsid & Hst & Hsk & _).
  rewrite Hsid in Hid, Hout. cbn [fst snd] in Hid, Hkeys, Hout. subst n'.
  exists d'. split; [assumption|].
  split; [|split; [|split]].
  - intros k Hx Hy Hc Hk. rewrite Hkeys by assumption. apply Hsk, Hk.
  - rewrite Hkeys by done. exact Hst.
  - intros x y Hxy.
    eapply (color_steps_xy _ _ pos _ _ Hpos (build_graph_run _ _ _ Hrun));
      eassumption.
  - intros Hn. specialize (Hout Hn).
    assert (d' = (conexoes_step G (n, d)).1.2) as -> by (rewrite <- Hout; reflexivity).
    repeat split; apply Hsk; done.
Qed.

Lemma build_graph_nodes_witness :
  (nodes G_loop').*1 = (nodes G_loop).*1 ∧
  ∀ (i : nat) n d, nodes G_loop !! i = Some (n, d) →
    ∃ d', nodes G_loop' !! i = Some (n, d') ∧
      (∀ k, k ≠ "x" → k ≠ "y" → k ≠ "color" → k ≠ "Conexões" →
         d' !! k = d !! k) ∧
      d' !! "Conexões" = Some (stored_connectivity G_loop n d) ∧
      (∀ x y, (n, (x, y)) ∈ pos_abc →
         d' !! "x" = Some (PFloat x) ∧ d' !! "y" = Some (PFloat y) ∧
         ∃ c, d' !! "color" = Some (PStr c) ∧ c ∈ PALETTE) ∧
      (n ∉ pos_abc.*1 →
         d' !! "x" = d !! "x" ∧ d' !! "y" = d !! "y" ∧
         d' !! "color" = d !! "color").
Proof.
  apply (build_graph_nodes G_loop pos_abc G_loop').
  - decide_by_compute.
  - decide_by_compute.
  - vm_compute. reflexivity.
Defined.

(** X5.  For a layout that positions nodes of the graph only and
    connectivities of magnitude at most [2^53], [build_graph] returns
    exactly when no positioned node stores its connectivity as a rejected
    text: one that the first loop reads as a number once commas are dots,
    but that [float] does not read as it stands. *)
Theorem build_graph_returns (G : graph) (pos : list (string * (float * float))) :
  NoDup (nodes G).*1 →
  (∀ n, n ∈ pos.*1 → n ∈ (nodes G).*1) →
  (∀ nd, nd ∈ nodes G → Z.abs (connectivity G nd) ≤ 2 ^ 53) →
  ((∃ G', build_graph G pos = Ok G') ↔
   (∀ n d v, (n, d) ∈ nodes G → n ∈ pos.*1 → d !! "Conexões" = Some v →
      ¬ text_rejected v)).
Proof.
  intros Hnd Hsub Hb. split.
  - intros [G' Hrun] n d v Hin Hpos Hv (s & -> & Hc & Hs).
    destruct (coerce_int (PStr s)) as [c|] eqn:Ec; [|congruence].
    destruct (build_graph_raises_on_text G pos n d s c Hnd Hin Hpos Hv Ec Hs)
      as [e He].
    congruence.
  - apply build_graph_total; assumption.
Qed.

Lemma build_graph_returns_witness :
  (∃ G', build_graph G_comma pos_A = Ok G') ↔
  (∀ n d v, (n, d) ∈ nodes G_comma → n ∈ pos_A.*1 →
     d !! "Conexões" = Some v → ¬ text_rejected v).
Proof.
  apply (build_graph_returns G_comma pos_A).
  - decide_by_compute.
  - intros n Hn. exact Hn.
  - intros nd Hnd. apply list_elem_of_singleton in Hnd. subst nd.
    vm_compute. discriminate.
Defined.

(** The text ["3,5"] is a rejected one, ["3.5"] is not. *)
Example text_rejected_sample :
  text_rejected (PStr "3,5") ∧ ¬ text_rejected (PStr "3.5").
Proof.
  split.
  - exists "3,5". split; [reflexivity|].
    split; [vm_compute; discriminate|vm_compute; reflexivity].
  - intros (s & [= <-] & _ & Hs). vm_compute in Hs. discriminate.
Qed.

(** X6.  In the graph that [build_graph] returns, the colours follow the
    connectivity: of two positioned nodes whose stored connectivity is
    absent or an int, the one with the smaller connectivity has a colour
    that is not later in the palette (connectivities of magnitude at most
    [2^53]). *)
Theorem node_colors_monotone (G : graph) (pos : list (string * (float * float)))
    (G' : graph) (n1 n2 : string) (d1 d2 : gmap string pyval) :
  NoDup (nodes G).*1 → build_graph G pos = Ok G' →
  (∀ nd, nd ∈ nodes G → Z.abs (connectivity G nd) ≤ 2 ^ 53) →
  (n1, d1) ∈ nodes G → (n2, d2) ∈ nodes G →
  n1 ∈ pos.*1 → n2 ∈ pos.*1 →
  int_or_absent (d1 !! "Conexões") → int_or_absent (d2 !! "Conexões") →
  connectivity G (n1, d1) ≤ connectivity G (n2, d2) →
  ∃ d1' d2' (i1 i2 : nat) (c1 c2 : string),
    (n1, d1') ∈ nodes G' ∧ (n2, d2') ∈ nodes G' ∧
    d1' !! "color" = Some (PStr c1) ∧ d2' !! "color" = Some (PStr c2) ∧
    PALETTE !! i1 = Some c1 ∧ PALETTE !! i2 = Some c2 ∧ (i1 ≤ i2)%nat.
Proof.
  intros Hnd Hrun Hb Hin1 Hin2 Hp1 Hp2 Hi1 Hi2 Hle.
  destruct (node_after_build_graph G pos G' n1 d1 Hnd Hrun Hin1) as [d1' Hin1'].
  destruct (node_after_build_graph G pos G' n2 d2 Hnd Hrun Hin2) as [d2' Hin2'].
  destruct (node_color G pos G' n1 d1 d1' Hnd Hrun Hin1 Hin1' Hp1) as (c1 & Hc1 & Hd1).
  destruct (node_color G pos G' n2 d2 d2' Hnd Hrun Hin2 Hin2' Hp2) as (c2 & Hc2 & Hd2).
  rewrite stored_int in Hc1, Hc2 by assumption.
  destruct (values_range G Hb) as (Hrange & _ & Hbounds).
  pose proof (Hbounds _ Hin1) as Hb1. pose proof (Hbounds _ Hin2) as Hb2.
  set (vmin := min_or 0 _) in *. set (vmax := max_or 1 _) in *.
  pose proof one_pos as Ho. exists d1', d2'.
  destruct (Z_le_gt_dec vmax vmin) as [Hdeg|Hlt].
  - apply linear_color_degenerate_result in Hc1, Hc2; try assumption. subst c1 c2.
    exists 0%nat, 0%nat. eexists _, _. repeat split; try eassumption. lia.
  - destruct Hrange as [?|Hr]; [lia|].
    destruct (linear_color_index_mono vmin vmax
                (PInt (connectivity G (n1, d1))) (PInt (connectivity G (n2, d2)))
                (connectivity G (n1, d1) * one) (connectivity G (n2, d2) * one))
      as (i1 & i2 & c1' & c2' & E1 & E2 & Hl1 & Hl2 & Hi); try reflexivity;
      try assumption; try nia.
    assert (c1' = c1) as -> by congruence. assert (c2' = c2) as -> by congruence.
    exists i1, i2, c1, c2. auto 10.
Qed.

Lemma node_colors_monotone_witness :
  ∃ d1' d2' (i1 i2 : nat) (c1 c2 : string),
    ("B", d1') ∈ nodes G_loop' ∧ ("A", d2') ∈ nodes G_loop' ∧
    d1' !! "color" = Some (PStr c1) ∧ d2' !! "color" = Some (PStr c2) ∧
    PALETTE !! i1 = Some c1 ∧ PALETTE !! i2 = Some c2 ∧ (i1 ≤ i2)%nat.
Proof.
  apply (node_colors_monotone G_loop pos_abc G_loop' "B" "A" ∅ ∅).
  - decide_by_compute.
  - vm_compute. reflexivity.
  - intros nd Hnd. repeat (apply elem_of_cons in Hnd as [->|Hnd]);
      [vm_compute; discriminate..|apply elem_of_nil in Hnd; destruct Hnd].
  - apply (list_elem_of_lookup_2 _ 1%nat). reflexivity.
  - apply (list_elem_of_lookup_2 _ 0%nat). reflexivity.
  - apply (list_elem_of_lookup_2 _ 1%nat). reflexivity.
  - apply (list_elem_of_lookup_2 _ 0%nat). reflexivity.
  - left. reflexivity.
  - left. reflexivity.
  - vm_compute. discriminate.
Defined.

(** X7.  In the graph that [build_graph] returns, a positioned node whose
    stored connectivity is absent or an int has the first palette colour
    when no node has a smaller connectivity, and the last palette colour
    when no node has a greater one and some node has a smaller one
    (connectivities of magnitude at most [2^53]). *)
Theorem node_colors_extremes (G : graph) (pos : list (string * (float * float)))
    (G' : graph) (n : string) (d : gmap string pyval) :
  NoDup (nodes G).*1 → build_graph G pos = Ok G' →
  (∀ nd, nd ∈ nodes G → Z.abs (connectivity G nd) ≤ 2 ^ 53) →
  (n, d) ∈ nodes G → n ∈ pos.*1 →
  int_or_absent (d !! "Conexões") →
  ∃ d', (n, d') ∈ nodes G' ∧
    ((∀ nd, nd ∈ nodes G → connectivity G (n, d) ≤ connectivity G nd) →
     d' !! "color" = Some (PStr "#5e4fa2")) ∧
    ((∀ nd, nd ∈ nodes G → connectivity G nd ≤ connectivity G (n, d)) →
     (∃ nd, nd ∈ nodes G ∧ connectivity G nd < connectivity G (n, d)) →
     d' !! "color" = Some (PStr "#9e0142")).
Proof.
  intros Hnd Hrun Hb Hin Hp Hi.
  destruct (node_after_build_graph G pos G' n d Hnd Hrun Hin) as [d' Hin'].
  exists d'. split; [assumption|].
  destruct (node_color G pos G' n d d' Hnd Hrun Hin Hin' Hp) as (c & Hc & Hd).
  rewrite stored_int in Hc by assumption.
  destruct (values_range G Hb) as (Hrange & Hmem & Hbounds).
  assert (Hne : nodes G ≠ []) by (intros E; rewrite E in Hin; inversion Hin).
  destruct (Hmem Hne) as [Hmin Hmax].
  pose proof (Hbounds _ Hin) as Hbn.
  set (values := map snd (map (conexoes_step G) (nodes G))) in *.
  assert (Hval : ∀ c, c ∈ values → ∃ nd, nd ∈ nodes G ∧ c = connectivity G nd).
  { intros c0. unfold values. rewrite map_map.
    intros Hc0. apply list_elem_of_fmap in Hc0 as (nd & -> & Hn). eauto. }
  set (vmin := min_or 0 values) in *. set (vmax := max_or 1 values) in *.
  pose proof one_pos as Ho. rewrite Hd.
  split.
  - intros Hleast. do 2 f_equal.
    destruct (Hval _ Hmin) as (nd & Hnd0 & Evmin).
    assert (Ec : connectivity G (n, d) = vmin) by (pose proof (Hleast _ Hnd0); lia).
    destruct (Z_le_gt_dec vmax vmin) as [Hdeg|Hlt].
    + eapply linear_color_degenerate_result; eassumption.
    + destruct Hrange as [?|Hr]; [lia|].
      destruct (range_ok_inv vmin vmax ltac:(lia) Hr) as (l & h & _ & Hl & _).
      assert (Ok c = Ok "#5e4fa2"); [|congruence]. rewrite <- Hc.
      eapply (linear_color_low _ (Ffin l)); try eassumption; try lia.
      * rewrite Ec. simpl. unfold float_of_Z. rewrite Hl. reflexivity.
      * simpl. lia.
  - intros Hmost (nd & Hnd0 & Hless). do 2 f_equal.
    destruct (Hval _ Hmax) as (ndx & Hndx & Evmax).
    assert (Ec : connectivity G (n, d) = vmax) by (pose proof (Hmost _ Hndx); lia).
    pose proof (Hbounds _ Hnd0) as Hb0.
    destruct Hrange as [?|Hr]; [lia|].
    destruct (range_ok_inv vmin vmax ltac:(lia) Hr) as (l & h & _ & _ & Hh & _).
    assert (Ok c = Ok "#9e0142"); [|congruence]. rewrite <- Hc.
    eapply (linear_color_high _ (Ffin h)); try eassumption; try lia.
    + rewrite Ec. simpl. unfold float_of_Z. rewrite Hh. reflexivity.
    + simpl. lia.
Qed.

Lemma node_colors_extremes_witness :
  ∃ d', ("A", d') ∈ nodes G_loop' ∧
    ((∀ nd, nd ∈ nodes G_loop →
        connectivity G_loop ("A", ∅) ≤ connectivity G_loop nd) →
     d' !! "color" = Some (PStr "#5e4fa2")) ∧
    ((∀ nd, nd ∈ nodes G_loop →
        connectivity G_loop nd ≤ connectivity G_loop ("A", ∅)) →
     (∃ nd, nd ∈ nodes G_loop ∧
            connectivity G_loop nd < connectivity G_loop ("A", ∅)) →
     d' !! "color" = Some (PStr "#9e0142")).
Proof.
  apply (node_colors_extremes G_loop pos_abc G_loop' "A" ∅).
  - decide_by_compute.
  - vm_compute. reflexivity.
  - intros nd Hnd. repeat (apply elem_of_cons in Hnd as [->|Hnd]);
      [vm_compute; discriminate..|apply elem_of_nil in Hnd; destruct Hnd].
  - apply (list_elem_of_lookup_2 _ 0%nat). reflexivity.
  - apply (list_elem_of_lookup_2 _ 0%nat). reflexivity.
  - left. reflexivity.
Defined.

(** The colours of the sample: B and C, of degree 2, have the first palette
    entry, and A, of degree 4, the last. *)
Example node_colors_sample :
  map (λ nd, (nd.1, nd.2 !! "color")) (nodes G_loop')
  = [("A", Some (PStr "#9e0142")); ("B", Some (PStr "#5e4fa2"));
     ("C", Some (PStr "#5e4fa2"))].
Proof. vm_compute. reflexivity. Qed.

(** X8.  After [build_graph], the links of the report are one for each
    edge, parallel edges included, in the order and the orientation in
    which the graph yields them; the weight of a link is the normalized
    weight of its edge with [1.0] in place of a zero, and its colour is
    ["#aaa"] when the edge has none. *)
Theorem report_links (G : graph) (pos : list (string * (float * float)))
    (G' : graph) (r : pyval) (rep : report) :
  build_graph G pos = Ok G' →
  graph_to_embeddable_json G' r = Ok rep →
  graph_links rep
  = map (λ e, {| l_source := e.1.1; l_target := e.1.2;
                 l_weight := table_weight e.2;
                 l_color := default (PStr "#aaa") (e.2 !! "color") |}) (edges G).
Proof.
  intros Hrun Hrep. apply report_inv in Hrep as (_ & Hlinks & _).
  rewrite (build_graph_edges _ _ _ Hrun), links_after_build_graph in Hlinks.
  congruence.
Qed.

Lemma report_links_witness :
  graph_links report_weights
  = map (λ e, {| l_source := e.1.1; l_target := e.1.2;
                 l_weight := table_weight e.2;
                 l_color := default (PStr "#aaa") (e.2 !! "color") |})
        (edges G_weights).
Proof.
  apply (report_links G_weights pos_weights G_weights' (PFloat (of_dyadic 1 3))).
  - vm_compute. reflexivity.
  - vm_compute. reflexivity.
Defined.

(** The links of the sample: one for each edge, the comma weight read as
    2.5 and the zero, the missing and the unparseable weight as 1. *)
Example report_links_sample :
  map (λ l, (l_source l, l_target l, l_weight l, l_color l))
      (graph_links report_weights)
  = [("A", "B", of_dyadic 5 (-1), PStr "#aaa"); ("C", "D", Ffin one, PStr "#aaa");
     ("A", "C", Ffin one, PStr "#aaa"); ("B", "D", Ffin one, PStr "#aaa")].
Proof. vm_compute. reflexivity. Qed.

(** X9.  [main] returns a report when the layout positions exactly the
    nodes of the graph, the connectivities are of magnitude at most [2^53]
    and no node stores a rejected text.  The report then has one node entry
    and one vertex row for each node, in order, each entry with the given
    radius and a colour of the palette, one link for each edge, and one row
    of the edge table for each distinct key. *)
Theorem main_returns (G : graph) (pos : list (string * (float * float)))
    (node_radius : float) :
  NoDup (nodes G).*1 →
  pos.*1 ≡ₚ (nodes G).*1 →
  (∀ nd, nd ∈ nodes G → Z.abs (connectivity G nd) ≤ 2 ^ 53) →
  (∀ n d v, (n, d) ∈ nodes G → d !! "Conexões" = Some v → ¬ text_rejected v) →
  ∃ rep,
    main G pos node_radius = Ok rep ∧
    map n_id (graph_nodes rep) = (nodes G).*1 ∧
    map v_id (vertex_table rep) = (nodes G).*1 ∧
    Forall (λ out, n_r out = node_radius ∧
                   ∃ c, n_color out = PStr c ∧ c ∈ PALETTE) (graph_nodes rep) ∧
    map (λ l, (l_source l, l_target l)) (graph_links rep)
      = map (λ e, (e.1.1, e.1.2)) (edges G) ∧
    length (edge_table rep) = size (edge_keys G).
Proof.
  intros Hnd Hperm Hb Htext.
  assert (Hpos : NoDup pos.*1) by (rewrite Hperm; assumption).
  destruct (build_graph_total G pos) as [G' Hrun]; try assumption.
  { intros n Hn. rewrite <- Hperm. assumption. }
  { intros n d v Hin _ Hv. eapply Htext; eassumption. }
  destruct (build_graph_inv G pos G' Hnd Hrun) as (Hedges & Hids & _).
  pose proof (build_graph_run G pos G' Hrun) as Hloop. cbn zeta in Hloop.
  set (entry := λ nd : string * gmap string pyval,
         {| n_id := nd.1;
            n_label := py_str (default (PStr nd.1) (nd.2 !! "label"));
            n_x := match nd.2 !! "x" with Some (PFloat x) => x | _ => Ffin 0 end;
            n_y := match nd.2 !! "y" with Some (PFloat y) => y | _ => Ffin 0 end;
            n_r := node_radius;
            n_color := default (PStr "#1f77b4") (nd.2 !! "color");
            n_pub_tot := to_int (default (PInt 0) (nd.2 !! "Publicações_totais"));
            n_pub_coa := to_int (default (PInt 0) (nd.2 !! "Publicações_em_coautoria"));
            n_conex := to_int (default (PInt 0) (nd.2 !! "Conexões"));
            n_prop := to_float (default PNone
                                  (nd.2 !! "Proporção_da_coautoria_Fiocruz")) |}).
  assert (Hxy : ∀ n d', (n, d') ∈ nodes G' →
            ∃ x y c, d' !! "x" = Some (PFloat x) ∧ d' !! "y" = Some (PFloat y) ∧
                     d' !! "color" = Some (PStr c) ∧ c ∈ PALETTE).
  { intros n d' Hin.
    assert (Hn : n ∈ pos.*1).
    { rewrite Hperm, <- Hids. apply list_elem_of_fmap.
      exists (n, d'). split; [reflexivity|assumption]. }
    apply list_elem_of_fmap in Hn as ([n0 [x y]] & Hn0 & Hp). simpl in Hn0. subst n0.
    apply list_elem_of_lookup in Hin as [i Hi].
    destruct (color_steps_xy _ _ pos _ _ Hpos Hloop n x y i d' Hp Hi)
      as (Hx & Hy & c & Hc & Hin).
    eauto 10. }
  assert (Hnodes : map_result (node_entry (PFloat node_radius)) (nodes G')
                   = Ok (map entry (nodes G'))).
  { apply map_result_map. intros [n d'] Hin.
    destruct (Hxy n d' Hin) as (x & y & c & Hx & Hy & _).
    rewrite (node_entry_positioned node_radius n d' x y Hx Hy). unfold entry. cbn [fst snd].
    rewrite Hx, Hy. reflexivity. }
  destruct (table_after_build_graph G pos G' (labels G') Hrun) as [rows Hrows].
  eexists. split; [|split; [|split; [|split; [|split]]]].
  - unfold main. rewrite Hrun, bind_ok. unfold graph_to_embeddable_json.
    rewrite Hnodes, bind_ok, Hedges, links_after_build_graph, bind_ok.
    rewrite Hrows, bind_ok. reflexivity.
  - cbn [graph_nodes]. rewrite map_map. exact Hids.
  - cbn [vertex_table]. rewrite !map_map. exact Hids.
  - cbn [graph_nodes]. rewrite Forall_fmap, Forall_forall. intros [n d'] Hin.
    destruct (Hxy n d' Hin) as (x & y & c & _ & _ & Hc & Hpal).
    split; [reflexivity|]. exists c. simpl. rewrite Hc. auto.
  - cbn [graph_links]. rewrite map_map. reflexivity.
  - cbn [edge_table]. rewrite (table_length _ _ _ Hrows).
    f_equal. apply edge_keys_weight_step. assumption.
Qed.

Lemma main_returns_witness :
  ∃ rep,
    main G_loop pos_abc (of_dyadic 1 3) = Ok rep ∧
    map n_id (graph_nodes rep) = (nodes G_loop).*1 ∧
    map v_id (vertex_table rep) = (nodes G_loop).*1 ∧
    Forall (λ out, n_r out = of_dyadic 1 3 ∧
                   ∃ c, n_color out = PStr c ∧ c ∈ PALETTE) (graph_nodes rep) ∧
    map (λ l, (l_source l, l_target l)) (graph_links rep)
      = map (λ e, (e.1.1, e.1.2)) (edges G_loop) ∧
    length (edge_table rep) = size (edge_keys G_loop).
Proof.
  apply (main_returns G_loop pos_abc (of_dyadic 1 3)).
  - decide_by_compute.
  - reflexivity.
  - intros nd Hnd. repeat (apply elem_of_cons in Hnd as [->|Hnd]);
      [vm_compute; discriminate..|apply elem_of_nil in Hnd; destruct Hnd].
  - intros n d v Hnd Hv. repeat (apply elem_of_cons in Hnd as [[= -> ->]|Hnd]);
      [rewrite lookup_empty in Hv; discriminate..
      |apply elem_of_nil in Hnd; destruct Hnd].
Defined.

(** X10.  The edge table does not depend on the orientation in which the
    graph yields an edge: turning any of the edges around gives the same
    table, or the same exception. *)
Theorem edge_table_orientation (G1 G2 : graph) (id_to_label : gmap string string) :
  nodes G1 = nodes G2 →
  Forall2 flipped (edges G1) (edges G2) →
  compute_common_neighbors_table G1 id_to_label
  = compute_common_neighbors_table G2 id_to_label.
Proof.
  intros Hn Hf.
  pose proof (neigh_ext G1 G2 Hn (adjacent_flipped G1 G2 Hf)) as Hneigh.
  unfold compute_common_neighbors_table, edge_rows. do 2 f_equal.
  generalize (∅ : gset string, @nil row).
  induction Hf as [|[[u v] d] e2 es1 es2 Hfl _ IH]; intros st; [reflexivity|].
  rewrite !for_each_cons.
  assert (edge_step G1 id_to_label st (u, v, d) = edge_step G2 id_to_label st e2) as ->.
  { destruct Hfl as [->| ->]; cbn [fst snd].
    - apply edge_step_ext, Hneigh.
    - rewrite edge_step_flip. apply edge_step_ext, Hneigh. }
  destruct (edge_step G2 id_to_label st e2) as [st'|e]; [|reflexivity].
  rewrite !bind_ok. apply IH.
Qed.

Lemma edge_table_orientation_witness :
  compute_common_neighbors_table G_abc ∅
  = compute_common_neighbors_table G_abc_flipped ∅.
Proof.
  apply (edge_table_orientation G_abc G_abc_flipped ∅).
  - reflexivity.
  - constructor; [right; reflexivity|].
    constructor; [left; reflexivity|].
    constructor; [right; reflexivity|].
    constructor.
Defined.

(** X11.  When no two edges have the same key and no weight of the table
    is NaN, the edge table does not depend on the order in which the graph
    yields its edges. *)
Theorem edge_table_order (G1 G2 : graph) (id_to_label : gmap string string)
    (rows : list row) :
  nodes G1 = nodes G2 →
  edges G1 ≡ₚ edges G2 →
  NoDup (map (λ e, edge_key e.1.1 e.1.2) (edges G1)) →
  compute_common_neighbors_table G1 id_to_label = Ok rows →
  Forall (λ r, colabs r ≠ Fnan) rows →
  compute_common_neighbors_table G2 id_to_label = Ok rows.
Proof.
  intros Hn Hp Hkeys Hrows Hnan.
  pose proof (neigh_ext G1 G2 Hn (adjacent_perm G1 G2 Hp)) as Hneigh.
  apply table_inv in Hrows as (rs & Hrs & ->).
  rewrite edge_rows_eq, first_of_key_all in Hrs;
    [|assumption|intros e _; apply not_elem_of_empty].
  destruct (map_result_perm _ _ _ _ Hp Hrs) as (rs2 & Hrs2 & Hperm).
  unfold compute_common_neighbors_table.
  rewrite edge_rows_eq, first_of_key_all;
    [|rewrite <- Hp; assumption|intros e _; apply not_elem_of_empty].
  rewrite (map_result_ext _ (row_of G1 id_to_label))
    by (intros e; symmetry; apply row_of_ext, Hneigh).
  rewrite Hrs2, bind_ok. f_equal. symmetry. apply sort_rows_perm_eq; [assumption|].
  rewrite <- (sort_rows_perm rs). assumption.
Qed.

Lemma edge_table_order_witness :
  compute_common_neighbors_table G_loop_reordered ∅ = Ok rows_loop.
Proof.
  apply (edge_table_order G_loop G_loop_reordered ∅ rows_loop).
  - reflexivity.
  - apply (Permutation_cons_app [("A", "C", ∅); ("B", "C", ∅)] [("A", "B", ∅)]).
    apply (Permutation_cons_app [("A", "C", ∅); ("B", "C", ∅)] []).
    apply perm_swap.
  - decide_by_compute.
  - vm_compute. reflexivity.
  - repeat constructor; discriminate.
Defined.

(** X12.  In the report of a well-formed graph, the label of a node entry
    is the ["label"] attribute as text, or the id when there is none, and
    the display string of an edge row is made of the labels of the two
    endpoints of an edge, the smaller label first, joined by [", "]. *)
Theorem report_labels (G : graph) (r : pyval) (rep : report) :
  wf_graph G →
  graph_to_embeddable_json G r = Ok rep →
  (∀ (i : nat) n d, nodes G !! i = Some (n, d) →
     ∃ out, graph_nodes rep !! i = Some out ∧ n_label out = label_of n d) ∧
  (∀ row, row ∈ edge_table rep →
     ∃ u v d du dv,
       (u, v, d) ∈ edges G ∧ (u, du) ∈ nodes G ∧ (v, dv) ∈ nodes G ∧
       aresta row = (sorted2 (label_of u du) (label_of v dv)).1 +:+ ", "
                    +:+ (sorted2 (label_of u du) (label_of v dv)).2).
Proof.
  intros [Hnd Hwf] Hrep. apply report_inv in Hrep as (Hnodes & _ & Htab & _). split.
  - intros i n d Hi.
    destruct (map_result_lookup _ _ _ Hnodes) as [_ Hlk].
    destruct (Hlk i _ Hi) as (out & Hout & Hentry). exists out. split; [assumption|].
    unfold node_entry in Hentry.
    destruct (py_float (default (PFloat (Ffin 0)) (d !! "x"))); [|discriminate].
    destruct (py_float (default (PFloat (Ffin 0)) (d !! "y"))); [|discriminate].
    destruct (py_float r); [|discriminate].
    rewrite !bind_ok in Hentry. injection Hentry as <-. reflexivity.
  - intros row Hrow.
    destruct (table_rows _ _ _ Htab) as [Hfrom _].
    destruct (Hfrom row Hrow) as ([[u v] d] & He & Hr).
    apply first_of_key_subseteq in He.
    destruct (row_of_inv G (labels G) u v d row (conj Hnd Hwf) He Hr) as (Ha & _).
    rewrite Forall_forall in Hwf. destruct (Hwf _ He) as [Hu Hv]. cbn [fst snd] in Hu, Hv.
    apply list_elem_of_fmap in Hu as ([u0 du] & Hu0 & Hdu). simpl in Hu0. subst u0.
    apply list_elem_of_fmap in Hv as ([v0 dv] & Hv0 & Hdv). simpl in Hv0. subst v0.
    exists u, v, d, du, dv. repeat split; try assumption.
    rewrite Ha. unfold display.
    destruct (sorted2_cases u v) as [E|E]; rewrite E; cbn [fst snd];
      rewrite (labels_lookup G u du), (labels_lookup G v dv) by assumption;
      cbn [default from_option id].
    + destruct (sorted2 (label_of u du) (label_of v dv)). reflexivity.
    + rewrite (sorted2_comm (label_of v dv)).
      destruct (sorted2 (label_of u du) (label_of v dv)). reflexivity.
Qed.

Lemma report_labels_witness :
  (∀ (i : nat) n d, nodes G_labels !! i = Some (n, d) →
     ∃ out, graph_nodes report_labels_sample !! i = Some out ∧
            n_label out = label_of n d) ∧
  (∀ row, row ∈ edge_table report_labels_sample →
     ∃ u v d du dv,
       (u, v, d) ∈ edges G_labels ∧ (u, du) ∈ nodes G_labels ∧
       (v, dv) ∈ nodes G_labels ∧
       aresta row = (sorted2 (label_of u du) (label_of v dv)).1 +:+ ", "
                    +:+ (sorted2 (label_of u du) (label_of v dv)).2).
Proof.
  apply (report_labels G_labels (PFloat (of_dyadic 1 3))).
  - split; decide_by_compute.
  - vm_compute. reflexivity.
Defined.

(** The rows of the sample: the labels in their own order, the id for the
    node without a label. *)
Example report_labels_rows :
  map n_label (graph_nodes report_labels_sample) = ["Zeta"; "Alpha"; "n3"] ∧
  map aresta (edge_table report_labels_sample) = ["Alpha, Zeta"; "Alpha, n3"].
Proof. vm_compute. auto. Qed.

(** X13.  In a well-formed graph none of whose ids holds the character
    ["|"], the edge table has exactly one row for each unordered pair of
    endpoints; and it never has more rows than the graph has edges. *)
Theorem edge_table_pairs (G : graph) (id_to_label : gmap string string)
    (rows : list row) :
  wf_graph G →
  Forall (λ nd, bar_free nd.1 = true) (nodes G) →
  compute_common_neighbors_table G id_to_label = Ok rows →
  length rows = size (endpoint_pairs G) ∧
  (length rows ≤ length (edges G))%nat.
Proof.
  intros Hwf Hbar Hrows. split.
  - eapply table_length_pairs; eassumption.
  - eapply table_length_le; eassumption.
Qed.

Lemma edge_table_pairs_witness :
  ∃ rows,
    compute_common_neighbors_table G_abc ∅ = Ok rows ∧
    length rows = size (endpoint_pairs G_abc) ∧
    (length rows ≤ length (edges G_abc))%nat.
Proof.
  eexists. split; [vm_compute; reflexivity|].
  apply (edge_table_pairs G_abc ∅).
  - split; decide_by_compute.
  - repeat constructor.
  - vm_compute. reflexivity.
Defined.

(** X14.  The path of the report: [os.path.splitext] cuts the path of
    the input into a root and an extension that is empty or is a dot followed
    by neither dot nor slash; the report is written in the directory of the
    input; and its path is the path of the input exactly when the extension
    of the input is [".html"]. *)
Theorem out_html_path (gexf_path : string) :
  (splitext gexf_path).1 +:+ (splitext gexf_path).2 = gexf_path ∧
  ((splitext gexf_path).2 = "" ∨
   ∃ e, (splitext gexf_path).2 = String "." e ∧
        ("."%char ∉ list_ascii_of_string e) ∧
        ("/"%char ∉ list_ascii_of_string e)) ∧
  dir_part (out_html gexf_path) = dir_part gexf_path ∧
  (out_html gexf_path = gexf_path ↔ (splitext gexf_path).2 = ".html").
Proof.
  destruct (splitext_spec gexf_path) as (root & ext & Hsplit & Hl & Hext).
  cbn zeta in Hl, Hext.
  assert (Hp : string_of_list_ascii root +:+ string_of_list_ascii ext = gexf_path).
  { rewrite <- string_of_list_ascii_app, Hl. apply string_of_list_ascii_of_string. }
  unfold out_html. rewrite Hsplit. cbn [fst snd].
  split; [exact Hp|]. split; [|split].
  - destruct Hext as [->|(e & -> & Hd & Hs & _)]; [left; reflexivity|right].
    exists (string_of_list_ascii e). split; [reflexivity|].
    rewrite list_ascii_of_string_of_list_ascii. auto.
  - unfold dir_part.
    destruct (rfind_root _ root ext (list_ascii_of_string ".html") Hl Hext)
      as [Hr Ht].
    { intros Hin. repeat (apply elem_of_cons in Hin as [Hin|Hin]; [discriminate|]).
      apply elem_of_nil in Hin. destruct Hin. }
    rewrite list_ascii_of_string_app, list_ascii_of_string_of_list_ascii.
    rewrite Hr, Ht. reflexivity.
  - rewrite <- Hp. split.
    + intros H. apply (f_equal list_ascii_of_string) in H.
      rewrite !list_ascii_of_string_app, !list_ascii_of_string_of_list_ascii in H.
      apply app_inv_head in H. rewrite <- H.
      rewrite string_of_list_ascii_of_string. reflexivity.
    + intros ->. reflexivity.
Qed.

(** The report of [dir.v1/rede.gexf] is [dir.v1/rede.html]; a path without
    extension, or whose last component only starts with a dot, has [.html]
    appended. *)
Example out_html_sample :
  out_html "dir.v1/rede.gexf" = "dir.v1/rede.html" ∧
  out_html "dir.v1/rede" = "dir.v1/rede.html" ∧
  out_html "rede.tar.gexf" = "rede.tar.html" ∧
  out_html ".gexf" = ".gexf.html" ∧
  out_html "a/..gexf" = "a/..gexf.html" ∧
  out_html "rede.html" = "rede.html".
Proof. vm_compute. auto 10. Qed.

(** X15.  Decimal numerals are read as the ints they denote.  For an
    int [z] whose numeral is within the digits that CPython converts, the
    text that [str] writes for [z] is coerced back to [z] by [to_int] and
    by the first loop of [build_graph]; and [z] taken through its text,
    as in [to_float] and in the normalization of a weight, becomes the
    binary64 number nearest to it, which is [float(z)] when that does not
    overflow (and an infinity, never an exception, when it does). *)
Theorem int_texts (z : Z) :
  within_str_digits z →
  to_int (PStr (str_of_Z z)) = z ∧
  (∀ G n d, d !! "Conexões" = Some (PStr (str_of_Z z)) →
     connectivity G (n, d) = z) ∧
  to_float (PInt z) = Some (of_ratio (z * one) 1) ∧
  (∀ d, d !! "weight" = Some (PInt z) →
     normalized_weight d = of_ratio (z * one) 1) ∧
  (∀ f, float_of_Z z = Ok f → of_ratio (z * one) 1 = f).
Proof.
  intros _. destruct (numeral_text z) as (Hint & Hfloat & Hcomma).
  assert (Hto : to_int (PStr (str_of_Z z)) = z).
  { unfold to_int. cbn [py_int]. rewrite Hint. reflexivity. }
  split; [exact Hto|]. split; [|split; [|split]].
  - intros G n d Hd. unfold connectivity.
    destruct (conexoes_step_spec G n d) as (Hc & _). cbn zeta in Hc.
    rewrite Hc, Hd. cbn [mbind option_bind]. unfold coerce_int.
    cbn [py_int]. rewrite Hint. reflexivity.
  - unfold to_float. cbn [py_str py_float]. rewrite Hcomma, Hfloat. reflexivity.
  - intros d Hd. unfold normalized_weight. rewrite Hd.
    cbn [py_str py_float]. rewrite Hcomma, Hfloat. reflexivity.
  - intros f. unfold float_of_Z, of_Z.
    destruct (of_ratio (z * one) 1); try discriminate. intros [= <-]. reflexivity.
Qed.

Lemma int_texts_witness :
  within_str_digits (-42) ∧
  to_int (PStr "-42") = -42 ∧
  (∀ G n d, d !! "Conexões" = Some (PStr "-42") →
     connectivity G (n, d) = -42) ∧
  to_float (PInt (-42)) = Some (of_ratio (-42 * one) 1) ∧
  (∀ d, d !! "weight" = Some (PInt (-42)) →
     normalized_weight d = of_ratio (-42 * one) 1) ∧
  (∀ f, float_of_Z (-42) = Ok f → of_ratio (-42 * one) 1 = f).
Proof.
  assert (H : within_str_digits (-42)) by (apply Nat.leb_le; reflexivity).
  split; [exact H|apply (int_texts (-42) H)].
Defined.

(** X16.  A float loses nothing when the script takes it through its
    text: for every binary64 number [f], [float(repr(f))] is [f];
    [to_float] returns [f] itself; and the third loop of [build_graph]
    stores the weight [f] of an edge as it was. *)
Theorem float_texts (f : float) :
  is_binary64 f = true →
  float_of_string (repr_float f) = Some f ∧
  to_float (PFloat f) = Some f ∧
  (∀ d, d !! "weight" = Some (PFloat f) → normalized_weight d = f) ∧
  (∀ u v d, d !! "weight" = Some (PFloat f) →
     weight_step (u, v, d) = (u, v, <["weight" := PFloat f]> d)).
Proof.
  intros Hf. pose proof (float_text_reads f Hf) as Hread.
  split; [apply repr_float_reads, Hf|]. split; [|split].
  - unfold to_float. rewrite Hread. reflexivity.
  - intros d Hd. unfold normalized_weight. rewrite Hd, Hread. reflexivity.
  - intros u v d Hd. rewrite weight_step_eq. unfold normalized_weight.
    rewrite Hd, Hread. reflexivity.
Qed.

Lemma float_texts_witness :
  float_of_string (repr_float (of_dyadic 5 (-1))) = Some (of_dyadic 5 (-1)) ∧
  to_float (PFloat (of_dyadic 5 (-1))) = Some (of_dyadic 5 (-1)) ∧
  (∀ d, d !! "weight" = Some (PFloat (of_dyadic 5 (-1))) →
     normalized_weight d = of_dyadic 5 (-1)) ∧
  (∀ u v d, d !! "weight" = Some (PFloat (of_dyadic 5 (-1))) →
     weight_step (u, v, d) = (u, v, <["weight" := PFloat (of_dyadic 5 (-1))]> d)).
Proof. apply (float_texts (of_dyadic 5 (-1))). vm_compute. reflexivity. Defined.

(** The texts of some floats. *)
Example repr_float_sample :
  repr_float (of_dyadic 5 (-1)) = "2.5" ∧
  repr_float (of_dyadic 1 (-1074)) = "5e-324" ∧
  repr_float (Ffin (- 3 * one)) = "-3.0".
Proof. vm_compute. auto. Qed.

(** X17.  The normalizations of the script are idempotent: the third
    loop of [build_graph] leaves an edge that it has normalized as it is,
    and a float that [to_float] returns is returned by [to_float] as it
    is. *)
Theorem normalization_idempotent :
  (∀ e, weight_step (weight_step e) = weight_step e) ∧
  (∀ x f, to_float x = Some f → to_float (PFloat f) = Some f).
Proof.
  split.
  - intros [[u v] d]. rewrite !weight_step_eq. f_equal.
    unfold normalized_weight at 1. rewrite lookup_insert_eq.
    rewrite float_text_reads by apply normalized_weight_binary64.
    apply insert_insert_eq.
  - intros x f Hx. unfold to_float in *.
    cbn [py_float] in Hx. destruct (float_of_string _) as [g|] eqn:E; [|discriminate].
    injection Hx as <-. rewrite float_text_reads; [reflexivity|].
    eapply float_of_string_binary64, E.
Qed.

End Further.
